(** * Tabular transcoder of np-helper-library: sheet <-> record codec

    A shallow embedding of [src/Read Write To Sheets.js] (with the helper
    [getLastNonEmptyRow] of [src/Code.js]) and the properties of its
    row/column <-> object transcoding: [objectsToSheetV2],
    [sheetToObjectsV2], [upsertRows] and [findAndUpdateRows].

    The script talks to a spreadsheet through the host's [Sheet] and
    [Range] objects.  The host is modelled as a finite map from 1-based
    (row, column) coordinates to cell contents, threaded through a small
    state-and-exception monad: a script either returns or throws, and the
    writes made before a throw stay in the sheet. *)

From stdpp Require Import gmap strings list fin_maps.
From Stdlib Require Import ZArith Lia.

Set Default Proof Using "Type".

(** ** JavaScript values *)

(** The values a record field or a cell can hold.  Numbers are modelled
    as integers; a date is a [Date] object, identified by its time
    value. *)
Inductive value :=
  | VStr (s : string)
  | VNum (n : Z)
  | VBool (b : bool)
  | VDate (t : Z)
  | VNull
  | VUndef.

#[global] Instance value_eq_dec : EqDecision value.
Proof. solve_decision. Defined.

(** Reading past the end of an array yields [undefined]. *)
#[global] Instance value_inhabited : Inhabited value := populate VUndef.

(** [!v] is true exactly for the falsy values. *)
Definition falsy (v : value) : bool :=
  match v with
  | VStr s => bool_decide (s = "")
  | VNum n => bool_decide (n = 0%Z)
  | VBool b => negb b
  | VDate _ => false
  | VNull | VUndef => true
  end.

(** [v !== ""]. *)
Definition neStr (v : value) : bool := negb (bool_decide (v = VStr "")).

(** [v !== "" && v !== null && v !== undefined]. *)
Definition nonEmpty (v : value) : bool :=
  neStr v && negb (bool_decide (v = VNull)) && negb (bool_decide (v = VUndef)).

(** Key equality of [Map] and [Set] (SameValueZero) and [===] of
    [indexOf]: primitives compare by value, [Date] objects by identity.
    Every [getValues] call builds fresh [Date] objects, so no date read
    from the sheet is identical to another value. *)
Definition sameValue (a b : value) : bool :=
  match a, b with
  | VDate _, _ | _, VDate _ => false
  | _, _ => bool_decide (a = b)
  end.

(** A record is a JavaScript object used as a string-keyed map. *)
Abbreviation record := (gmap string value).

(** ** Cells and the sheet *)

(** A cell holds a literal or a formula. *)
Inductive content :=
  | Lit (v : value)
  | Formula (f : string).

#[global] Instance content_eq_dec : EqDecision content.
Proof. solve_decision. Defined.

Definition Blank : content := Lit (VStr "").

#[global] Instance content_inhabited : Inhabited content := populate Blank.

Definition blankValue (v : value) : bool := negb (nonEmpty v).

Definition blankContent (x : content) : bool :=
  match x with
  | Lit v => blankValue v
  | Formula f => bool_decide (f = "")
  end.

(** What the host keeps of a written content: writing [""], [null] or
    [undefined] leaves an empty cell. *)
Definition stored (x : content) : content :=
  if blankContent x then Blank else x.

Abbreviation grid := (gmap (nat * nat) content).

Definition cellAt (g : grid) (r c : nat) : content :=
  match g !! (r, c) with
  | Some x => stored x
  | None => Blank
  end.

Definition setCell (r c : nat) (x : content) (g : grid) : grid :=
  if blankContent x then delete (r, c) g else <[(r, c) := x]> g.

Fixpoint writeRow (r c : nat) (xs : list content) (g : grid) : grid :=
  match xs with
  | [] => g
  | x :: xs' => writeRow r (S c) xs' (setCell r c x g)
  end.

Fixpoint writeRows (r c : nat) (m : list (list content)) (g : grid) : grid :=
  match m with
  | [] => g
  | xs :: m' => writeRows (S r) c m' (writeRow r c xs g)
  end.

(** A cell has content when it is on the grid and not empty. *)
Definition occupied (k : nat * nat) (x : content) : bool :=
  (1 <=? k.1) && (1 <=? k.2) && negb (blankContent x).

Definition occupiedCells (g : grid) : list (nat * nat) :=
  fst <$> filter (λ kx, occupied kx.1 kx.2 = true) (map_to_list g).

(** [Sheet.getLastRow()] and [Sheet.getLastColumn()]: the position of the
    last row (column) that has content, 0 on an empty sheet. *)
Definition lastRow (g : grid) : nat := max_list (fst <$> occupiedCells g).
Definition lastColumn (g : grid) : nat := max_list (snd <$> occupiedCells g).

(** ** The script monad *)

Inductive outcome (A : Type) :=
  | Returned (a : A)
  | Thrown (e : string).
Arguments Returned {A} a.
Arguments Thrown {A} e.

Definition Script (A : Type) : Type := grid → outcome A * grid.

#[global] Instance script_ret : MRet Script := λ A a g, (Returned a, g).
#[global] Instance script_bind : MBind Script := λ A B k m g,
  match m g with
  | (Returned a, g') => k a g'
  | (Thrown e, g') => (Thrown e, g')
  end.

Definition throw {A} (e : string) : Script A := λ g, (Thrown e, g).
Definition reads {A} (f : grid → A) : Script A := λ g, (Returned (f g), g).
Definition modify (f : grid → grid) : Script unit := λ g, (Returned (), f g).

(** [l.forEach(body)] and counted [for] loops. *)
Fixpoint forEach {A} (l : list A) (body : A → Script unit) : Script unit :=
  match l with
  | [] => mret ()
  | x :: l' => body x ;; forEach l' body
  end.

Definition when (b : bool) (m : Script unit) : Script unit :=
  if b then m else mret ().

(** The final sheet and the outcome of running a script. *)
Definition sheetAfter {A} (m : Script A) (g : grid) : grid := (m g).2.
Definition resultOf {A} (m : Script A) (g : grid) : outcome A := (m g).1.

(** ** The host's Range objects *)

Record range := Range { rRow : nat; rCol : nat; rRows : nat; rCols : nat }.

(** [sheet.getRange(row, column, numRows, numColumns)] throws unless the
    origin is on the grid and both dimensions are at least 1. *)
Definition getRange (r c nr nc : nat) : Script range :=
  if (1 <=? r) && (1 <=? c) && (1 <=? nr) && (1 <=? nc)
  then mret (Range r c nr nc)
  else throw "Exception: the range is not valid".

(** [sheet.getRange(row, column)]: a single cell. *)
Definition getCellRange (r c : nat) : Script range := getRange r c 1 1.

Definition readBlock {A} (f : nat → nat → A) (rg : range) : list (list A) :=
  (λ i, (λ j, f (rRow rg + i) (rCol rg + j)) <$> seq 0 (rCols rg)) <$> seq 0 (rRows rg).

Definition rectangular {A} (nr nc : nat) (m : list (list A)) : bool :=
  bool_decide (length m = nr) && forallb (λ row, bool_decide (length row = nc)) m.

(** ** Sample sheets *)

Module Samples.

(** A host without formulas to evaluate. *)
Definition noCalc : string → grid → value := λ _ _, VStr "".
Definition plain : value → string :=
  λ v, match v with VStr s => s | _ => "" end.
Definition noKey : value → string := λ _, "".

Definition s (x : string) : content := Lit (VStr x).
Definition n (x : Z) : content := Lit (VNum x).

(** Header in row 1, data from row 3. *)
Definition people : grid :=
  writeRows 1 1 [[s "Name"; s "Age"]; []; [s "Alice"; n 30]; [s "Bob"; n 25]] ∅.

(** A header and nothing else. *)
Definition headerOnly : grid := writeRows 1 1 [[s "Name"; s "Age"]] ∅.

(** A total computed by a formula below the data. *)
Definition ledger : grid :=
  writeRows 1 1 [[s "Item"; s "Cost"]; []; [s "Pen"; n 2]; [s "Sum"; Formula "=SUM(B3:B3)"]] ∅.

(** The same table on its side: field names in column 1, records from
    column 3. *)
Definition peopleColumns : grid :=
  writeRows 1 1 [[s "Name"; Blank; s "Alice"; s "Bob"]; [s "Age"; Blank; n 30; n 25]] ∅.

(** Header in row 1, data from row 2. *)
Definition roster : grid :=
  writeRows 1 1 [[s "Name"; s "Age"]; [s "Alice"; n 30]; [s "Bob"; n 25]] ∅.

(** Two rows with the same name. *)
Definition twins : grid :=
  writeRows 1 1 [[s "Name"; s "Age"]; [s "Bob"; n 1]; [s "Bob"; n 2]] ∅.

(** [a == b] where [b] is a string that does not spell a number and [a]
    is a string or a number, as on the sample sheets: a number is never
    equal to such a string, and two strings are equal when they are the
    same text. *)
Definition equalsText (a b : value) : bool :=
  match a, b with
  | VStr x, VStr y => bool_decide (x = y)
  | _, _ => false
  end.

End Samples.

Section Host.

(** The host's formula evaluator, its cell formatter and the name of the
    sheet are left open; [keyOfOther] is JavaScript's conversion of a
    value that is not a string to a property key. *)
Variable calc : string → grid → value.
Variable display : value → string.
Variable keyOfOther : value → string.
Variable sheetName : string.

(** The value a cell shows; [getValues] never yields [null] or
    [undefined]. *)
Definition valueAt (g : grid) (r c : nat) : value :=
  match cellAt g r c with
  | Lit v => v
  | Formula f => let v := calc f g in if blankValue v then VStr "" else v
  end.

Definition formulaAt (g : grid) (r c : nat) : string :=
  match cellAt g r c with
  | Lit _ => ""
  | Formula f => f
  end.

Definition getLastRow : Script nat := reads lastRow.
Definition getLastColumn : Script nat := reads lastColumn.

(** [sheet.getDataRange()]: from A1 to the last row and column with
    content; a single cell on an empty sheet. *)
Definition getDataRange : Script range :=
  reads (λ g, Range 1 1 (lastRow g `max` 1) (lastColumn g `max` 1)).

Definition getValues (rg : range) : Script (list (list value)) :=
  reads (λ g, readBlock (valueAt g) rg).
Definition getDisplayValues (rg : range) : Script (list (list string)) :=
  reads (λ g, readBlock (λ r c, display (valueAt g r c)) rg).
Definition getFormulas (rg : range) : Script (list (list string)) :=
  reads (λ g, readBlock (formulaAt g) rg).

(** [range.setValues(m)] throws unless [m] has the range's shape. *)
Definition setValues (rg : range) (m : list (list value)) : Script unit :=
  if rectangular (rRows rg) (rCols rg) m
  then modify (writeRows (rRow rg) (rCol rg) ((λ row : list value, Lit <$> row) <$> m))
  else throw "Exception: the data does not match the range".

Definition fillRange (rg : range) (x : content) : Script unit :=
  modify (writeRows (rRow rg) (rCol rg) (replicate (rRows rg) (replicate (rCols rg) x))).

Definition clearContent (rg : range) : Script unit := fillRange rg Blank.
Definition setValue (rg : range) (v : value) : Script unit := fillRange rg (Lit v).
Definition setFormula (rg : range) (f : string) : Script unit := fillRange rg (Formula f).

(** ** Records and header lines *)

(** A header cell used as a property name. *)
Definition toKey (v : value) : string :=
  match v with
  | VStr s => s
  | _ => keyOfOther v
  end.

Definition hasOwnProperty (obj : record) (header : value) : bool :=
  bool_decide (is_Some (obj !! toKey header)).

(** [obj[k]], [undefined] when the property is missing. *)
Definition prop (obj : record) (k : string) : value := default VUndef (obj !! k).

(** [obj.hasOwnProperty(header) ? obj[header] : ""]. *)
Definition fieldOrEmpty (obj : record) (header : value) : value :=
  if hasOwnProperty obj header then prop obj (toKey header) else VStr "".

(** [array.forEach((obj, index) => ...)] iterates over these pairs. *)
Definition indexed {A} (l : list A) : list (nat * A) := zip (seq 0 (length l)) l.

(** ** Last populated row and column *)

(** The upward scan of [getLastNonEmptyRow]: [n] rows remain to be
    inspected, from index [n - 1] down to 0. *)
Fixpoint scanRows (values : list (list value)) (n : nat) : nat :=
  match n with
  | 0 => 1
  | S row =>
      if existsb nonEmpty (values !!! row) then row + 1 else scanRows values row
  end.

Definition getLastNonEmptyRow : Script nat :=
  dataRange ← getDataRange;
  values ← getValues dataRange;
  mret (scanRows values (length values)).

(** The leftward scan of [getLastNonEmptyColumn]: [n] columns remain,
    from index [n - 1] down to [startCol - 1]. *)
Fixpoint scanColumns (data : list (list value)) (nrows startCol n : nat) : nat :=
  match n with
  | 0 => startCol
  | S col =>
      if startCol - 1 <=? col then
        if existsb (λ row, neStr ((data !!! row) !!! col)) (seq 0 nrows)
        then col + 1
        else scanColumns data nrows startCol col
      else startCol
  end.

Definition getLastNonEmptyColumn (startCol : nat) : Script nat :=
  lastCol ← getLastColumn;
  lastRow ← getLastRow;
  if bool_decide (lastCol = 0) || bool_decide (lastRow = 0) then mret startCol
  else
    rg ← getRange 1 1 lastRow lastCol;
    data ← getValues rg;
    mret (scanColumns data lastRow startCol lastCol).

(** ** objectsToSheetV2 *)

Record writeOptions := WriteOptions {
  mode : string;
  pivot : bool;
  preserveFormulas : bool
}.

(** [options = {}]. *)
Definition defaultWriteOptions : writeOptions := WriteOptions "overwrite" false true.

(** The formula replay of the normal overwrite path. *)
Definition restoreFormulas (startIndex : nat) (formulas : list (list string)) : Script unit :=
  forEach (seq 0 (length formulas)) (λ i,
    forEach (seq 0 (length (formulas !!! i))) (λ j,
      if negb (bool_decide ((formulas !!! i) !!! j = "")) then
        cell ← getCellRange (startIndex + i) (j + 1);
        setFormula cell ((formulas !!! i) !!! j)
      else mret ())).

(** One line of the preserve-formulas overlay: positions whose field the
    object supplies take the new value, the others keep the current
    one. *)
Definition overlayLine (obj : record) (headers current : list value) : list value :=
  zip_with (λ header cur,
    if hasOwnProperty obj header then prop obj (toKey header) else cur) headers current.

Definition invalidMode : string := "Invalid mode. Use 'overwrite', 'append' or 'overlay'.".

Definition writeNormal (array : list record) (headerIndex startIndex : nat)
    (options : writeOptions) : Script unit :=
  lastCol ← getLastColumn;
  headerRange ← getRange headerIndex 1 1 lastCol;
  headerValues ← getValues headerRange;
  let headers := headerValues !!! 0 in
  let dataToInsert := (λ obj, fieldOrEmpty obj <$> headers) <$> array in
  if bool_decide (mode options = "overwrite") then
    lastRow ← getLastRow;
    if preserveFormulas options && (startIndex <=? lastRow) then
      let numRows := lastRow - startIndex + 1 in
      rg ← getRange startIndex 1 numRows (length headers);
      formulas ← getFormulas rg;
      clearContent rg;;
      when (0 <? length dataToInsert) (
        target ← getRange startIndex 1 (length dataToInsert) (length headers);
        setValues target dataToInsert);;
      restoreFormulas startIndex formulas
    else
      lastRow' ← getLastRow;
      when (startIndex <=? lastRow') (
        lastRow'' ← getLastRow;
        rg ← getRange startIndex 1 (lastRow'' - startIndex + 1) (length headers);
        clearContent rg);;
      when (0 <? length dataToInsert) (
        target ← getRange startIndex 1 (length dataToInsert) (length headers);
        setValues target dataToInsert)
  else if bool_decide (mode options = "append") then
    lastRow ← getLastNonEmptyRow;
    when (0 <? length dataToInsert) (
      target ← getRange (lastRow + 1) 1 (length dataToInsert) (length headers);
      setValues target dataToInsert)
  else if bool_decide (mode options = "overlay") then
    if negb (preserveFormulas options) then
      rg ← getRange startIndex 1 (length dataToInsert) (length headers);
      currentData ← getValues rg;
      setValues rg (zip_with (λ obj row, overlayLine obj headers row) array currentData)
    else
      forEach (indexed array) (λ '(i, obj),
        let targetRow := startIndex + i in
        currentRange ← getRange targetRow 1 1 (length headers);
        values ← getValues currentRange;
        formulas ← getFormulas currentRange;
        let currentValues := values !!! 0 in
        let currentFormulas := formulas !!! 0 in
        setValues currentRange [overlayLine obj headers currentValues];;
        forEach (seq 0 (length headers)) (λ j,
          if negb (hasOwnProperty obj (headers !!! j))
             && negb (bool_decide (currentFormulas !!! j = ""))
          then
            cell ← getCellRange targetRow (j + 1);
            setFormula cell (currentFormulas !!! j)
          else mret ()))
  else throw invalidMode.

Definition writePivot (array : list record) (headerIndex startIndex : nat)
    (options : writeOptions) : Script unit :=
  lastRow ← getLastRow;
  nameRange ← getRange 1 headerIndex lastRow 1;
  propertyNames ← getValues nameRange;
  let properties := (λ row : list value, row !!! 0) <$> propertyNames in
  let numProperties := length properties in
  if bool_decide (mode options = "append") then
    lastCol ← getLastNonEmptyColumn startIndex;
    let baseCol := lastCol + 1 in
    let numNewCols := length array in
    let batchData := (λ p, (λ obj, fieldOrEmpty obj p) <$> array) <$> properties in
    target ← getRange 1 baseCol numProperties numNewCols;
    setValues target batchData
  else if bool_decide (mode options = "overwrite") then
    forEach (indexed array) (λ '(index, obj),
      let targetCol := startIndex + index in
      let columnData := (λ p, [fieldOrEmpty obj p]) <$> properties in
      if preserveFormulas options then
        rg ← getRange 1 targetCol numProperties 1;
        formulas ← getFormulas rg;
        clearContent rg;;
        target ← getRange 1 targetCol numProperties 1;
        setValues target columnData;;
        forEach (seq 0 (length formulas)) (λ i,
          if negb (bool_decide ((formulas !!! i) !!! 0 = "")) then
            cell ← getCellRange (i + 1) targetCol;
            setFormula cell ((formulas !!! i) !!! 0)
          else mret ())
      else
        target ← getRange 1 targetCol numProperties 1;
        setValues target columnData)
  else if bool_decide (mode options = "overlay") then
    if negb (preserveFormulas options) then
      let numNewCols := length array in
      rg ← getRange 1 startIndex numProperties numNewCols;
      currentData ← getValues rg;
      setValues rg (zip_with (λ p row,
        zip_with (λ obj cur, if hasOwnProperty obj p then prop obj (toKey p) else cur)
          array row) properties currentData)
    else
      forEach (indexed array) (λ '(index, obj),
        let targetCol := startIndex + index in
        currentRange ← getRange 1 targetCol numProperties 1;
        currentValues ← getValues currentRange;
        currentFormulas ← getFormulas currentRange;
        let newColData := zip_with (λ p cur,
          if hasOwnProperty obj p then [prop obj (toKey p)] else cur)
          properties currentValues in
        setValues currentRange newColData;;
        forEach (seq 0 numProperties) (λ i,
          if negb (hasOwnProperty obj (properties !!! i))
             && negb (bool_decide ((currentFormulas !!! i) !!! 0 = ""))
          then
            cell ← getCellRange (i + 1) targetCol;
            setFormula cell ((currentFormulas !!! i) !!! 0)
          else mret ()))
  else throw invalidMode.

Definition objectsToSheetV2 (array : list record) (headerIndex startIndex : nat)
    (options : writeOptions) : Script unit :=
  if negb (pivot options)
  then writeNormal array headerIndex startIndex options
  else writePivot array headerIndex startIndex options.

(** ** sheetToObjectsV2 *)

(** [lastColumn] only feeds [lastColumnIndex], which the function never
    uses, and [mute] only controls logging. *)
Record readOptions := ReadOptions {
  lastColumnName : option string;
  mute : bool;
  useDisplayDates : bool;
  readPivot : bool
}.

Definition defaultReadOptions : readOptions := ReadOptions None true true false.

(** What the decoder returns: [null], the tagged object
    [{ message, data: [] }], or the array of objects. *)
Inductive decoded :=
  | DNull
  | DEmpty (message : string) (data : list record)
  | DRecords (objectsArray : list record).

Definition emptyMessage : string := "The sheet '" +:+ sheetName +:+ "' is empty.".

(** [matrix[0].map((_, colIndex) => matrix.map(row => row[colIndex]))]. *)
Definition transpose {A} `{Inhabited A} (matrix : list (list A)) : list (list A) :=
  (λ colIndex, (λ row : list A, row !!! colIndex) <$> matrix)
    <$> seq 0 (length (matrix !!! 0)).

Definition isDate (v : value) : bool :=
  match v with VDate _ => true | _ => false end.

(** One round of [headers.forEach((header, colIndex) => ...)]: what the
    cell under a header adds to the object. *)
Definition decodeCell (displayData : option (list (list string))) (rowIndex : nat)
    (row : list value) (obj : record) (column : nat * value) : record :=
  let '(colIndex, header) := column in
  if falsy header then obj
  else
    let value := row !!! colIndex in
    match displayData with
    | Some shown =>
        if isDate value
        then <[toKey header := VStr ((shown !!! rowIndex) !!! colIndex)]> obj
        else if nonEmpty value then <[toKey header := value]> obj else obj
    | None => if nonEmpty value then <[toKey header := value]> obj else obj
    end.

(** The object built from one surviving line. *)
Definition rowToObject (displayData : option (list (list string)))
    (headers : list value) (rowIndex : nat) (row : list value) : record :=
  foldl (decodeCell displayData rowIndex row) ∅ (indexed headers).

Definition decodeLines (headers : list value) (data : list (list value))
    (displayData : option (list (list string))) : decoded :=
  let filteredData := filter (λ row, existsb neStr row = true) data in
  if bool_decide (length filteredData = 0) then DEmpty emptyMessage []
  else DRecords ((λ '(rowIndex, row), rowToObject displayData headers rowIndex row)
                   <$> indexed filteredData).

Definition sheetToObjectsV2 (headerIndex startIndex : nat) (options : readOptions)
    : Script decoded :=
  if negb (readPivot options) then
    lastCol ← getLastColumn;
    headersRange ← getRange headerIndex 1 1 lastCol;
    headerValues ← getValues headersRange;
    let headers := headerValues !!! 0 in
    lastRow ← getLastRow;
    if lastRow <? startIndex then mret DNull
    else
      dataRange ← getRange startIndex 1 (lastRow - startIndex + 1) (length headers);
      data ← getValues dataRange;
      if useDisplayDates options then
        displayData ← getDisplayValues dataRange;
        mret (decodeLines headers data (Some displayData))
      else mret (decodeLines headers data None)
  else
    lastRow0 ← getLastRow;
    headersRange ← getRange 1 headerIndex lastRow0 1;
    headerValues ← getValues headersRange;
    let headers := concat headerValues in
    lastRow ← getLastRow;
    lastCol ← getLastColumn;
    (* [lastCol - startIndex + 1] is not positive exactly when the
       truncated [lastCol + 1 - startIndex] is 0, and the host rejects
       both *)
    dataRange ← getRange 1 startIndex lastRow (lastCol + 1 - startIndex);
    rawData ← getValues dataRange;
    let data := transpose rawData in
    if useDisplayDates options then
      dispRange ← getRange 1 startIndex lastRow (lastCol + 1 - startIndex);
      rawDispData ← getDisplayValues dispRange;
      mret (decodeLines headers data (Some (transpose rawDispData)))
    else mret (decodeLines headers data None).

(** ** JavaScript [Map] and array search *)

(** A [Map] keyed by values: [set] replaces the entry of an equal key. *)
Fixpoint mapSet {V} (k : value) (v : V) (m : list (value * V)) : list (value * V) :=
  match m with
  | [] => [(k, v)]
  | (k', v') :: m' =>
      if sameValue k' k then (k', v) :: m' else (k', v') :: mapSet k v m'
  end.

Fixpoint mapGet {V} (k : value) (m : list (value * V)) : option V :=
  match m with
  | [] => None
  | (k', v') :: m' => if sameValue k' k then Some v' else mapGet k m'
  end.

Definition mapHas {V} (k : value) (m : list (value * V)) : bool :=
  bool_decide (is_Some (mapGet k m)).

(** [l.indexOf(x)], [None] for -1. *)
Fixpoint indexOf (l : list value) (x : value) : option nat :=
  match l with
  | [] => None
  | y :: l' => if sameValue y x then Some 0 else S <$> indexOf l' x
  end.

(** [new Set(headers).has(key)]. *)
Definition headerSetHas (headers : list value) (key : string) : bool :=
  existsb (λ h, sameValue h (VStr key)) headers.

(** ** upsertRows *)

Definition columnNotFound (column : string) : string :=
  "Column '" +:+ column +:+ "' not found in sheet headers.".

(** Step 1: value in the match column => index of the row in
    [sheetData]. *)
Definition existingRows (sheetData : list (list value)) (columnIndexToMatch : nat)
    : list (value * nat) :=
  foldl (λ m i,
    let rowVal := (sheetData !!! i) !!! columnIndexToMatch in
    if neStr rowVal then mapSet rowVal i m else m) [] (seq 1 (length sheetData - 1)).

(** Step 3: a record without a match value, or whose match value is in
    no existing row, is new. *)
Definition isNewRecord (existingRowsMap : list (value * nat)) (columnToMatch : string)
    (rowObject : record) : bool :=
  let matchValue := prop rowObject columnToMatch in
  falsy matchValue || negb (mapHas matchValue existingRowsMap).

Definition existingUpdatesOf (existingRowsMap : list (value * nat))
    (columnToMatch : string) (data : list record) : list (nat * record) :=
  omap (λ rowObject,
    if isNewRecord existingRowsMap columnToMatch rowObject then None
    else (λ rowIndex, (rowIndex, rowObject))
           <$> mapGet (prop rowObject columnToMatch) existingRowsMap) data.

Definition newRecordsOf (existingRowsMap : list (value * nat))
    (columnToMatch : string) (data : list record) : list record :=
  filter (λ rowObject, isNewRecord existingRowsMap columnToMatch rowObject = true) data.

(** The cell write of step 4; [indexOf] + 1 is column 0 when the key is
    not found. *)
Definition writeField (headers : list value) (rowIndex : nat) (key : string)
    (val : value) : Script unit :=
  if headerSetHas headers key then
    let column := match indexOf headers (VStr key) with
                  | Some colIndex => colIndex + 1
                  | None => 0
                  end in
    cell ← getCellRange (rowIndex + 1) column;
    setValue cell val
  else mret ().

(** Step 4, the update path. *)
Definition applyUpdates (headers : list value) (existingUpdates : list (nat * record))
    : Script unit :=
  forEach existingUpdates (λ '(rowIndex, rowObject),
    forEach (map_to_list rowObject) (λ '(key, val),
      writeField headers rowIndex key val)).

(** Step 5, the insert path. *)
Definition appendRecords (headers : list value) (newRecords : list record)
    : Script unit :=
  lastNonEmptyRow ← getLastNonEmptyRow;
  let appendStartRow := lastNonEmptyRow + 1 in
  let rowsToAppend := (λ rowObject, fieldOrEmpty rowObject <$> headers) <$> newRecords in
  target ← getRange appendStartRow 1 (length rowsToAppend) (length headers);
  setValues target rowsToAppend.

(** [headerRowIndex] is accepted and never read: the headers are always
    the first row of the data range. *)
Definition upsertRows (data : list record) (columnToMatch : string)
    (headerRowIndex : nat) : Script unit :=
  if bool_decide (length data = 0) then mret ()
  else
    dataRange ← getDataRange;
    sheetData ← getValues dataRange;
    let headers := sheetData !!! 0 in
    match indexOf headers (VStr columnToMatch) with
    | None => throw (columnNotFound columnToMatch)
    | Some columnIndexToMatch =>
        let existingRowsMap := existingRows sheetData columnIndexToMatch in
        let existingUpdates := existingUpdatesOf existingRowsMap columnToMatch data in
        let newRecords := newRecordsOf existingRowsMap columnToMatch data in
        when (0 <? length existingUpdates) (applyUpdates headers existingUpdates);;
        when (0 <? length newRecords) (appendRecords headers newRecords)
    end.

(** ** findAndUpdateRows *)

(** [v || ""]. *)
Definition orEmpty (v : value) : value := if falsy v then VStr "" else v.

(** The columns to update with their indices; a name that is not a header
    is skipped (with a logged warning). *)
Definition columnsInfoOf (headers : list value) (columnsToAdd : list string)
    : list (nat * string) :=
  omap (λ column, (λ index, (index, column)) <$> indexOf headers (VStr column))
    columnsToAdd.

(** [new Map(data.map(obj => [obj[columnToMatch], obj]))]. *)
Definition dataLookupOf (data : list record) (columnToMatch : string)
    : list (value * record) :=
  foldl (λ m (obj : record), mapSet (prop obj columnToMatch) obj m) [] data.

Definition rowsToUpdateOf (sheetData : list (list value)) (columnIndexToMatch : nat)
    (dataLookup : list (value * record)) : list nat :=
  filter (λ i, mapHas ((sheetData !!! i) !!! columnIndexToMatch) dataLookup = true)
    (seq 1 (length sheetData - 1)).

(** The value written for a row to update. *)
Definition matchedValue (sheetData : list (list value)) (columnIndexToMatch : nat)
    (dataLookup : list (value * record)) (columnName : string) (rowIndex : nat) : value :=
  let matchedObject : record :=
    default ∅ (mapGet ((sheetData !!! rowIndex) !!! columnIndexToMatch) dataLookup) in
  orEmpty (prop matchedObject columnName).

(** [rowsToUpdate.forEach(rowIndex => columnValues[rowIndex - 1][0] = ...)]. *)
Definition updateColumnValues (sheetData : list (list value)) (columnIndexToMatch : nat)
    (dataLookup : list (value * record)) (columnName : string) (rowsToUpdate : list nat)
    (columnValues : list (list value)) : list (list value) :=
  foldl (λ cv rowIndex,
    alter (λ line,
      <[0 := matchedValue sheetData columnIndexToMatch dataLookup columnName rowIndex]> line)
      (rowIndex - 1) cv) columnValues rowsToUpdate.

Definition findAndUpdateRows (data : list record) (columnToMatch : string)
    (columnsToAdd : list string) : Script unit :=
  dataRange ← getDataRange;
  sheetData ← getValues dataRange;
  if length sheetData <? 2 then mret ()
  else
    let headers := sheetData !!! 0 in
    match indexOf headers (VStr columnToMatch) with
    | None => throw (columnNotFound columnToMatch)
    | Some columnIndexToMatch =>
        let columnsInfo := columnsInfoOf headers columnsToAdd in
        if bool_decide (length columnsInfo = 0) then mret ()
        else
          let dataLookup := dataLookupOf data columnToMatch in
          let rowsToUpdate := rowsToUpdateOf sheetData columnIndexToMatch dataLookup in
          if bool_decide (length rowsToUpdate = 0) then mret ()
          else
            forEach columnsInfo (λ '(columnIndex, columnName),
              columnRange ← getRange 2 (columnIndex + 1) (length sheetData - 1) 1;
              columnValues ← getValues columnRange;
              setValues columnRange
                (updateColumnValues sheetData columnIndexToMatch dataLookup columnName
                   rowsToUpdate columnValues))
    end.

(** ** The update path of upsertRows on its own *)

(** The record cut down to the named fields. *)
Definition restrictTo (fields : list string) (obj : record) : record :=
  filter (λ kv, kv.1 ∈ fields) obj.

(** What [findAndUpdateRows] is compared with, in the words of the
    specification: "Upsert's update path restricted to named fields, with
    no insert capability".  It is steps 0 to 4 of [upsertRows] with each
    matched record cut down to the named fields, and without step 5. *)
Definition upsertUpdatePath (data : list record) (columnToMatch : string)
    (fields : list string) : Script unit :=
  if bool_decide (length data = 0) then mret ()
  else
    dataRange ← getDataRange;
    sheetData ← getValues dataRange;
    let headers := sheetData !!! 0 in
    match indexOf headers (VStr columnToMatch) with
    | None => throw (columnNotFound columnToMatch)
    | Some columnIndexToMatch =>
        let existingRowsMap := existingRows sheetData columnIndexToMatch in
        let existingUpdates := existingUpdatesOf existingRowsMap columnToMatch data in
        when (0 <? length existingUpdates)
          (applyUpdates headers
             ((λ '(rowIndex, rowObject), (rowIndex, restrictTo fields rowObject))
                <$> existingUpdates))
    end.

(** * Vocabulary of the properties *)

(** Sheet transformers, readings of the sheet and predicates the
    statements below are written with. *)

(** [post m g Q]: running [m] on [g] ends, returning or throwing, in a
    state and with an outcome that satisfy [Q]. *)
Definition post {A : Type} (m : Script A) (g : grid) (Q : outcome A → grid → Prop) : Prop :=
  Q (m g).1 (m g).2.

(** The arguments [getRange] accepts. *)
Definition validRange (r c nr nc : nat) : Prop := 1 ≤ r ∧ 1 ≤ c ∧ 1 ≤ nr ∧ 1 ≤ nc.

(** The range [getDataRange] returns. *)
Definition dataRangeOf (g : grid) : range :=
  Range 1 1 (lastRow g `max` 1) (lastColumn g `max` 1).

(** The row [getLastNonEmptyRow] returns. *)
Definition lastNonEmptyRow (g : grid) : nat :=
  let values := readBlock (valueAt g) (dataRangeOf g) in
  scanRows values (length values).

(** The column [getLastNonEmptyColumn] returns. *)
Definition lastNonEmptyColumn (startCol : nat) (g : grid) : nat :=
  if bool_decide (lastColumn g = 0) || bool_decide (lastRow g = 0) then startCol
  else scanColumns (readBlock (valueAt g) (Range 1 1 (lastRow g) (lastColumn g)))
         (lastRow g) startCol (lastColumn g).

(** The match-column value of row [j] of the data range is [v]. *)
Definition rowMatches (sheetData : list (list value)) (columnIndexToMatch : nat)
    (v : value) (j : nat) : Prop :=
  neStr ((sheetData !!! j) !!! columnIndexToMatch) = true
  ∧ sameValue ((sheetData !!! j) !!! columnIndexToMatch) v = true.

(** The cell [k] of line [line]: a row in normal orientation, a column in
    pivot orientation. *)
Definition lineCell (pivoted : bool) (line k : nat) : nat * nat :=
  if pivoted then (k, line) else (line, k).

(** The content and the shown value at a position. *)
Definition cellOn (g : grid) (p : nat * nat) : content := cellAt g p.1 p.2.
Definition valueOn (g : grid) (p : nat * nat) : value := valueAt g p.1 p.2.

(** The region the overwrite clears before writing: in normal
    orientation the lines from the start line to the last row, in pivot
    orientation the columns the records are written to. *)
Definition clearedRegion (pivoted : bool) (array : list record) (startIndex : nat)
    (g : grid) (r c : nat) : Prop :=
  if pivoted
  then 1 ≤ r ≤ lastRow g ∧ startIndex ≤ c < startIndex + length array
  else startIndex ≤ r ≤ lastRow g ∧ 1 ≤ c ≤ lastColumn g.

(** The cell ([r], [c]) lies on the line of a record that supplies the
    field named by the cell's header. *)
Definition supplied (pivoted : bool) (array : list record) (headerIndex startIndex : nat)
    (g : grid) (r c : nat) : Prop :=
  if pivoted
  then ∃ i obj, array !! i = Some obj ∧ c = startIndex + i ∧ 1 ≤ r ≤ lastRow g
                ∧ hasOwnProperty obj (valueAt g r headerIndex) = true
  else ∃ i obj, array !! i = Some obj ∧ r = startIndex + i ∧ 1 ≤ c ≤ lastColumn g
                ∧ hasOwnProperty obj (valueAt g headerIndex c) = true.

(** The cell shows after the write the value it showed before: it is
    untouched, or holds that value as a literal. *)
Definition keepsValue (g g' : grid) (r c : nat) : Prop :=
  cellAt g' r c = cellAt g r c ∨ cellAt g' r c = stored (Lit (valueAt g r c)).

(** The lines of the data extent show no value. *)
Definition extentBlank (pivoted : bool) (startIndex : nat) (g : grid) : Prop :=
  if pivoted
  then ∀ r c, 1 ≤ r ≤ lastRow g → startIndex ≤ c ≤ lastColumn g → valueAt g r c = VStr ""
  else ∀ r c, startIndex ≤ r ≤ lastRow g → 1 ≤ c ≤ lastColumn g → valueAt g r c = VStr "".

(** A cell that holds no formula. *)
Definition isLit (x : content) : bool :=
  match x with Lit _ => true | Formula _ => false end.

(** A sheet without formulas. *)
Definition literalOnly (g : grid) : Prop := map_Forall (λ _ x, isLit x = true) g.

(** The last populated line as the append path finds it. *)
Definition lastPopulatedLine (pivoted : bool) (startIndex : nat) (g : grid) : nat :=
  if pivoted then lastNonEmptyColumn startIndex g else lastNonEmptyRow g.

(** The line a cell is on: its row, or its column in pivot orientation. *)
Definition lineOf (pivoted : bool) (r c : nat) : nat := if pivoted then c else r.

(** The record has a non-empty value under some header of the header
    line, so its encoded line is not blank. *)
Definition encodesNonBlank (pivoted : bool) (headerIndex : nat) (g : grid)
    (obj : record) : Prop :=
  ∃ k, 1 ≤ k ≤ (if pivoted then lastRow g else lastColumn g)
       ∧ nonEmpty (fieldOrEmpty obj (valueOn g (lineCell pivoted headerIndex k))) = true.

(** What an overwrite leaves in a cell beyond the new data when formulas
    are preserved: its formula, if it had one. *)
Definition formulaOnly (x : content) : content :=
  match x with
  | Lit _ => Blank
  | Formula f => Formula f
  end.

(** [sheet.getDataRange().getValues()]. *)
Definition sheetDataOf (g : grid) : list (list value) :=
  readBlock (valueAt g) (dataRangeOf g).

(** [sheetData[0]]. *)
Definition headerRow (g : grid) : list value := sheetDataOf g !!! 0.

(** The write of one field of one record. *)
Definition applyField (headers : list value) (rowIndex : nat) (g : grid)
    (kv : string * value) : grid :=
  match indexOf headers (VStr kv.1) with
  | Some colIndex => setCell (rowIndex + 1) (colIndex + 1) (Lit kv.2) g
  | None => g
  end.

(** The writes of one matched record. *)
Definition applyObject (headers : list value) (g : grid) (u : nat * record) : grid :=
  foldl (applyField headers u.1) g (map_to_list u.2).

(** The sheet after step 4 of [upsertRows]. *)
Definition updatedSheet (headers : list value) (updates : list (nat * record))
    (g : grid) : grid :=
  foldl (applyObject headers) g updates.

(** The value a record writes into the cell ([r], [c]) of its row: the
    one of the key that names column [c]. *)
Definition hitOf (headers : list value) (rowIndex : nat) (obj : record) (r c : nat)
    : option value :=
  if decide (r = rowIndex + 1 ∧ 1 ≤ c) then
    match headers !! (c - 1) with
    | Some (VStr key) =>
        if decide (indexOf headers (VStr key) = Some (c - 1)) then obj !! key else None
    | _ => None
    end
  else None.

(** The value the updates leave in a cell: that of the last update that
    writes it. *)
Fixpoint lastHit (headers : list value) (updates : list (nat * record)) (r c : nat)
    : option value :=
  match updates with
  | [] => None
  | u :: us =>
      match lastHit headers us r c with
      | Some v => Some v
      | None => hitOf headers u.1 u.2 r c
      end
  end.

(** The rows step 5 appends. *)
Definition appendedRows (headers : list value) (newRecords : list record)
    : list (list content) :=
  (λ row : list value, Lit <$> row)
    <$> ((λ rowObject, fieldOrEmpty rowObject <$> headers) <$> newRecords).

(** The sheet [upsertRows] leaves when the match column exists. *)
Definition upsertedSheet (data : list record) (columnToMatch : string) (g : grid) : grid :=
  let headers := headerRow g in
  match indexOf headers (VStr columnToMatch) with
  | None => g
  | Some columnIndexToMatch =>
      let existingRowsMap := existingRows (sheetDataOf g) columnIndexToMatch in
      let g1 := updatedSheet headers (existingUpdatesOf existingRowsMap columnToMatch data) g in
      let newRecords := newRecordsOf existingRowsMap columnToMatch data in
      if 0 <? length newRecords
      then writeRows (lastNonEmptyRow g1 + 1) 1 (appendedRows headers newRecords) g1
      else g1
  end.

(** The value in the match column of row [i] of the data range. *)
Definition matchValue (g : grid) (columnIndexToMatch i : nat) : value :=
  (sheetDataOf g !!! i) !!! columnIndexToMatch.

(** The sheet after the update of one column by [findAndUpdateRows]. *)
Definition columnStep (sheetData : list (list value)) (cim : nat)
    (dataLookup : list (value * record)) (rows : list nat) (g : grid)
    (column : nat * string) : grid :=
  writeRows 2 (column.1 + 1)
    ((λ row : list value, Lit <$> row)
       <$> updateColumnValues sheetData cim dataLookup column.2 rows
             (readBlock (valueAt g) (Range 2 (column.1 + 1) (length sheetData - 1) 1))) g.

(** The sheet [findAndUpdateRows] leaves. *)
Definition foundSheet (data : list record) (columnToMatch : string)
    (columnsToAdd : list string) (g : grid) : grid :=
  let sheetData := sheetDataOf g in
  if length sheetData <? 2 then g
  else
    match indexOf (headerRow g) (VStr columnToMatch) with
    | None => g
    | Some cim =>
        let columnsInfo := columnsInfoOf (headerRow g) columnsToAdd in
        let dataLookup := dataLookupOf data columnToMatch in
        let rowsToUpdate := rowsToUpdateOf sheetData cim dataLookup in
        if bool_decide (length columnsInfo = 0) then g
        else if bool_decide (length rowsToUpdate = 0) then g
        else foldl (columnStep sheetData cim dataLookup rowsToUpdate) g columnsInfo
    end.

(** The matched rows with their records cut down to the named fields. *)
Definition restrictedUpdates (sheetData : list (list value)) (cim : nat)
    (columnToMatch : string) (fields : list string) (data : list record)
    : list (nat * record) :=
  (λ '(rowIndex, rowObject), (rowIndex, restrictTo fields rowObject))
    <$> existingUpdatesOf (existingRows sheetData cim) columnToMatch data.

(** The sheet [upsertUpdatePath] leaves. *)
Definition updatePathSheet (data : list record) (columnToMatch : string)
    (fields : list string) (g : grid) : grid :=
  match indexOf (headerRow g) (VStr columnToMatch) with
  | None => g
  | Some cim =>
      updatedSheet (headerRow g)
        (restrictedUpdates (sheetDataOf g) cim columnToMatch fields data) g
  end.

(** No two rows of the data range carry the same non-empty value in the
    match column. *)
Definition uniqueMatchValues (g : grid) (columnToMatch : string) : Prop :=
  ∀ cim i j, indexOf (headerRow g) (VStr columnToMatch) = Some cim →
    1 ≤ i → i < j → j < length (sheetDataOf g) →
    neStr (matchValue g cim i) = true → matchValue g cim i ≠ matchValue g cim j.

(** Every record has a truthy match value and a truthy value for each
    named field that is a header. *)
Definition suppliesAll (g : grid) (columnToMatch : string) (fields : list string)
    (data : list record) : Prop :=
  ∀ rec, rec ∈ data →
    falsy (prop rec columnToMatch) = false
    ∧ ∀ name, name ∈ fields → is_Some (indexOf (headerRow g) (VStr name)) →
        falsy (prop rec name) = false.

(** The header line reaches the last populated column. *)
Definition headerSpans (g : grid) (headerIndex : nat) : Prop :=
  1 ≤ lastColumn g ∧ blankContent (cellAt g headerIndex (lastColumn g)) = false.

(** Every record carries a truthy match value that is not a date, and
    records with the same match value are the same record. *)
Definition keyedRecords (columnToMatch : string) (data : list record) : Prop :=
  (∀ rec, rec ∈ data →
     falsy (prop rec columnToMatch) = false ∧ isDate (prop rec columnToMatch) = false)
  ∧ (∀ a b, a ∈ data → b ∈ data →
       prop a columnToMatch = prop b columnToMatch → a = b).

(** What a cell shows after a value was written to it. *)
Definition shownValue (v : value) : value := if blankValue v then VStr "" else v.

(** A record the decoder can give back: every value is non-empty (and
    not a date when dates are decoded as shown text), and every key is the
    name of a truthy header. *)
Definition decodable (displayDates : bool) (headers : list value) (rec : record) : Prop :=
  ∀ key val, rec !! key = Some val →
    nonEmpty val = true
    ∧ (displayDates = true → isDate val = false)
    ∧ ∃ h, h ∈ headers ∧ falsy h = false ∧ toKey h = key.

(** The header line as the encoder reads it. *)
Definition headerLine (g : grid) (headerIndex : nat) : list value :=
  readBlock (valueAt g) (Range headerIndex 1 1 (lastColumn g)) !!! 0.

(** The cells after an overwrite of a sheet without formulas. *)
Definition overwritten (array : list record) (headerIndex startIndex : nat) (g : grid)
    (r c : nat) : content :=
  if decide (startIndex ≤ r ∧ 1 ≤ c ≤ lastColumn g) then
    if decide (r < startIndex + length array)
    then stored (Lit (fieldOrEmpty (array !!! (r - startIndex))
                        (headerLine g headerIndex !!! (c - 1))))
    else Blank
  else cellAt g r c.

(** Options of the sample calls. *)
Definition overwriteOptions : writeOptions := WriteOptions "overwrite" false true.
Definition appendOptions : writeOptions := WriteOptions "append" false true.
Definition overlayOptions : writeOptions := WriteOptions "overlay" false true.

(** * The other sheet helpers *)

(** ** clearSheetContentFromRow *)

(** Clears the sheet from [startRow] down, over the columns that have
    content. *)
Definition clearSheetContentFromRow (startRow : nat) : Script unit :=
  lastRow ← getLastRow;
  lastColumn ← getLastColumn;
  when (startRow <=? lastRow) (
    rangeToClear ← getRange startRow 1 (lastRow - startRow + 1) lastColumn;
    clearContent rangeToClear).

(** ** objectsToSheet, the first version of the encoder *)

Definition invalidModeV1 : string := "Invalid mode. Use 'overwrite' or 'append'.".

Definition objectsToSheet (array : list record) (headerRowIndex startRowIndex : nat)
    (mode : string) : Script unit :=
  lastCol ← getLastColumn;
  headerRange ← getRange headerRowIndex 1 1 lastCol;
  headerValues ← getValues headerRange;
  let headers := headerValues !!! 0 in
  let dataToInsert := (λ obj, fieldOrEmpty obj <$> headers) <$> array in
  if bool_decide (mode = "overwrite") then
    clearSheetContentFromRow startRowIndex;;
    when (0 <? length dataToInsert) (
      target ← getRange startRowIndex 1 (length dataToInsert) (length headers);
      setValues target dataToInsert)
  else if bool_decide (mode = "append") then
    lastRow ← getLastNonEmptyRow;
    when (0 <? length dataToInsert) (
      target ← getRange (lastRow + 1) 1 (length dataToInsert) (length headers);
      setValues target dataToInsert)
  else throw invalidModeV1.

(** ** columnNameToIndex *)

(** [s.toUpperCase().charCodeAt(i)], for the 7-bit characters column
    names are written with: lower-case letters move to upper case, every
    other character stays. *)
Definition upperCode (c : Ascii.ascii) : Z :=
  let n := Z.of_N (Ascii.N_of_ascii c) in
  if (97 <=? n)%Z && (n <=? 122)%Z then (n - 32)%Z else n.

(** [column = column * 26 + c] over the characters, with
    [c = charCode - 64]. *)
Definition columnNameToIndex (columnName : string) : Z :=
  foldl (λ column c, (column * 26 + (upperCode c - 64))%Z) 0%Z
    (String.list_ascii_of_string columnName).

(** A column name: letters A to Z, in either case. *)
Definition isLetter (c : Ascii.ascii) : Prop :=
  let n := Z.of_N (Ascii.N_of_ascii c) in
  (65 ≤ n ≤ 90)%Z ∨ (97 ≤ n ≤ 122)%Z.

Definition letterName (columnName : string) : Prop :=
  ∀ c, c ∈ String.list_ascii_of_string columnName → isLetter c.

(** The index of the name of [n] letters A, the least of that length. *)
Fixpoint leastIndex (n : nat) : Z :=
  match n with
  | 0 => 0
  | S n' => 26 * leastIndex n' + 1
  end.

(** ** sheetToObjects, the first version of the decoder *)

(** One round of [headers.forEach((header, index) => ...)]. *)
Definition decodeCellV1 (row : list value) (obj : record) (column : nat * value) : record :=
  let '(index, header) := column in
  if neStr header && neStr (row !!! index)
  then <[toKey header := row !!! index]> obj
  else obj.

Definition decodeLinesV1 (headers : list value) (data : list (list value)) : decoded :=
  let data' := filter (λ row, existsb neStr row = true) data in
  if bool_decide (length data' = 0) then DEmpty emptyMessage []
  else DRecords ((λ row, foldl (decodeCellV1 row) ∅ (indexed headers)) <$> data').

(** [lastColumn] is a column name, or absent; an empty name is falsy and
    counts as absent.  A name whose index is not positive gives a range
    the host rejects, as the range of no columns is. *)
Definition sheetToObjects (startRow : nat) (lastColumnName : option string)
    (headerRow : nat) : Script decoded :=
  lastColumnIndex ←
    match lastColumnName with
    | Some name =>
        if bool_decide (name = "") then getLastColumn
        else mret (Z.to_nat (columnNameToIndex name))
    | None => getLastColumn
    end;
  headersRange ← getRange headerRow 1 1 lastColumnIndex;
  headerValues ← getValues headersRange;
  let headers := headerValues !!! 0 in
  lastRow ← getLastRow;
  if lastRow <? startRow then mret DNull
  else
    dataRange ← getRange startRow 1 (lastRow - startRow + 1) (length headers);
    data ← getValues dataRange;
    mret (decodeLinesV1 headers data).

(** ** addRowToSheet and addRowsToSheet *)

(** [sheet.appendRow(row)]: the row goes below the last row that has
    content. *)
Definition appendRow (row : list value) : Script unit :=
  modify (λ g, writeRows (lastRow g + 1) 1 [Lit <$> row] g).

(** The row built from a data object: a key that is a header puts its
    value at the first column with that header, the other positions hold
    the empty string.  Different keys go to different positions, so the
    order in which the keys are visited does not matter. *)
Definition createRowFromData (headers : list value) (rowData : record) : list value :=
  foldl (λ newRow (kv : string * value),
    match indexOf headers (VStr kv.1) with
    | Some columnIndex => <[columnIndex := kv.2]> newRow
    | None => newRow
    end) (replicate (length headers) (VStr "")) (map_to_list rowData).

(** The value a data object gives to position [j] of its row. *)
Definition dataCell (headers : list value) (rowData : record) (j : nat) : value :=
  match headers !! j with
  | Some (VStr key) =>
      if decide (indexOf headers (VStr key) = Some j)
      then default (VStr "") (rowData !! key)
      else VStr ""
  | _ => VStr ""
  end.

Definition addRowToSheet (newRowData : record) : Script unit :=
  lastCol ← getLastColumn;
  headerRange ← getRange 1 1 1 lastCol;
  headerValues ← getValues headerRange;
  let headers := headerValues !!! 0 in
  appendRow (createRowFromData headers newRowData).

(** [newRowsData] is one data object or an array of them. *)
Inductive rowsData :=
  | OneRow (rowData : record)
  | ManyRows (rows : list record).

(** The data objects of either form. *)
Definition rowsOf (newRowsData : rowsData) : list record :=
  match newRowsData with
  | OneRow rowData => [rowData]
  | ManyRows rows => rows
  end.

Definition addRowsToSheet (newRowsData : rowsData) : Script unit :=
  lastCol ← getLastColumn;
  headerRange ← getRange 1 1 1 lastCol;
  headerValues ← getValues headerRange;
  let headers := headerValues !!! 0 in
  match newRowsData with
  | ManyRows rows =>
      let allNewRows := createRowFromData headers <$> rows in
      lastRow ← getLastRow;
      target ← getRange (lastRow + 1) 1 (length allNewRows) (length headers);
      setValues target allNewRows
  | OneRow rowData => appendRow (createRowFromData headers rowData)
  end.

(** ** deleteColumnContents *)

Definition headerNotFound (headerName : string) : string :=
  "Header '" +:+ headerName +:+ "' not found in the sheet.".

(** [numRows = lastRow - startRow + 1] is positive exactly when
    [startRow <= lastRow]. *)
Definition deleteColumnContents (headerName : string) (startRow : nat) : Script unit :=
  dataRange ← getDataRange;
  values ← getValues dataRange;
  match indexOf (values !!! 0) (VStr headerName) with
  | None => throw (headerNotFound headerName)
  | Some columnIndex =>
      lastRow ← getLastRow;
      when (startRow <=? lastRow) (
        rg ← getRange startRow (columnIndex + 1) (lastRow - startRow + 1) 1;
        clearContent rg)
  end.

(** ** objectToRow *)

(** JavaScript's [==] on cell values and the value to match; its
    conversions between strings, numbers and dates are left to the
    host. *)
Variable looseEquals : value → value → bool.

(** The first index whose line starts with a value equal to
    [valueToMatch]. *)
Fixpoint findMatch (values : list (list value)) (valueToMatch : value) : option nat :=
  match values with
  | [] => None
  | line :: rest =>
      if looseEquals (line !!! 0) valueToMatch then Some 0
      else S <$> findMatch rest valueToMatch
  end.

Definition objectToRow (headerToMatch : string) (valueToMatch : value)
    (newRowData : record) : Script unit :=
  lastCol ← getLastColumn;
  headerRange ← getRange 1 1 1 lastCol;
  headerValues ← getValues headerRange;
  let headers := headerValues !!! 0 in
  match indexOf headers (VStr headerToMatch) with
  | None => throw "Header not found"
  | Some index =>
      let columnIndex := index + 1 in
      lastRow ← getLastRow;
      dataRange ← getRange 2 columnIndex (lastRow - 1) 1;
      values ← getValues dataRange;
      match findMatch values valueToMatch with
      | None => mret ()
      | Some i =>
          let rowToEdit := i + 2 in
          updateRange ← getRange rowToEdit 1 1 (length headers);
          current ← getValues updateRange;
          let rowData :=
            foldl (λ line (kv : string * value),
              match indexOf headers (VStr kv.1) with
              | Some colIndex => <[colIndex := kv.2]> line
              | None => line
              end) (current !!! 0) (map_to_list newRowData) in
          setValues updateRange [rowData]
      end
  end.

(** The value [objectToRow] leaves at position [j] of the row it edits,
    where [current] was shown: the value of the key that is the header of
    [j], when the object has that key and [j] is the first column with
    that header. *)
Definition editedCell (headers : list value) (newRowData : record) (j : nat)
    (current : value) : value :=
  match headers !! j with
  | Some (VStr key) =>
      if decide (indexOf headers (VStr key) = Some j)
      then default current (newRowData !! key)
      else current
  | _ => current
  end.

(** ** What a decoded field can be *)

(** A decoded field: no date when dates are decoded as shown text, and a
    non-empty value when they are not. *)
Definition decodedValue (displayDates : bool) (v : value) : Prop :=
  if displayDates then isDate v = false else nonEmpty v = true.

(** ** The sheet on its side *)

(** Rows and columns exchanged. *)
Definition transposeGrid (g : grid) : grid := kmap prod_swap g.

(** * Properties *)

(** ** The grid *)

Lemma stored_idem x : stored (stored x) = stored x.
Proof. unfold stored. destruct (blankContent x) eqn:E; [done|]. by rewrite E. Qed.

Lemma stored_Blank : stored Blank = Blank.
Proof. done. Qed.

Lemma cellAt_stored g r c : stored (cellAt g r c) = cellAt g r c.
Proof. unfold cellAt. destruct (g !! (r, c)); [apply stored_idem | done]. Qed.

Lemma cellAt_setCell r c x g r' c' :
  cellAt (setCell r c x g) r' c' =
    if decide (r' = r ∧ c' = c) then stored x else cellAt g r' c'.
Proof.
  unfold cellAt, setCell, stored.
  destruct (blankContent x) eqn:E; case_decide as Hd.
  - destruct Hd as [-> ->]. by rewrite lookup_delete_eq.
  - rewrite lookup_delete_ne; [done|]. intros [= -> ->]. by apply Hd.
  - destruct Hd as [-> ->]. by rewrite lookup_insert_eq, E.
  - rewrite lookup_insert_ne; [done|]. intros [= -> ->]. by apply Hd.
Qed.

Lemma cellAt_writeRow xs : ∀ r c g r' c',
  cellAt (writeRow r c xs g) r' c' =
    if decide (r' = r ∧ c ≤ c' < c + length xs)
    then stored (xs !!! (c' - c)) else cellAt g r' c'.
Proof.
  induction xs as [|x xs IH]; intros r c g r' c'; simpl.
  - case_decide; [lia | done].
  - rewrite IH, cellAt_setCell.
    repeat case_decide; try lia; try done.
    + replace (c' - c) with (S (c' - S c)) by lia. done.
    + replace (c' - c) with 0 by lia. done.
Qed.

Lemma cellAt_writeRows m : ∀ r c g r' c',
  cellAt (writeRows r c m g) r' c' =
    if decide (r ≤ r' < r + length m ∧ c ≤ c' < c + length (m !!! (r' - r)))
    then stored ((m !!! (r' - r)) !!! (c' - c)) else cellAt g r' c'.
Proof.
  induction m as [|xs m IH]; intros r c g r' c'; simpl.
  - case_decide; [lia | done].
  - rewrite IH, cellAt_writeRow.
    destruct (decide (r' = r)) as [->|Hne].
    + replace (r - r) with 0 by lia. simpl.
      repeat case_decide; try lia; done.
    + destruct (decide (r < r')).
      * replace (r' - r) with (S (r' - S r)) by lia. simpl.
        repeat case_decide; try lia; done.
      * repeat case_decide; try lia; done.
Qed.

Lemma blankContent_stored x : blankContent (stored x) = blankContent x.
Proof. unfold stored. by destruct (blankContent x) eqn:E. Qed.

Lemma stored_nonblank x : blankContent x = false → stored x = x.
Proof. unfold stored. by intros ->. Qed.

Lemma elem_of_occupiedCells g r c :
  (r, c) ∈ occupiedCells g ↔ 1 ≤ r ∧ 1 ≤ c ∧ blankContent (cellAt g r c) = false.
Proof.
  unfold occupiedCells, cellAt. rewrite list_elem_of_fmap. split.
  - intros ([[r' c'] x] & [= -> ->] & [Hocc Hin]%list_elem_of_filter).
    apply elem_of_map_to_list in Hin. cbn [fst snd] in *.
    rewrite Hin, blankContent_stored. unfold occupied in Hocc. cbn [fst snd] in Hocc.
    apply andb_true_iff in Hocc as [[Hr Hc]%andb_true_iff Hb].
    apply Nat.leb_le in Hr, Hc. by apply negb_true_iff in Hb.
  - intros (Hr & Hc & Hb). destruct (g !! (r, c)) as [x|] eqn:E; [|done].
    rewrite blankContent_stored in Hb.
    exists ((r, c), x). split; [done|]. apply list_elem_of_filter. split.
    + unfold occupied. cbn [fst snd]. rewrite Hb.
      apply Nat.leb_le in Hr, Hc. by rewrite Hr, Hc.
    + by apply elem_of_map_to_list.
Qed.

Lemma lastRow_ge g r c :
  1 ≤ r → 1 ≤ c → blankContent (cellAt g r c) = false → r ≤ lastRow g.
Proof.
  intros. unfold lastRow. apply max_list_elem_of_le.
  apply list_elem_of_fmap. exists (r, c). split; [done|]. by apply elem_of_occupiedCells.
Qed.

Lemma lastColumn_ge g r c :
  1 ≤ r → 1 ≤ c → blankContent (cellAt g r c) = false → c ≤ lastColumn g.
Proof.
  intros. unfold lastColumn. apply max_list_elem_of_le.
  apply list_elem_of_fmap. exists (r, c). split; [done|]. by apply elem_of_occupiedCells.
Qed.

Lemma lastRow_reached g :
  1 ≤ lastRow g → ∃ c, 1 ≤ c ∧ blankContent (cellAt g (lastRow g) c) = false.
Proof.
  unfold lastRow. intros Hpos.
  destruct (decide (fst <$> occupiedCells g = [])) as [E|E].
  { rewrite E in Hpos. simpl in Hpos. lia. }
  apply max_list_elem_of in E. apply list_elem_of_fmap in E as ([r c] & Hr & Hin).
  simpl in Hr. rewrite Hr. apply elem_of_occupiedCells in Hin as (? & ? & ?). eauto.
Qed.

Lemma lastColumn_reached g :
  1 ≤ lastColumn g → ∃ r, 1 ≤ r ∧ blankContent (cellAt g r (lastColumn g)) = false.
Proof.
  unfold lastColumn. intros Hpos.
  destruct (decide (snd <$> occupiedCells g = [])) as [E|E].
  { rewrite E in Hpos. simpl in Hpos. lia. }
  apply max_list_elem_of in E. apply list_elem_of_fmap in E as ([r c] & Hr & Hin).
  simpl in Hr. rewrite Hr. apply elem_of_occupiedCells in Hin as (? & ? & ?). eauto.
Qed.

(** A sheet has a populated row exactly when it has a populated column. *)
Lemma lastRow_lastColumn_pos g : 1 ≤ lastRow g ↔ 1 ≤ lastColumn g.
Proof.
  split; intros H.
  - pose proof H as (c & ? & ?)%lastRow_reached.
    etrans; [|by eapply (lastColumn_ge g (lastRow g) c)]. done.
  - pose proof H as (r & ? & ?)%lastColumn_reached.
    etrans; [|by eapply (lastRow_ge g r (lastColumn g))]. done.
Qed.

(** A cell beyond the last row or column is empty. *)
Lemma cellAt_beyond g r c :
  1 ≤ r → 1 ≤ c → lastRow g < r ∨ lastColumn g < c → cellAt g r c = Blank.
Proof.
  intros Hr Hc Hout.
  destruct (blankContent (cellAt g r c)) eqn:E.
  - rewrite <- cellAt_stored. unfold stored. by rewrite E.
  - pose proof (lastRow_ge g r c Hr Hc E). pose proof (lastColumn_ge g r c Hr Hc E). lia.
Qed.

(** ** Blocks read from the sheet *)

Lemma length_readBlock {A} (f : nat → nat → A) rg : length (readBlock f rg) = rRows rg.
Proof. unfold readBlock. by rewrite length_fmap, length_seq. Qed.

Lemma readBlock_row {A} (f : nat → nat → A) rg i :
  i < rRows rg →
  readBlock f rg !!! i = (λ j, f (rRow rg + i) (rCol rg + j)) <$> seq 0 (rCols rg).
Proof.
  intros Hi. unfold readBlock. apply list_lookup_total_correct.
  rewrite list_lookup_fmap. rewrite (lookup_seq_lt _ _ _ Hi). done.
Qed.

Lemma readBlock_cell {A} `{!Inhabited A} (f : nat → nat → A) rg i j :
  i < rRows rg → j < rCols rg →
  (readBlock f rg !!! i) !!! j = f (rRow rg + i) (rCol rg + j).
Proof.
  intros Hi Hj. rewrite readBlock_row by done. apply list_lookup_total_correct.
  rewrite list_lookup_fmap. rewrite (lookup_seq_lt _ _ _ Hj). done.
Qed.

Lemma readBlock_row_length {A} (f : nat → nat → A) rg i :
  i < rRows rg → length (readBlock f rg !!! i) = rCols rg.
Proof. intros. rewrite readBlock_row by done. by rewrite length_fmap, length_seq. Qed.

(** ** Running scripts *)

Lemma post_sheetAfter {A : Type} (m : Script A) (g : grid) (Q : grid → Prop) :
  post m g (λ _ g', Q g') → Q (sheetAfter m g).
Proof. done. Qed.

Lemma post_mono {A : Type} (m : Script A) (g : grid) (Q Q' : outcome A → grid → Prop) :
  post m g Q → (∀ o g', Q o g' → Q' o g') → post m g Q'.
Proof. unfold post. auto. Qed.

Lemma post_ret {A : Type} (a : A) (g : grid) (Q : outcome A → grid → Prop) :
  Q (Returned a) g → post (mret a) g Q.
Proof. done. Qed.

Lemma post_throw {A : Type} (e : string) (g : grid) (Q : outcome A → grid → Prop) :
  Q (Thrown e) g → post (throw e) g Q.
Proof. done. Qed.

Lemma post_reads {A : Type} (f : grid → A) (g : grid) (Q : outcome A → grid → Prop) :
  Q (Returned (f g)) g → post (reads f) g Q.
Proof. done. Qed.

Lemma post_modify (f : grid → grid) (g : grid) (Q : outcome unit → grid → Prop) :
  Q (Returned ()) (f g) → post (modify f) g Q.
Proof. done. Qed.

Lemma post_bind {A B : Type} (m : Script A) (k : A → Script B) (g : grid) (Q : outcome B → grid → Prop) :
  post m g (λ o g', match o with
                    | Returned a => post (k a) g' Q
                    | Thrown e => Q (Thrown e) g'
                    end) →
  post (m ≫= k) g Q.
Proof.
  unfold post, mbind, script_bind. by destruct (m g) as [[a|e] g'].
Qed.

Lemma post_when (b : bool) (m : Script unit) (g : grid) (Q : outcome unit → grid → Prop) :
  (b = true → post m g Q) → (b = false → Q (Returned ()) g) → post (when b m) g Q.
Proof. intros H1 H2. destruct b; [by apply H1 | by apply H2]. Qed.

Lemma post_getRange (r c nr nc : nat) (g : grid) (Q : outcome range → grid → Prop) :
  (validRange r c nr nc → Q (Returned (Range r c nr nc)) g) →
  (∀ e, ¬ validRange r c nr nc → Q (Thrown e) g) →
  post (getRange r c nr nc) g Q.
Proof.
  unfold post, getRange, validRange. intros Hok Hbad.
  destruct (1 <=? r) eqn:E1; [destruct (1 <=? c) eqn:E2;
    [destruct (1 <=? nr) eqn:E3; [destruct (1 <=? nc) eqn:E4|]|]|]; simpl;
  try (apply Hok; repeat split; by apply Nat.leb_le);
  apply Hbad; intros (?%Nat.leb_le & ?%Nat.leb_le & ?%Nat.leb_le & ?%Nat.leb_le); congruence.
Qed.

Lemma post_setValues (rg : range) (m : list (list value)) (g : grid) (Q : outcome unit → grid → Prop) :
  (rectangular (rRows rg) (rCols rg) m = true →
   Q (Returned ()) (writeRows (rRow rg) (rCol rg) ((λ row : list value, Lit <$> row) <$> m) g)) →
  (∀ e, rectangular (rRows rg) (rCols rg) m = false → Q (Thrown e) g) →
  post (setValues rg m) g Q.
Proof.
  unfold post, setValues. intros Hok Hbad.
  destruct (rectangular _ _ m); simpl; auto.
Qed.

Lemma post_fillRange (rg : range) (x : content) (g : grid) (Q : outcome unit → grid → Prop) :
  Q (Returned ())
    (writeRows (rRow rg) (rCol rg) (replicate (rRows rg) (replicate (rCols rg) x)) g) →
  post (fillRange rg x) g Q.
Proof. done. Qed.

(** A loop keeps an invariant that each of its rounds keeps, whether the
    round returns or throws. *)
Lemma post_forEach {A : Type} (l : list A) (body : A → Script unit) (I : grid → Prop) : ∀ g : grid,
  I g →
  (∀ x g', x ∈ l → I g' → post (body x) g' (λ _ g'', I g'')) →
  post (forEach l body) g (λ _ g', I g').
Proof.
  induction l as [|x l IH]; intros g Hg Hbody; simpl.
  - by apply post_ret.
  - apply post_bind. eapply post_mono.
    + apply Hbody; [by left | done].
    + intros [[]|e] g' Hg'; simpl; [|done].
      apply IH; [done|]. intros y g'' Hy. apply Hbody. by right.
Qed.

(** Sequencing after a step that is only known to keep an invariant. *)
Lemma post_bind_inv {A B : Type} (I : grid → Prop) (m : Script A) (k : A → Script B)
    (g : grid) (Q : outcome B → grid → Prop) :
  post m g (λ _ g', I g') →
  (∀ a g', I g' → post (k a) g' Q) →
  (∀ e g', I g' → Q (Thrown e) g') →
  post (m ≫= k) g Q.
Proof.
  intros Hm Hk He. apply post_bind. eapply post_mono; [exact Hm|].
  intros [a|e] g' Hg'; simpl; auto.
Qed.

(** Sequencing after a step that returns and establishes [I]. *)
Lemma post_bind_ret {A B : Type} (I : grid → Prop) (m : Script A) (k : A → Script B)
    (g : grid) (Q : outcome B → grid → Prop) :
  post m g (λ o g', (∃ a, o = Returned a) ∧ I g') →
  (∀ a g', I g' → post (k a) g' Q) →
  post (m ≫= k) g Q.
Proof.
  intros Hm Hk. apply post_bind. eapply post_mono; [exact Hm|].
  intros o g' [[a ->] Hg']. simpl. auto.
Qed.

(** ** What a written block leaves alone *)

Lemma cellAt_writeRows_outside (m : list (list content)) (r c : nat) (g : grid) (r' c' : nat) :
  r' < r ∨ c' < c → cellAt (writeRows r c m g) r' c' = cellAt g r' c'.
Proof. intros. rewrite cellAt_writeRows. case_decide; [lia | done]. Qed.

Lemma cellAt_fill (r c nr nc : nat) (x : content) (g : grid) (r' c' : nat) :
  cellAt (writeRows r c (replicate nr (replicate nc x)) g) r' c' =
    if decide (r ≤ r' < r + nr ∧ c ≤ c' < c + nc) then stored x else cellAt g r' c'.
Proof.
  rewrite cellAt_writeRows, length_replicate.
  destruct (decide (r ≤ r' < r + nr)) as [Hr|Hr].
  - rewrite lookup_total_replicate_2 by lia. rewrite length_replicate.
    destruct (decide (c ≤ c' < c + nc)).
    + rewrite lookup_total_replicate_2 by lia. repeat case_decide; try lia; done.
    + repeat case_decide; try lia; done.
  - repeat case_decide; try lia; done.
Qed.

Lemma rectangular_length {A : Type} (nr nc : nat) (m : list (list A)) :
  rectangular nr nc m = true → length m = nr.
Proof.
  unfold rectangular. intros [H _]%andb_true_iff. by apply bool_decide_eq_true in H.
Qed.

Lemma rectangular_row {A : Type} (nr nc : nat) (m : list (list A)) (k : nat) :
  rectangular nr nc m = true → k < nr → length (m !!! k) = nc.
Proof.
  unfold rectangular. intros [Hl Hall]%andb_true_iff Hk.
  apply bool_decide_eq_true in Hl. subst nr.
  rewrite forallb_forall in Hall.
  eapply bool_decide_eq_true_1, Hall, list_elem_of_In, list_elem_of_lookup_total_2. done.
Qed.

(** The cells after [setValues] of a well-shaped block. *)
Lemma cellAt_setValues (nr nc : nat) (m : list (list value)) (r c : nat) (g : grid)
    (r' c' : nat) :
  rectangular nr nc m = true →
  cellAt (writeRows r c ((λ row : list value, Lit <$> row) <$> m) g) r' c' =
    if decide (r ≤ r' < r + nr ∧ c ≤ c' < c + nc)
    then stored (Lit ((m !!! (r' - r)) !!! (c' - c))) else cellAt g r' c'.
Proof.
  intros Hrect. pose proof (rectangular_length _ _ _ Hrect) as Hlen.
  rewrite cellAt_writeRows, length_fmap, Hlen.
  destruct (decide (r ≤ r' < r + nr)) as [Hr|Hr].
  - rewrite (list_lookup_total_fmap (λ row : list value, Lit <$> row) m (r' - r)) by lia.
    rewrite length_fmap.
    rewrite (rectangular_row _ _ _ _ Hrect) by lia.
    destruct (decide (c ≤ c' < c + nc)) as [Hc|Hc].
    + rewrite (list_lookup_total_fmap Lit (m !!! (r' - r)) (c' - c))
        by (rewrite (rectangular_row _ _ _ _ Hrect) by lia; lia).
      repeat case_decide; try lia; done.
    + repeat case_decide; try lia; done.
  - repeat case_decide; try lia; done.
Qed.

(** ** The scans for the last populated line *)

Lemma run_getLastNonEmptyRow (g : grid) :
  getLastNonEmptyRow g = (Returned (lastNonEmptyRow g), g).
Proof. done. Qed.

Lemma post_getLastNonEmptyRow (g : grid) (Q : outcome nat → grid → Prop) :
  Q (Returned (lastNonEmptyRow g)) g → post getLastNonEmptyRow g Q.
Proof. done. Qed.

Lemma post_getLastNonEmptyColumn (startCol : nat) (g : grid) (Q : outcome nat → grid → Prop) :
  Q (Returned (lastNonEmptyColumn startCol g)) g → post (getLastNonEmptyColumn startCol) g Q.
Proof.
  unfold post, lastNonEmptyColumn, getLastNonEmptyColumn, mbind, script_bind. simpl.
  destruct (bool_decide (lastColumn g = 0) || bool_decide (lastRow g = 0)) eqn:E; [done|].
  apply orb_false_iff in E as [E1%bool_decide_eq_false E2%bool_decide_eq_false].
  unfold getRange.
  destruct (lastRow g) eqn:Er; [done|]. destruct (lastColumn g) eqn:Ec; [done|]. done.
Qed.

Lemma scanRows_bounds (values : list (list value)) (n : nat) :
  1 ≤ scanRows values n ∧ scanRows values n ≤ n `max` 1.
Proof. induction n as [|n IH]; simpl; [lia|]. destruct (existsb _ _); lia. Qed.

Lemma scanRows_ge (values : list (list value)) (n i : nat) :
  i < n → existsb nonEmpty (values !!! i) = true → i + 1 ≤ scanRows values n.
Proof.
  induction n as [|n IH]; intros Hi Hex; simpl; [lia|].
  destruct (existsb nonEmpty (values !!! n)) eqn:E; [lia|].
  destruct (decide (i = n)) as [->|]; [congruence|]. apply IH; [lia | done].
Qed.

Lemma scanRows_above (values : list (list value)) (n i : nat) :
  scanRows values n ≤ i → i < n → existsb nonEmpty (values !!! i) = false.
Proof.
  induction n as [|n IH]; intros Hle Hi; simpl in *; [lia|].
  destruct (existsb nonEmpty (values !!! n)) eqn:E; [lia|].
  destruct (decide (i = n)) as [->|]; [done|]. apply IH; [done | lia].
Qed.

Lemma blankContent_of_value (g : grid) (r c : nat) :
  nonEmpty (valueAt g r c) = true → blankContent (cellAt g r c) = false.
Proof.
  unfold valueAt. pose proof (cellAt_stored g r c) as Hs.
  destruct (cellAt g r c) as [v|f] eqn:E; cbn [blankContent].
  - intros Hv. unfold blankValue. by rewrite Hv.
  - intros _. unfold stored in Hs. cbn [blankContent] in Hs.
    destruct (bool_decide (f = "")) eqn:Ef; [discriminate | done].
Qed.

Lemma lastNonEmptyRow_ge (g : grid) (r c : nat) :
  1 ≤ r → 1 ≤ c → nonEmpty (valueAt g r c) = true → r ≤ lastNonEmptyRow g.
Proof.
  intros Hr Hc Hv. pose proof (blankContent_of_value _ _ _ Hv) as Hb.
  pose proof (lastRow_ge g r c Hr Hc Hb). pose proof (lastColumn_ge g r c Hr Hc Hb).
  unfold lastNonEmptyRow. cbn zeta. rewrite length_readBlock.
  replace r with ((r - 1) + 1) at 1 by lia.
  apply scanRows_ge; [simpl; lia|].
  rewrite readBlock_row by (simpl; lia).
  apply existsb_exists. exists (valueAt g r c). split; [|done].
  apply list_elem_of_In, list_elem_of_fmap. exists (c - 1). split.
  - simpl. f_equal; lia.
  - apply elem_of_seq. simpl. lia.
Qed.

Lemma lastNonEmptyRow_pos (g : grid) : 1 ≤ lastNonEmptyRow g.
Proof. apply scanRows_bounds. Qed.

Lemma scanColumns_ge (data : list (list value)) (nrows startCol n : nat) :
  startCol ≤ scanColumns data nrows startCol n ∨ startCol = 0.
Proof.
  induction n as [|n IH]; simpl; [lia|].
  destruct (startCol - 1 <=? n) eqn:E; [|lia].
  apply Nat.leb_le in E. destruct (existsb _ _); [lia | done].
Qed.

Lemma lastNonEmptyColumn_ge (startCol : nat) (g : grid) :
  startCol ≤ lastNonEmptyColumn startCol g.
Proof.
  unfold lastNonEmptyColumn. destruct (_ || _); [done|].
  destruct (scanColumns_ge (readBlock (valueAt g) (Range 1 1 (lastRow g) (lastColumn g)))
              (lastRow g) startCol (lastColumn g)); lia.
Qed.

(** ** Symbolic execution *)

Ltac wp_read :=
  first
    [ apply post_getLastNonEmptyRow
    | apply post_getLastNonEmptyColumn
    | apply post_ret
    | apply post_reads
    | apply post_throw ];
  cbv beta iota.

Ltac wp_bind := apply post_bind.

(** ** The JavaScript [Map] *)

Lemma sameValue_eq (a b : value) : sameValue a b = true → a = b.
Proof. destruct a, b; simpl; try done; by intros ?%bool_decide_eq_true. Qed.

Lemma sameValue_date_l (a b : value) : isDate a = true → sameValue a b = false.
Proof. by destruct a. Qed.

Lemma sameValue_date_r (a b : value) : isDate b = true → sameValue a b = false.
Proof. by destruct a, b. Qed.

Lemma sameValue_refl (a : value) : isDate a = false → sameValue a a = true.
Proof. destruct a; simpl; try done; intros _; by apply bool_decide_eq_true. Qed.

Lemma sameValue_sym (a b : value) : sameValue a b = sameValue b a.
Proof.
  destruct (sameValue a b) eqn:E1, (sameValue b a) eqn:E2; try done.
  - pose proof (sameValue_eq _ _ E1) as ->. congruence.
  - pose proof (sameValue_eq _ _ E2) as ->. congruence.
Qed.

Lemma mapGet_mapSet {V : Type} (k k' : value) (v : V) (m : list (value * V)) :
  mapGet k (mapSet k' v m) = if sameValue k' k then Some v else mapGet k m.
Proof.
  induction m as [|[k0 v0] m IH]; simpl.
  - done.
  - destruct (sameValue k0 k') eqn:E0; simpl.
    + pose proof (sameValue_eq _ _ E0) as ->. by destruct (sameValue k' k).
    + rewrite IH. destruct (sameValue k0 k) eqn:E1; [|done].
      pose proof (sameValue_eq _ _ E1) as ->.
      rewrite sameValue_sym in E0. by rewrite E0.
Qed.

Lemma existingRows_upTo (sheetData : list (list value)) (cim : nat) (v : value) (n : nat) :
  match mapGet v (foldl (λ m i,
          let rowVal := (sheetData !!! i) !!! cim in
          if neStr rowVal then mapSet rowVal i m else m) [] (seq 1 n)) with
  | Some i => 1 ≤ i ≤ n ∧ rowMatches sheetData cim v i
              ∧ ∀ j, i < j ≤ n → ¬ rowMatches sheetData cim v j
  | None => ∀ j, 1 ≤ j ≤ n → ¬ rowMatches sheetData cim v j
  end.
Proof.
  induction n as [|n IH].
  - simpl. intros j ?. lia.
  - rewrite seq_S, foldl_app. simpl.
    destruct (neStr ((sheetData !!! S n) !!! cim)) eqn:En.
    + rewrite mapGet_mapSet.
      destruct (sameValue ((sheetData !!! S n) !!! cim) v) eqn:Es.
      * split; [lia|]. split; [by split|]. intros j ?. lia.
      * destruct (mapGet v _) as [i|].
        -- destruct IH as (? & ? & Hlast). split; [lia|]. split; [done|].
           intros j Hj Hm. destruct (decide (j = S n)) as [->|].
           ++ destruct Hm. congruence.
           ++ apply (Hlast j); [lia | done].
        -- intros j Hj Hm. destruct (decide (j = S n)) as [->|].
           ++ destruct Hm. congruence.
           ++ apply (IH j); [lia | done].
    + destruct (mapGet v _) as [i|].
      * destruct IH as (? & ? & Hlast). split; [lia|]. split; [done|].
        intros j Hj Hm. destruct (decide (j = S n)) as [->|].
        -- destruct Hm. congruence.
        -- apply (Hlast j); [lia | done].
      * intros j Hj Hm. destruct (decide (j = S n)) as [->|].
        -- destruct Hm. congruence.
        -- apply (IH j); [lia | done].
Qed.

(** The map of step 1 sends a value to the last row that holds it. *)
Lemma existingRows_Some (sheetData : list (list value)) (cim : nat) (v : value) (i : nat) :
  mapGet v (existingRows sheetData cim) = Some i →
  1 ≤ i < length sheetData ∧ rowMatches sheetData cim v i
  ∧ ∀ j, i < j < length sheetData → ¬ rowMatches sheetData cim v j.
Proof.
  unfold existingRows. intros E.
  pose proof (existingRows_upTo sheetData cim v (length sheetData - 1)) as H.
  cbv zeta in H. rewrite E in H. destruct H as (? & ? & Hlast). split; [lia|]. split; [done|].
  intros j ?. apply Hlast. lia.
Qed.

Lemma existingRows_None (sheetData : list (list value)) (cim : nat) (v : value) :
  mapGet v (existingRows sheetData cim) = None →
  ∀ j, 1 ≤ j < length sheetData → ¬ rowMatches sheetData cim v j.
Proof.
  unfold existingRows. intros E.
  pose proof (existingRows_upTo sheetData cim v (length sheetData - 1)) as H.
  cbv zeta in H. rewrite E in H. intros j ?. apply H. lia.
Qed.

Lemma elem_of_existingUpdatesOf (m : list (value * nat)) (columnToMatch : string)
    (data : list record) (rowIndex : nat) (rowObject : record) :
  (rowIndex, rowObject) ∈ existingUpdatesOf m columnToMatch data →
  rowObject ∈ data ∧ falsy (prop rowObject columnToMatch) = false
  ∧ mapGet (prop rowObject columnToMatch) m = Some rowIndex.
Proof.
  unfold existingUpdatesOf. intros (obj & Hin & Hf)%list_elem_of_omap.
  destruct (isNewRecord m columnToMatch obj) eqn:En; [done|].
  destruct (mapGet _ m) as [i|] eqn:Eg; [|done]. simpl in Hf.
  injection Hf as -> ->. split; [done|]. split; [|done].
  unfold isNewRecord in En. by apply orb_false_iff in En as [? _].
Qed.

(** ** The header line is never written *)

(** One step of a script whose postcondition only talks about the final
    sheet. *)
Ltac wp_step :=
  lazymatch goal with
  | |- post (mbind _ (forEach _ _)) _ (λ _ g', @?I g') =>
      apply (post_bind_inv I); cbv beta;
      [ | intros ? ? ? | intros ? ? ?; assumption]
  | |- post (mbind _ (when _ _)) _ (λ _ g', @?I g') =>
      apply (post_bind_inv I); cbv beta;
      [ | intros ? ? ? | intros ? ? ?; assumption]
  | |- post (mbind _ _) _ _ => apply post_bind
  | |- post (getRange _ _ _ _) _ _ => apply post_getRange; [intros ? | intros ? ?]
  | |- post (getCellRange _ _) _ _ => apply post_getRange; [intros ? | intros ? ?]
  | |- post (setValues _ _) _ _ => apply post_setValues; [intros ? | intros ? ?]
  | |- post (clearContent _) _ _ => apply post_fillRange
  | |- post (setValue _ _) _ _ => apply post_fillRange
  | |- post (setFormula _ _) _ _ => apply post_fillRange
  | |- post (when _ _) _ _ => apply post_when; intros ?
  | |- post (if ?b then _ else _) _ _ => destruct b eqn:?
  | |- post (match ?x with _ => _ end) _ _ => destruct x eqn:?
  | |- post _ _ _ => wp_read
  end; cbv beta iota; cbn [rRow rCol rRows rCols] in *.

Ltac frame_facts :=
  repeat match goal with
  | H : (_, _) ∈ existingUpdatesOf _ _ _ |- _ =>
      apply elem_of_existingUpdatesOf in H as (? & ? & (? & ? & ?)%existingRows_Some)
  end.

Ltac frame_done :=
  unfold validRange in *; frame_facts;
  try match goal with
      | |- context [lastNonEmptyRow ?g'] => pose proof (lastNonEmptyRow_pos g')
      end;
  repeat (rewrite cellAt_writeRows_outside by (cbn [rRow rCol rRows rCols]; lia));
  done.

Ltac wp_loop :=
  lazymatch goal with
  | |- post (restoreFormulas _ _) _ _ => unfold restoreFormulas
  | |- post (forEach _ _) _ (λ _ g', @?I g') =>
      apply (post_forEach _ _ I); cbv beta; [ | intros ? ? ? ?]
  end.

Ltac wp_frame := repeat (repeat wp_step; try frame_done; try wp_loop).

Lemma writeNormal_keeps_header (array : list record) (headerIndex startIndex : nat)
    (options : writeOptions) (g : grid) (k : nat) :
  headerIndex < startIndex →
  (∃ j, 1 ≤ j ∧ nonEmpty (valueAt g headerIndex j) = true) →
  cellAt (sheetAfter (writeNormal array headerIndex startIndex options) g) headerIndex k
  = cellAt g headerIndex k.
Proof.
  intros Hlt (j & Hj & Hne).
  apply (post_sheetAfter _ _ (λ g', cellAt g' headerIndex k = cellAt g headerIndex k)).
  unfold writeNormal.
  assert (1 ≤ headerIndex → headerIndex ≤ lastNonEmptyRow g)
    by (intros; by apply (lastNonEmptyRow_ge g headerIndex j)).
  wp_frame.
Qed.

Lemma writePivot_keeps_header (array : list record) (headerIndex startIndex : nat)
    (options : writeOptions) (g : grid) (k : nat) :
  headerIndex < startIndex →
  cellAt (sheetAfter (writePivot array headerIndex startIndex options) g) k headerIndex
  = cellAt g k headerIndex.
Proof.
  intros Hlt.
  apply (post_sheetAfter _ _ (λ g', cellAt g' k headerIndex = cellAt g k headerIndex)).
  unfold writePivot.
  pose proof (lastNonEmptyColumn_ge startIndex g).
  wp_frame.
Qed.

Lemma upsertRows_keeps_header (data : list record) (columnToMatch : string)
    (headerRowIndex : nat) (g : grid) (c : nat) :
  cellAt (sheetAfter (upsertRows data columnToMatch headerRowIndex) g) 1 c = cellAt g 1 c.
Proof.
  apply (post_sheetAfter _ _ (λ g', cellAt g' 1 c = cellAt g 1 c)).
  unfold upsertRows, applyUpdates, appendRecords, writeField.
  wp_frame.
Qed.

Lemma findAndUpdateRows_keeps_header (data : list record) (columnToMatch : string)
    (columnsToAdd : list string) (g : grid) (c : nat) :
  cellAt (sheetAfter (findAndUpdateRows data columnToMatch columnsToAdd) g) 1 c
  = cellAt g 1 c.
Proof.
  apply (post_sheetAfter _ _ (λ g', cellAt g' 1 c = cellAt g 1 c)).
  unfold findAndUpdateRows.
  wp_frame.
Qed.

(** C10: every write operation leaves the header line as it was.  For
    [objectsToSheetV2], in any mode and orientation with the header line
    before the start line and with a non-empty cell in the header line,
    every cell of the header row (normal) or header column (pivot) is
    unchanged; [upsertRows] and [findAndUpdateRows] leave row 1
    unchanged. *)
Theorem header_line_unchanged :
  (∀ (array : list record) (headerIndex startIndex : nat) (options : writeOptions)
     (g : grid) (k : nat),
     headerIndex < startIndex →
     (∃ j, 1 ≤ j ∧ nonEmpty (valueOn g (lineCell (pivot options) headerIndex j)) = true) →
     cellOn (sheetAfter (objectsToSheetV2 array headerIndex startIndex options) g)
       (lineCell (pivot options) headerIndex k)
     = cellOn g (lineCell (pivot options) headerIndex k))
  ∧ (∀ (data : list record) (columnToMatch : string) (headerRowIndex : nat)
       (g : grid) (c : nat),
       cellAt (sheetAfter (upsertRows data columnToMatch headerRowIndex) g) 1 c
       = cellAt g 1 c)
  ∧ (∀ (data : list record) (columnToMatch : string) (columnsToAdd : list string)
       (g : grid) (c : nat),
       cellAt (sheetAfter (findAndUpdateRows data columnToMatch columnsToAdd) g) 1 c
       = cellAt g 1 c).
Proof.
  split_and!.
  - intros array headerIndex startIndex options g k Hlt Hne.
    unfold objectsToSheetV2, cellOn, valueOn, lineCell in *.
    destruct (pivot options); simpl in *.
    + by apply writePivot_keeps_header.
    + by apply writeNormal_keeps_header.
  - apply upsertRows_keeps_header.
  - apply findAndUpdateRows_keeps_header.
Qed.

(** ** Formula replay *)

Lemma post_forEach_from (body : nat → Script unit) (I : nat → grid → Prop) (n : nat) :
  ∀ (s : nat) (g : grid),
  I s g →
  (∀ i g', s ≤ i < s + n → I i g' →
     post (body i) g' (λ o g'', o = Returned () ∧ I (S i) g'')) →
  post (forEach (seq s n) body) g (λ o g', o = Returned () ∧ I (s + n) g').
Proof.
  induction n as [|n IH]; intros s g Hg Hbody; simpl.
  - apply post_ret. by rewrite Nat.add_0_r.
  - apply post_bind. eapply post_mono; [apply (Hbody s); [lia | done]|].
    intros o g' [-> Hg']. simpl.
    replace (s + S n) with (S s + n) by lia.
    apply IH; [done|]. intros i g'' ? ?. apply Hbody; [lia | done].
Qed.

(** A counted loop with an invariant indexed by the number of rounds
    done; every round returns. *)
Lemma post_forEach_seq (body : nat → Script unit) (I : nat → grid → Prop) (n : nat)
    (g : grid) :
  I 0 g →
  (∀ i g', i < n → I i g' →
     post (body i) g' (λ o g'', o = Returned () ∧ I (S i) g'')) →
  post (forEach (seq 0 n) body) g (λ o g', o = Returned () ∧ I n g').
Proof.
  intros Hg Hbody. apply (post_forEach_from body I n 0 g Hg).
  intros i g' ? ?. apply Hbody; [lia | done].
Qed.

Lemma rectangular_fmap {A B : Type} (f : A → list B) (l : list A) (k : nat) :
  (∀ x, length (f x) = k) → rectangular (length l) k (f <$> l) = true.
Proof.
  intros Hf. unfold rectangular. rewrite length_fmap.
  rewrite bool_decide_eq_true_2 by done. simpl.
  apply forallb_forall. intros row Hin%list_elem_of_In.
  apply list_elem_of_fmap in Hin as (x & -> & _). by apply bool_decide_eq_true.
Qed.

Lemma formulaAt_Formula (g : grid) (r c : nat) (f : string) :
  cellAt g r c = Formula f → formulaAt g r c = f ∧ f ≠ "".
Proof.
  intros E. unfold formulaAt. rewrite E. split; [done|].
  pose proof (cellAt_stored g r c) as Hs. rewrite E in Hs.
  unfold stored in Hs. simpl in Hs. intros ->. done.
Qed.

Lemma Formula_occupied (g : grid) (r c : nat) (f : string) :
  cellAt g r c = Formula f → blankContent (cellAt g r c) = false.
Proof.
  intros E. destruct (formulaAt_Formula _ _ _ _ E) as [_ Hf]. rewrite E. simpl.
  by apply bool_decide_eq_false.
Qed.

Lemma restoreFormulas_spec (startIndex : nat) (formulas : list (list string))
    (g : grid) (r c : nat) (f : string) :
  1 ≤ startIndex → f ≠ "" →
  (startIndex ≤ r ∧ 1 ≤ c → (formulas !!! (r - startIndex)) !!! (c - 1) = f) →
  (startIndex ≤ r < startIndex + length formulas
   ∧ 1 ≤ c ≤ length (formulas !!! (r - startIndex))
   ∨ cellAt g r c = Formula f) →
  post (restoreFormulas startIndex formulas) g (λ _ g', cellAt g' r c = Formula f).
Proof.
  intros Hs Hf Hread Hin. unfold restoreFormulas.
  eapply post_mono.
  - apply (post_forEach_seq _
      (λ i g', (startIndex ≤ r < startIndex + i
               ∧ 1 ≤ c ≤ length (formulas !!! (r - startIndex)))
               ∨ cellAt g r c = Formula f
               → cellAt g' r c = Formula f)).
    + intros [?|?]; [lia | done].
    + intros i g' Hi Hinv.
      eapply post_mono.
      * apply (post_forEach_seq _
          (λ j g'', ((startIndex ≤ r < startIndex + i
                     ∧ 1 ≤ c ≤ length (formulas !!! (r - startIndex)))
                     ∨ cellAt g r c = Formula f
                     ∨ (r = startIndex + i ∧ 1 ≤ c ≤ j))
                    → cellAt g'' r c = Formula f)).
        -- intros [?|[?|?]]; [by apply Hinv; left | by apply Hinv; right | lia].
        -- intros j g'' Hj Hinv'.
           repeat wp_step; try (exfalso; unfold validRange in *; lia).
           ++ split; [done|]. intros Hcase.
              apply negb_true_iff, bool_decide_eq_false in Heqb.
              rewrite cellAt_fill.
              destruct (decide (startIndex + i ≤ r < startIndex + i + 1
                                ∧ j + 1 ≤ c < j + 1 + 1)) as [Hd|Hd].
              ** rewrite stored_nonblank by (simpl; by apply bool_decide_eq_false).
                 f_equal. rewrite <- Hread by lia.
                 replace (r - startIndex) with i by lia. by replace (c - 1) with j by lia.
              ** apply Hinv'. destruct Hcase as [?|[?|?]]; [by left | by right; left |].
                 right; right. lia.
           ++ split; [done|]. intros Hcase.
              destruct (decide (r = startIndex + i ∧ c = S j)) as [[-> ->]|Hne].
              ** apply negb_false_iff, bool_decide_eq_true in Heqb.
                 exfalso. apply Hf. rewrite <- Heqb. rewrite <- Hread by lia.
                 replace (startIndex + i - startIndex) with i by lia.
                 by replace (S j - 1) with j by lia.
              ** apply Hinv'. destruct Hcase as [?|[?|?]]; [by left | by right; left |].
                 right; right. lia.
      * intros o g'' [-> Hinv']. split; [done|]. intros [Hcase|Hcase].
        -- apply Hinv'. destruct (decide (r = startIndex + i)) as [->|].
           ++ right; right. split; [done|]. replace (startIndex + i - startIndex) with i in Hcase by lia. lia.
           ++ left. lia.
        -- apply Hinv'. by right; left.
  - intros o g' [_ Hinv]. simpl. apply Hinv. destruct Hin as [?|?]; [left | by right]. done.
Qed.

Lemma length_headers (g : grid) (headerIndex n : nat) :
  length (readBlock (valueAt g) (Range headerIndex 1 1 n) !!! 0) = n.
Proof. by rewrite readBlock_row_length by (simpl; lia). Qed.

Lemma length_encoded (array : list record) (headers : list value) :
  rectangular (length ((λ obj, fieldOrEmpty obj <$> headers) <$> array)) (length headers)
    ((λ obj, fieldOrEmpty obj <$> headers) <$> array) = true.
Proof.
  rewrite length_fmap. apply rectangular_fmap. intros x. by rewrite length_fmap.
Qed.

Lemma writeNormal_keeps_formulas (array : list record) (headerIndex startIndex : nat)
    (options : writeOptions) (g : grid) (r c : nat) (f : string) :
  mode options = "overwrite" → preserveFormulas options = true →
  cellAt g r c = Formula f →
  cellAt (sheetAfter (writeNormal array headerIndex startIndex options) g) r c = Formula f.
Proof.
  intros Hmode Hpres Hcell.
  pose proof (Formula_occupied _ _ _ _ Hcell) as Hocc.
  destruct (formulaAt_Formula _ _ _ _ Hcell) as [Hfa Hf].
  apply (post_sheetAfter _ _ (λ g', cellAt g' r c = Formula f)).
  unfold writeNormal. rewrite Hmode, Hpres. cbn [andb].
  rewrite bool_decide_eq_true_2 by done.
  do 4 wp_step; [|done]. do 2 wp_step.
  pose proof (length_headers g headerIndex (lastColumn g)) as Hlen.
  set (headers := readBlock (valueAt g) (Range headerIndex 1 1 (lastColumn g)) !!! 0) in *.
  clearbody headers.
  do 2 wp_step. wp_step.
  - apply Nat.leb_le in Heqb.
    do 2 wp_step; [|done]. do 4 wp_step.
    apply (post_bind_ret (λ g', startIndex ≤ r ∧ 1 ≤ c ∨ cellAt g' r c = Formula f)).
    + assert (∀ g', cellAt g' r c = Formula f →
                ∀ m, startIndex ≤ r ∧ 1 ≤ c
                     ∨ cellAt (writeRows startIndex 1 m g') r c = Formula f) as Hkeep.
      { intros g' Hg' m. destruct (decide (startIndex ≤ r ∧ 1 ≤ c)); [by left | right].
        rewrite cellAt_writeRows_outside by lia. done. }
      repeat wp_step.
      * split; [by eexists|]. destruct (Hkeep g Hcell) with (m := replicate (lastRow g - startIndex + 1) (replicate (length headers) Blank)) as [?|E]; [by left|].
        by apply Hkeep.
      * exfalso. rewrite length_encoded in *. done.
      * exfalso. unfold validRange in *. apply Nat.ltb_lt in H1. lia.
      * split; [by eexists|]. by apply Hkeep.
    + intros _ g' Hg'. unfold validRange in *.
      apply restoreFormulas_spec; [lia | done | |].
      * intros [? ?].
        pose proof (lastRow_ge g r c ltac:(lia) ltac:(lia) Hocc).
        pose proof (lastColumn_ge g r c ltac:(lia) ltac:(lia) Hocc).
        rewrite readBlock_cell by (simpl; lia). cbn [rRow rCol].
        replace (startIndex + (r - startIndex)) with r by lia.
        by replace (1 + (c - 1)) with c by lia.
      * rewrite length_readBlock. simpl.
        destruct Hg' as [[? ?]|?]; [left | by right].
        pose proof (lastRow_ge g r c ltac:(lia) ltac:(lia) Hocc).
        pose proof (lastColumn_ge g r c ltac:(lia) ltac:(lia) Hocc).
        rewrite readBlock_row_length by (simpl; lia). simpl. lia.
  - apply Nat.leb_gt in Heqb.
    assert (1 ≤ r → 1 ≤ c → r < startIndex) as Hout.
    { intros. pose proof (lastRow_ge g r c ltac:(lia) ltac:(lia) Hocc). lia. }
    repeat wp_step; unfold validRange in *;
      rewrite ?cellAt_writeRows_outside by lia; done.
Qed.

(** A replay loop over one line: round [i] writes formula [fml i] at
    ([row i], [col i]) when [cond i] holds.  The cell ([r], [c]) ends with
    content [x] if every round that hits it writes [x] and either some
    round hits it or it held [x] before. *)
Lemma replayLoop_spec (n : nat) (cond : nat → bool) (row col : nat → nat)
    (fml : nat → string) (g : grid) (r c : nat) (x : content) :
  (∀ i, i < n → 1 ≤ row i ∧ 1 ≤ col i) →
  (∀ i, i < n → cond i = true → row i = r → col i = c → stored (Formula (fml i)) = x) →
  ((∃ i, i < n ∧ cond i = true ∧ row i = r ∧ col i = c) ∨ cellAt g r c = x) →
  post (forEach (seq 0 n) (λ i,
          if cond i then cell ← getCellRange (row i) (col i); setFormula cell (fml i)
          else mret ())) g
    (λ o g', o = Returned () ∧ cellAt g' r c = x).
Proof.
  intros Hvalid Hhit Hpre.
  eapply post_mono.
  - apply (post_forEach_seq _
      (λ k g', (∃ i, i < k ∧ cond i = true ∧ row i = r ∧ col i = c) ∨ cellAt g r c = x
               → cellAt g' r c = x)).
    + intros [(i & ? & _)|?]; [lia | done].
    + intros i g' Hi Hinv. destruct (Hvalid i Hi).
      repeat wp_step; try (exfalso; unfold validRange in *; lia).
      * split; [done|]. intros Hcase. rewrite cellAt_fill.
        destruct (decide (row i ≤ r < row i + 1 ∧ col i ≤ c < col i + 1)) as [Hd|Hd].
        -- apply Hhit; [done | done | lia | lia].
        -- apply Hinv. destruct Hcase as [(i' & ? & ? & ? & ?)|?]; [left | by right].
           exists i'. destruct (decide (i' = i)) as [->|]; [lia|]. split_and!; [lia | done..].
      * split; [done|]. intros Hcase.
        apply Hinv. destruct Hcase as [(i' & ? & ? & ? & ?)|?]; [left | by right].
        exists i'. destruct (decide (i' = i)) as [->|]; [congruence|]. split_and!; [lia | done..].
  - intros o g' [-> Hinv]. split; [done|]. apply Hinv.
    destruct Hpre as [(i & ? & ?)|?]; [left; by exists i | by right].
Qed.

Lemma writePivot_keeps_formulas (array : list record) (headerIndex startIndex : nat)
    (options : writeOptions) (g : grid) (r c : nat) (f : string) :
  mode options = "overwrite" → preserveFormulas options = true →
  cellAt g r c = Formula f →
  cellAt (sheetAfter (writePivot array headerIndex startIndex options) g) r c = Formula f.
Proof.
  intros Hmode Hpres Hcell.
  pose proof (Formula_occupied _ _ _ _ Hcell) as Hocc.
  destruct (formulaAt_Formula _ _ _ _ Hcell) as [_ Hf].
  apply (post_sheetAfter _ _ (λ g', cellAt g' r c = Formula f)).
  unfold writePivot. rewrite Hmode, Hpres.
  rewrite bool_decide_eq_false_2 by done. rewrite bool_decide_eq_true_2 by done.
  do 4 wp_step; [|done]. do 2 wp_step.
  set (properties := (λ row : list value, row !!! 0) <$> _).
  assert (length properties = lastRow g) as Hlen
    by (unfold properties; by rewrite length_fmap, length_readBlock).
  clearbody properties.
  apply post_forEach; [done|]. intros [index obj] g' _ Hinv.
  do 2 wp_step; [|done]. do 4 wp_step.
  set (formulas := readBlock (formulaAt g') (Range 1 (startIndex + index) (length properties) 1)).
  do 2 wp_step; [|by exfalso]. wp_step. wp_step.
  2:{ exfalso. rewrite rectangular_fmap in H2; done. }
  eapply post_mono.
  - apply (replayLoop_spec _ (λ i, negb (bool_decide ((formulas !!! i) !!! 0 = "")))
             (λ i, i + 1) (λ _, startIndex + index) (λ i, (formulas !!! i) !!! 0)
             _ r c (Formula f)).
    + intros i _. unfold validRange in *. lia.
    + intros i Hi Hc <- <-. subst formulas. rewrite length_readBlock in Hi.
      cbn [rRows] in Hi.
      rewrite readBlock_cell by (simpl; lia). cbn [rRow rCol].
      replace (1 + i) with (i + 1) by lia.
      replace (startIndex + index + 0) with (startIndex + index) by lia.
      destruct (formulaAt_Formula _ _ _ _ Hinv) as [-> _].
      apply stored_nonblank. simpl. by apply bool_decide_eq_false.
    + subst formulas. rewrite length_readBlock. cbn [rRows]. rewrite Hlen.
      destruct (decide (1 ≤ r ∧ c = startIndex + index)) as [[Hr ->]|Hne].
      * left. unfold validRange in *.
        pose proof (lastRow_ge g r (startIndex + index) ltac:(lia) ltac:(lia) Hocc).
        exists (r - 1). split; [lia|].
        rewrite readBlock_cell by (simpl; lia). cbn [rRow rCol].
        replace (1 + (r - 1)) with r by lia. replace (startIndex + index + 0) with (startIndex + index) by lia.
        destruct (formulaAt_Formula _ _ _ _ Hinv) as [-> _].
        split_and!; [|lia|done]. by apply negb_true_iff, bool_decide_eq_false.
      * right. rewrite (cellAt_setValues _ _ _ _ _ _ _ _ H2), cellAt_fill.
        repeat case_decide; try lia; done.
  - intros o g'' [_ ?]. done.
Qed.

Lemma cellAt_of_formulaAt (g : grid) (r c : nat) (f : string) :
  formulaAt g r c = f → f ≠ "" → cellAt g r c = Formula f.
Proof. unfold formulaAt. destruct (cellAt g r c); [done | by intros ->]. Qed.

(** C6: an overwrite with preserve-formulas enabled puts every non-empty
    formula of the cleared region back: a cell that held formula [f]
    before the write holds [f] after it, whether or not the new data
    wrote a literal into that cell, and so never the empty string of the
    intermediate clear. *)
Theorem overwrite_replays_formulas (array : list record) (headerIndex startIndex : nat)
    (options : writeOptions) (g : grid) (r c : nat) (f : string) :
  mode options = "overwrite" →
  preserveFormulas options = true →
  clearedRegion (pivot options) array startIndex g r c →
  formulaAt g r c = f → f ≠ "" →
  formulaAt (sheetAfter (objectsToSheetV2 array headerIndex startIndex options) g) r c = f.
Proof.
  intros Hmode Hpres _ Hfa Hf.
  pose proof (cellAt_of_formulaAt _ _ _ _ Hfa Hf) as Hcell.
  unfold objectsToSheetV2. destruct (pivot options); simpl.
  - apply formulaAt_Formula. by apply writePivot_keeps_formulas.
  - apply formulaAt_Formula. by apply writeNormal_keeps_formulas.
Qed.

(** ** Overlay leaves unsupplied cells alone *)

Lemma elem_of_indexed {A : Type} (l : list A) (i : nat) (x : A) :
  (i, x) ∈ indexed l ↔ l !! i = Some x.
Proof.
  unfold indexed. rewrite list_elem_of_lookup. split.
  - intros (k & Hk). apply lookup_zip_Some in Hk as [Hk1 Hk2].
    apply lookup_seq in Hk1 as [-> _]. done.
  - intros Hx. exists i. apply lookup_zip_Some. split; [|done].
    apply lookup_seq. split; [done|]. by eapply lookup_lt_Some.
Qed.

Lemma lookup_total_zip_with {A B C : Type} `{!Inhabited A, !Inhabited B, !Inhabited C}
    (f : A → B → C) (l : list A) (k : list B) (i : nat) :
  i < length l → i < length k → zip_with f l k !!! i = f (l !!! i) (k !!! i).
Proof.
  intros Hl Hk. apply list_lookup_total_correct. rewrite lookup_zip_with.
  destruct (lookup_lt_is_Some_2 l i Hl) as [x Hx].
  destruct (lookup_lt_is_Some_2 k i Hk) as [y Hy].
  rewrite Hx, Hy. simpl.
  by rewrite (list_lookup_total_correct _ _ _ Hx), (list_lookup_total_correct _ _ _ Hy).
Qed.

Lemma header_at (g : grid) (headerIndex j : nat) :
  j < lastColumn g →
  (readBlock (valueAt g) (Range headerIndex 1 1 (lastColumn g)) !!! 0) !!! j
  = valueAt g headerIndex (1 + j).
Proof.
  intros Hj. rewrite readBlock_cell by (simpl; lia). cbn [rRow rCol].
  by rewrite Nat.add_0_r.
Qed.

Lemma overlayNormal_batch (array : list record) (headerIndex startIndex : nat)
    (options : writeOptions) (g : grid) (r c : nat) :
  mode options = "overlay" → preserveFormulas options = false →
  ¬ supplied false array headerIndex startIndex g r c →
  keepsValue g (sheetAfter (writeNormal array headerIndex startIndex options) g) r c.
Proof.
  intros Hmode Hpres Hns.
  apply (post_sheetAfter _ _ (λ g', keepsValue g g' r c)).
  unfold writeNormal. rewrite Hmode, Hpres.
  rewrite !bool_decide_eq_false_2 by done. rewrite bool_decide_eq_true_2 by done.
  cbn [negb].
  do 4 wp_step; [|by left]. do 2 wp_step.
  pose proof (header_at g headerIndex) as Hhdr.
  pose proof (length_headers g headerIndex (lastColumn g)) as Hlen.
  set (headers := readBlock (valueAt g) (Range headerIndex 1 1 (lastColumn g)) !!! 0) in *.
  clearbody headers. rewrite length_fmap, Hlen.
  do 2 wp_step; [|by left]. do 2 wp_step. wp_step; [|by left].
  unfold keepsValue. rewrite !(cellAt_setValues _ _ _ _ _ _ _ _ H1).
  destruct (decide (startIndex ≤ r < startIndex + length array ∧ 1 ≤ c < 1 + lastColumn g))
    as [[Hr Hc]|Hout]; [|by left].
  right. do 2 f_equal.
  rewrite lookup_total_zip_with by (rewrite ?length_readBlock; simpl; lia).
  unfold overlayLine.
  rewrite lookup_total_zip_with
    by (rewrite ?readBlock_row_length by (simpl; lia); simpl; lia).
  rewrite readBlock_cell by (simpl; lia). cbn [rRow rCol].
  replace (startIndex + (r - startIndex)) with r by lia.
  replace (1 + (c - 1)) with c by lia.
  destruct (hasOwnProperty (array !!! (r - startIndex)) (headers !!! (c - 1))) eqn:Eh; [|done].
  exfalso. apply Hns. unfold supplied.
  destruct (lookup_lt_is_Some_2 array (r - startIndex) ltac:(lia)) as [obj Hobj].
  exists (r - startIndex), obj. split; [done|]. split; [lia|]. split; [lia|].
  rewrite (list_lookup_total_correct _ _ _ Hobj) in Eh.
  rewrite Hhdr in Eh by lia. by replace (1 + (c - 1)) with c in Eh by lia.
Qed.

Lemma cellAt_Formula_or_Lit (g : grid) (r c : nat) :
  (formulaAt g r c ≠ "" ∧ cellAt g r c = Formula (formulaAt g r c))
  ∨ (formulaAt g r c = "" ∧ cellAt g r c = stored (Lit (valueAt g r c))).
Proof.
  unfold formulaAt, valueAt. pose proof (cellAt_stored g r c) as Hs.
  destruct (cellAt g r c) as [v|f] eqn:E.
  - right. done.
  - left. split; [|done]. intros ->. done.
Qed.

Lemma overlayNormal_preserve (array : list record) (headerIndex startIndex : nat)
    (options : writeOptions) (g : grid) (r c : nat) :
  mode options = "overlay" → preserveFormulas options = true →
  ¬ supplied false array headerIndex startIndex g r c →
  cellAt (sheetAfter (writeNormal array headerIndex startIndex options) g) r c
  = cellAt g r c.
Proof.
  intros Hmode Hpres Hns.
  apply (post_sheetAfter _ _ (λ g', cellAt g' r c = cellAt g r c)).
  unfold writeNormal. rewrite Hmode, Hpres.
  rewrite !bool_decide_eq_false_2 by done. rewrite bool_decide_eq_true_2 by done.
  cbn [negb].
  do 4 wp_step; [|done]. do 2 wp_step.
  pose proof (header_at g headerIndex) as Hhdr.
  pose proof (length_headers g headerIndex (lastColumn g)) as Hlen.
  set (headers := readBlock (valueAt g) (Range headerIndex 1 1 (lastColumn g)) !!! 0) in *.
  clearbody headers. rewrite Hlen.
  apply post_forEach; [done|]. intros [i obj] g' Hin%elem_of_indexed Hinv.
  do 2 wp_step; [|done]. do 4 wp_step.
  apply post_bind. apply post_setValues; [intros Hrect | done]. cbn [rRow rCol rRows rCols] in *.
  set (values := readBlock (valueAt g') (Range (startIndex + i) 1 1 (lastColumn g)) !!! 0) in *.
  set (formulas := readBlock (formulaAt g') (Range (startIndex + i) 1 1 (lastColumn g)) !!! 0).
  assert (∀ j, j < lastColumn g → values !!! j = valueAt g' (startIndex + i) (j + 1)) as Hval.
  { intros j Hj. subst values. rewrite readBlock_cell by (simpl; lia). cbn [rRow rCol].
    rewrite Nat.add_0_r. by replace (1 + j) with (j + 1) by lia. }
  assert (∀ j, j < lastColumn g → formulas !!! j = formulaAt g' (startIndex + i) (j + 1))
    as Hfml.
  { intros j Hj. subst formulas. rewrite readBlock_cell by (simpl; lia). cbn [rRow rCol].
    rewrite Nat.add_0_r. by replace (1 + j) with (j + 1) by lia. }
  assert (length values = lastColumn g) as Hlenv
    by (subst values; by rewrite readBlock_row_length by (simpl; lia)).
  clearbody values formulas.
  rewrite <- Hinv.
  eapply post_mono.
  - apply (replayLoop_spec _
       (λ j, negb (hasOwnProperty obj (headers !!! j))
             && negb (bool_decide (formulas !!! j = "")))
       (λ _, startIndex + i) (λ j, j + 1) (λ j, formulas !!! j)
       _ r c (cellAt g' r c)).
    + intros j _. unfold validRange in *. lia.
    + intros j Hj [_ Hc%negb_true_iff%bool_decide_eq_false]%andb_true_iff <- <-.
      rewrite Hfml in * by done.
      destruct (cellAt_Formula_or_Lit g' (startIndex + i) (j + 1)) as [[_ ->]|[? _]]; [|done].
      apply stored_nonblank. simpl. by apply bool_decide_eq_false.
    + destruct (decide (r = startIndex + i ∧ 1 ≤ c ≤ lastColumn g)) as [[-> Hc]|Hout].
      * assert (hasOwnProperty obj (headers !!! (c - 1)) = false) as Hno.
        { destruct (hasOwnProperty obj (headers !!! (c - 1))) eqn:Eh; [|done].
          exfalso. apply Hns. exists i, obj. split; [done|]. split; [done|]. split; [done|].
          rewrite Hhdr in Eh by lia. by replace (1 + (c - 1)) with c in Eh by lia. }
        destruct (cellAt_Formula_or_Lit g' (startIndex + i) c) as [[Hf _]|[Hf Hlit]].
        -- left. exists (c - 1). split; [lia|]. split; [|by split; [|lia]].
           rewrite Hno, Hfml by lia. replace (c - 1 + 1) with c by lia.
           by apply andb_true_iff; split; [|apply negb_true_iff, bool_decide_eq_false].
        -- right. rewrite (cellAt_setValues _ _ _ _ _ _ _ _ Hrect).
           rewrite decide_True by lia. rewrite Hlit. do 2 f_equal.
           replace (startIndex + i - (startIndex + i)) with 0 by lia. simpl.
           unfold overlayLine.
           rewrite lookup_total_zip_with by lia.
           rewrite Hno, Hval by lia. by replace (c - 1 + 1) with c by lia.
      * right. rewrite (cellAt_setValues _ _ _ _ _ _ _ _ Hrect).
        rewrite decide_False by lia. done.
  - intros o g'' [_ ?]. done.
Qed.

Lemma properties_at (g : grid) (headerIndex : nat) :
  let properties := (λ row : list value, row !!! 0)
                      <$> readBlock (valueAt g) (Range 1 headerIndex (lastRow g) 1) in
  length properties = lastRow g
  ∧ ∀ k, k < lastRow g → properties !!! k = valueAt g (k + 1) headerIndex.
Proof.
  cbn zeta. split; [by rewrite length_fmap, length_readBlock|].
  intros k Hk.
  rewrite (list_lookup_total_fmap (λ row : list value, row !!! 0))
    by (rewrite length_readBlock; simpl; lia).
  rewrite readBlock_cell by (simpl; lia). cbn [rRow rCol].
  rewrite Nat.add_0_r. by replace (1 + k) with (k + 1) by lia.
Qed.

Lemma overlayPivot_batch (array : list record) (headerIndex startIndex : nat)
    (options : writeOptions) (g : grid) (r c : nat) :
  mode options = "overlay" → preserveFormulas options = false →
  ¬ supplied true array headerIndex startIndex g r c →
  keepsValue g (sheetAfter (writePivot array headerIndex startIndex options) g) r c.
Proof.
  intros Hmode Hpres Hns.
  apply (post_sheetAfter _ _ (λ g', keepsValue g g' r c)).
  unfold writePivot. rewrite Hmode, Hpres.
  rewrite !bool_decide_eq_false_2 by done. rewrite bool_decide_eq_true_2 by done.
  cbn [negb].
  do 4 wp_step; [|by left]. do 2 wp_step.
  destruct (properties_at g headerIndex) as [Hlen Hprop].
  set (properties := (λ row : list value, row !!! 0) <$> _) in *.
  clearbody properties. rewrite Hlen.
  do 2 wp_step; [|by left]. do 2 wp_step. wp_step; [|by left].
  unfold keepsValue. rewrite !(cellAt_setValues _ _ _ _ _ _ _ _ H1).
  destruct (decide (1 ≤ r < 1 + lastRow g ∧ startIndex ≤ c < startIndex + length array))
    as [[Hr Hc]|Hout]; [|by left].
  right. do 2 f_equal.
  rewrite lookup_total_zip_with by (rewrite ?length_readBlock; simpl; lia).
  rewrite lookup_total_zip_with
    by (rewrite ?readBlock_row_length by (simpl; lia); simpl; lia).
  rewrite readBlock_cell by (simpl; lia). cbn [rRow rCol].
  replace (1 + (r - 1)) with r by lia.
  replace (startIndex + (c - startIndex)) with c by lia.
  destruct (hasOwnProperty (array !!! (c - startIndex)) (properties !!! (r - 1))) eqn:Eh;
    [|done].
  exfalso. apply Hns. unfold supplied.
  destruct (lookup_lt_is_Some_2 array (c - startIndex) ltac:(lia)) as [obj Hobj].
  exists (c - startIndex), obj. split; [done|]. split; [lia|]. split; [lia|].
  rewrite (list_lookup_total_correct _ _ _ Hobj) in Eh.
  rewrite Hprop in Eh by lia. by replace (r - 1 + 1) with r in Eh by lia.
Qed.

Lemma overlayPivot_preserve (array : list record) (headerIndex startIndex : nat)
    (options : writeOptions) (g : grid) (r c : nat) :
  mode options = "overlay" → preserveFormulas options = true →
  ¬ supplied true array headerIndex startIndex g r c →
  cellAt (sheetAfter (writePivot array headerIndex startIndex options) g) r c
  = cellAt g r c.
Proof.
  intros Hmode Hpres Hns.
  apply (post_sheetAfter _ _ (λ g', cellAt g' r c = cellAt g r c)).
  unfold writePivot. rewrite Hmode, Hpres.
  rewrite !bool_decide_eq_false_2 by done. rewrite bool_decide_eq_true_2 by done.
  cbn [negb].
  do 4 wp_step; [|done]. do 2 wp_step.
  destruct (properties_at g headerIndex) as [Hlen Hprop].
  set (properties := (λ row : list value, row !!! 0) <$> _) in *.
  clearbody properties. rewrite Hlen.
  apply post_forEach; [done|]. intros [i obj] g' Hin%elem_of_indexed Hinv.
  do 2 wp_step; [|done]. do 4 wp_step.
  apply post_bind. apply post_setValues; [intros Hrect | done].
  cbn [rRow rCol rRows rCols] in *.
  set (values := readBlock (valueAt g') (Range 1 (startIndex + i) (lastRow g) 1)) in *.
  set (formulas := readBlock (formulaAt g') (Range 1 (startIndex + i) (lastRow g) 1)).
  assert (∀ k, k < lastRow g → values !!! k = [valueAt g' (k + 1) (startIndex + i)]) as Hval.
  { intros k Hk. subst values. rewrite readBlock_row by (simpl; lia). cbn [rRow rCol rCols].
    simpl. rewrite Nat.add_0_r. by replace (S k) with (k + 1) by lia. }
  assert (∀ k, k < lastRow g →
            (formulas !!! k) !!! 0 = formulaAt g' (k + 1) (startIndex + i)) as Hfml.
  { intros k Hk. subst formulas. rewrite readBlock_cell by (simpl; lia). cbn [rRow rCol].
    rewrite Nat.add_0_r. by replace (1 + k) with (k + 1) by lia. }
  assert (length values = lastRow g) as Hlenv
    by (subst values; by rewrite length_readBlock).
  clearbody values formulas.
  rewrite <- Hinv.
  eapply post_mono.
  - apply (replayLoop_spec _
       (λ k, negb (hasOwnProperty obj (properties !!! k))
             && negb (bool_decide ((formulas !!! k) !!! 0 = "")))
       (λ k, k + 1) (λ _, startIndex + i) (λ k, (formulas !!! k) !!! 0)
       _ r c (cellAt g' r c)).
    + intros k _. unfold validRange in *. lia.
    + intros k Hk [_ Hc%negb_true_iff%bool_decide_eq_false]%andb_true_iff <- <-.
      rewrite Hfml in * by done.
      destruct (cellAt_Formula_or_Lit g' (k + 1) (startIndex + i)) as [[_ ->]|[? _]]; [|done].
      apply stored_nonblank. simpl. by apply bool_decide_eq_false.
    + destruct (decide (c = startIndex + i ∧ 1 ≤ r ≤ lastRow g)) as [[-> Hr]|Hout].
      * assert (hasOwnProperty obj (properties !!! (r - 1)) = false) as Hno.
        { destruct (hasOwnProperty obj (properties !!! (r - 1))) eqn:Eh; [|done].
          exfalso. apply Hns. exists i, obj. split; [done|]. split; [done|]. split; [done|].
          rewrite Hprop in Eh by lia. by replace (r - 1 + 1) with r in Eh by lia. }
        destruct (cellAt_Formula_or_Lit g' r (startIndex + i)) as [[Hf _]|[Hf Hlit]].
        -- left. exists (r - 1). split; [lia|]. split; [|by split; [lia|]].
           rewrite Hno, Hfml by lia. replace (r - 1 + 1) with r by lia.
           by apply andb_true_iff; split; [|apply negb_true_iff, bool_decide_eq_false].
        -- right. rewrite (cellAt_setValues _ _ _ _ _ _ _ _ Hrect).
           rewrite decide_True by lia. rewrite Hlit. do 2 f_equal.
           replace (startIndex + i - (startIndex + i)) with 0 by lia.
           rewrite lookup_total_zip_with by lia.
           rewrite Hno, Hval by lia. simpl. by replace (r - 1 + 1) with r by lia.
      * right. rewrite (cellAt_setValues _ _ _ _ _ _ _ _ Hrect).
        rewrite decide_False by lia. done.
  - intros o g'' [_ ?]. done.
Qed.

(** C5: an overlay write changes no cell whose field its record omits.
    Such a cell still shows the value it showed before; with
    preserve-formulas enabled it is exactly as before, formula included.
    Only the cells whose field a record supplies are overwritten. *)
Theorem overlay_keeps_unsupplied (array : list record) (headerIndex startIndex : nat)
    (options : writeOptions) (g : grid) (r c : nat) :
  mode options = "overlay" →
  ¬ supplied (pivot options) array headerIndex startIndex g r c →
  let g' := sheetAfter (objectsToSheetV2 array headerIndex startIndex options) g in
  keepsValue g g' r c
  ∧ (preserveFormulas options = true → cellAt g' r c = cellAt g r c).
Proof.
  intros Hmode Hns. cbn zeta. unfold objectsToSheetV2.
  destruct (pivot options), (preserveFormulas options) eqn:Hp; simpl.
  - pose proof (overlayPivot_preserve _ _ _ _ _ _ _ Hmode Hp Hns) as E.
    split; [by left | done].
  - split; [by apply overlayPivot_batch | done].
  - pose proof (overlayNormal_preserve _ _ _ _ _ _ _ Hmode Hp Hns) as E.
    split; [by left | done].
  - split; [by apply overlayNormal_batch | done].
Qed.

(** ** Empty results of the decoder *)

Lemma post_resultOf {A : Type} (m : Script A) (g : grid) (Q : outcome A → Prop) :
  post m g (λ o _, Q o) → Q (resultOf m g).
Proof. done. Qed.

Lemma decodeLines_blank (headers : list value) (data : list (list value))
    (displayData : option (list (list string))) :
  (∀ row, row ∈ data → existsb neStr row = false) →
  decodeLines headers data displayData = DEmpty emptyMessage [].
Proof.
  intros Hblank. unfold decodeLines.
  replace (filter (λ row, existsb neStr row = true) data) with (@nil (list value)); [done|].
  symmetry. induction data as [|row data IH]; [done|].
  rewrite filter_cons. rewrite decide_False.
  - apply IH. intros ? ?. apply Hblank. by right.
  - rewrite Hblank; [done | by left].
Qed.

Lemma decodeLines_not_nil (headers : list value) (data : list (list value))
    (displayData : option (list (list string))) :
  decodeLines headers data displayData ≠ DRecords [].
Proof.
  unfold decodeLines. case_bool_decide as Hlen; [done|].
  intros [= E]. apply fmap_nil_inv in E. unfold indexed in E.
  destruct (filter _ data); [done|]. done.
Qed.

Lemma existsb_neStr_blank (row : list value) :
  (∀ v, v ∈ row → v = VStr "") → existsb neStr row = false.
Proof.
  intros Hall. destruct (existsb neStr row) eqn:E; [|done].
  apply existsb_exists in E as (v & Hin%list_elem_of_In & Hv).
  rewrite (Hall v Hin) in Hv. done.
Qed.

Lemma decode_normal_blank (headerIndex startIndex : nat) (options : readOptions) (g : grid) :
  readPivot options = false →
  1 ≤ headerIndex → 1 ≤ startIndex ≤ lastRow g →
  extentBlank false startIndex g →
  resultOf (sheetToObjectsV2 headerIndex startIndex options) g
  = Returned (DEmpty emptyMessage []).
Proof.
  intros Hp Hh Hs Hblank.
  assert (1 ≤ lastColumn g) by (apply lastRow_lastColumn_pos; lia).
  apply (post_resultOf _ _ (λ o, o = Returned (DEmpty emptyMessage []))).
  unfold sheetToObjectsV2. rewrite Hp. cbn [negb].
  do 4 wp_step; [|exfalso; unfold validRange in *; lia]. do 4 wp_step.
  rewrite length_headers.
  destruct (lastRow g <? startIndex) eqn:E; [apply Nat.ltb_lt in E; lia|].
  do 2 wp_step; [|exfalso; unfold validRange in *; lia]. do 2 wp_step.
  assert (∀ row, row ∈ readBlock (valueAt g)
            (Range startIndex 1 (lastRow g - startIndex + 1) (lastColumn g)) →
          existsb neStr row = false) as Hrows.
  { intros row (i & Hi)%list_elem_of_lookup.
    pose proof (lookup_lt_Some _ _ _ Hi) as Hlt. rewrite length_readBlock in Hlt.
    cbn [rRows] in Hlt.
    apply list_lookup_total_correct in Hi. rewrite readBlock_row in Hi by (simpl; lia).
    subst row. apply existsb_neStr_blank. intros v (j & -> & Hj%elem_of_seq)%list_elem_of_fmap.
    cbn [rRow rCol rCols] in *. apply Hblank; lia. }
  wp_step; repeat wp_step; by rewrite decodeLines_blank.
Qed.

Lemma decode_pivot_blank (headerIndex startIndex : nat) (options : readOptions) (g : grid) :
  readPivot options = true →
  1 ≤ headerIndex → 1 ≤ startIndex ≤ lastColumn g →
  extentBlank true startIndex g →
  resultOf (sheetToObjectsV2 headerIndex startIndex options) g
  = Returned (DEmpty emptyMessage []).
Proof.
  intros Hp Hh Hs Hblank.
  assert (1 ≤ lastRow g) by (apply lastRow_lastColumn_pos; lia).
  apply (post_resultOf _ _ (λ o, o = Returned (DEmpty emptyMessage []))).
  unfold sheetToObjectsV2. rewrite Hp. cbn [negb].
  do 4 wp_step; [|exfalso; unfold validRange in *; lia]. do 6 wp_step.
  do 2 wp_step; [|exfalso; unfold validRange in *; lia]. do 2 wp_step.
  set (rg := Range 1 startIndex (lastRow g) (lastColumn g + 1 - startIndex)).
  assert (∀ row, row ∈ transpose (readBlock (valueAt g) rg) →
          existsb neStr row = false) as Hrows.
  { intros row (colIndex & -> & Hc%elem_of_seq)%list_elem_of_fmap.
    rewrite readBlock_row_length in Hc by (simpl; lia). cbn [rCols rg] in Hc.
    apply existsb_neStr_blank. intros v (line & -> & (i & Hi)%list_elem_of_lookup)%list_elem_of_fmap.
    pose proof (lookup_lt_Some _ _ _ Hi) as Hlt. rewrite length_readBlock in Hlt.
    cbn [rRows rg] in Hlt.
    apply list_lookup_total_correct in Hi. subst line.
    rewrite readBlock_cell by (simpl; lia). cbn [rRow rCol rg]. apply Hblank; lia. }
  wp_step; repeat wp_step; try (exfalso; unfold validRange in *; lia);
    by rewrite decodeLines_blank.
Qed.

Lemma decode_normal_null (headerIndex startIndex : nat) (options : readOptions) (g : grid) :
  readPivot options = false →
  1 ≤ headerIndex → 1 ≤ lastColumn g → lastRow g < startIndex →
  resultOf (sheetToObjectsV2 headerIndex startIndex options) g = Returned DNull.
Proof.
  intros Hp Hh Hc Hs.
  apply (post_resultOf _ _ (λ o, o = Returned DNull)).
  unfold sheetToObjectsV2. rewrite Hp. cbn [negb].
  do 4 wp_step; [|exfalso; unfold validRange in *; lia]. do 4 wp_step.
  apply Nat.ltb_lt in Hs. rewrite Hs. by wp_step.
Qed.

Lemma decode_never_nil (headerIndex startIndex : nat) (options : readOptions) (g : grid) :
  resultOf (sheetToObjectsV2 headerIndex startIndex options) g ≠ Returned (DRecords []).
Proof.
  apply (post_resultOf _ _ (λ o, o ≠ Returned (DRecords []))).
  unfold sheetToObjectsV2.
  repeat wp_step; try done; intros [= E]; by apply decodeLines_not_nil in E.
Qed.

(** C7, as the code has it: a decode that reads the block and finds
    every line of the extent blank returns the tagged empty result, in
    either orientation; a normal-orientation decode whose extent ends
    before the start line returns [null]; and no decode returns a plain
    empty list. *)
Theorem decode_empty_results (headerIndex startIndex : nat) (options : readOptions)
    (g : grid) :
  1 ≤ headerIndex → 1 ≤ lastRow g →
  let result := resultOf (sheetToObjectsV2 headerIndex startIndex options) g in
  (1 ≤ startIndex ≤ (if readPivot options then lastColumn g else lastRow g) →
   extentBlank (readPivot options) startIndex g →
   result = Returned (DEmpty emptyMessage []))
  ∧ (readPivot options = false → lastRow g < startIndex → result = Returned DNull)
  ∧ result ≠ Returned (DRecords []).
Proof.
  intros Hh Hr. cbn zeta. split_and!.
  - intros Hs Hblank. destruct (readPivot options) eqn:Hp.
    + by apply decode_pivot_blank.
    + by apply decode_normal_blank.
  - intros Hp Hs. apply decode_normal_null; [done..| |done].
    by apply lastRow_lastColumn_pos.
  - apply decode_never_nil.
Qed.

(** ** Sheets without formulas *)

Lemma literalOnly_cellAt (g : grid) (r c : nat) :
  literalOnly g → cellAt g r c = Lit (valueAt g r c).
Proof.
  intros Hlit. unfold valueAt, cellAt.
  destruct (g !! (r, c)) as [x|] eqn:E; [|done].
  pose proof (Hlit _ _ E) as Hx. destruct x as [v|]; [|done].
  unfold stored. by destruct (blankContent (Lit v)).
Qed.

Lemma literalOnly_nonEmpty (g : grid) (r c : nat) :
  literalOnly g → nonEmpty (valueAt g r c) = negb (blankContent (cellAt g r c)).
Proof.
  intros Hlit. rewrite (literalOnly_cellAt g r c Hlit). simpl.
  unfold blankValue. by rewrite negb_involutive.
Qed.

Lemma literalOnly_neStr (g : grid) (r c : nat) :
  literalOnly g → neStr (valueAt g r c) = negb (blankContent (cellAt g r c)).
Proof.
  intros Hlit. rewrite <- literalOnly_nonEmpty by done.
  pose proof (literalOnly_cellAt g r c Hlit) as E.
  pose proof (cellAt_stored g r c) as Hs. rewrite E in Hs.
  unfold stored in Hs. simpl in Hs. unfold blankValue, nonEmpty in *.
  destruct (neStr (valueAt g r c)) eqn:En; [|done]. simpl in *.
  destruct (valueAt g r c); try done.
Qed.

Lemma literalOnly_setCell (g : grid) (r c : nat) (v : value) :
  literalOnly g → literalOnly (setCell r c (Lit v) g).
Proof.
  intros Hlit. unfold setCell. destruct (blankContent (Lit v)).
  - by apply map_Forall_delete.
  - by apply map_Forall_insert_2.
Qed.

Lemma literalOnly_writeRow (xs : list value) : ∀ (g : grid) (r c : nat),
  literalOnly g → literalOnly (writeRow r c (Lit <$> xs) g).
Proof.
  induction xs as [|x xs IH]; intros g r c Hlit; simpl; [done|].
  apply IH. by apply literalOnly_setCell.
Qed.

Lemma literalOnly_writeRows (m : list (list value)) : ∀ (g : grid) (r c : nat),
  literalOnly g → literalOnly (writeRows r c ((λ row : list value, Lit <$> row) <$> m) g).
Proof.
  induction m as [|xs m IH]; intros g r c Hlit; simpl; [done|].
  apply IH. by apply literalOnly_writeRow.
Qed.

(** ** The last populated line of a sheet without formulas *)

Lemma lastRow_unique (g : grid) (n : nat) :
  1 ≤ n →
  (∃ c, 1 ≤ c ∧ blankContent (cellAt g n c) = false) →
  (∀ r c, n < r → 1 ≤ c → cellAt g r c = Blank) →
  lastRow g = n.
Proof.
  intros Hn (c & Hc & Hocc) Hbeyond.
  pose proof (lastRow_ge g n c Hn Hc Hocc) as Hge.
  destruct (lastRow_reached g ltac:(lia)) as (c' & Hc' & Hocc').
  destruct (decide (n < lastRow g)); [|lia].
  rewrite Hbeyond in Hocc' by done. done.
Qed.

Lemma lastColumn_unique (g : grid) (n : nat) :
  1 ≤ n →
  (∃ r, 1 ≤ r ∧ blankContent (cellAt g r n) = false) →
  (∀ r c, n < c → 1 ≤ r → cellAt g r c = Blank) →
  lastColumn g = n.
Proof.
  intros Hn (r & Hr & Hocc) Hbeyond.
  pose proof (lastColumn_ge g r n Hr Hn Hocc) as Hge.
  destruct (lastColumn_reached g ltac:(lia)) as (r' & Hr' & Hocc').
  destruct (decide (n < lastColumn g)); [|lia].
  rewrite Hbeyond in Hocc' by done. done.
Qed.

Lemma lastNonEmptyRow_literal (g : grid) :
  literalOnly g → 1 ≤ lastRow g → lastNonEmptyRow g = lastRow g.
Proof.
  intros Hlit Hpos. apply Nat.le_antisymm.
  - unfold lastNonEmptyRow. cbn zeta. rewrite length_readBlock. cbn [rRows dataRangeOf].
    pose proof (scanRows_bounds (readBlock (valueAt g) (dataRangeOf g)) (lastRow g `max` 1)).
    unfold dataRangeOf in *. lia.
  - destruct (lastRow_reached g Hpos) as (c & Hc & Hocc).
    apply (lastNonEmptyRow_ge g _ c); [done..|].
    rewrite literalOnly_nonEmpty by done. by rewrite Hocc.
Qed.

Lemma scanColumns_first (data : list (list value)) (nrows startCol k : nat) :
  1 ≤ k → startCol ≤ k →
  existsb (λ row, neStr ((data !!! row) !!! (k - 1))) (seq 0 nrows) = true →
  scanColumns data nrows startCol k = k.
Proof.
  intros Hk Hs Hex. destruct k as [|k]; [lia|]. simpl.
  replace (S k - 1) with k in Hex by lia. rewrite Hex.
  destruct (startCol - 1 <=? k) eqn:E; [lia|]. apply Nat.leb_gt in E. lia.
Qed.

Lemma scanColumns_short (data : list (list value)) (nrows startCol k : nat) :
  k < startCol → scanColumns data nrows startCol k = startCol.
Proof.
  intros Hs. destruct k as [|k]; [done|]. simpl.
  destruct (startCol - 1 <=? k) eqn:E; [|done]. apply Nat.leb_le in E. lia.
Qed.

Lemma lastNonEmptyColumn_literal (startCol : nat) (g : grid) :
  literalOnly g → lastNonEmptyColumn startCol g = startCol `max` lastColumn g.
Proof.
  intros Hlit. unfold lastNonEmptyColumn.
  destruct (bool_decide (lastColumn g = 0) || bool_decide (lastRow g = 0)) eqn:E.
  - apply orb_true_iff in E as [E%bool_decide_eq_true|E%bool_decide_eq_true]; [lia|].
    destruct (decide (1 ≤ lastColumn g)) as [Hc|]; [|lia].
    apply lastRow_lastColumn_pos in Hc. lia.
  - apply orb_false_iff in E as [E1%bool_decide_eq_false E2%bool_decide_eq_false].
    destruct (decide (lastColumn g < startCol)).
    + rewrite scanColumns_short by done. lia.
    + rewrite scanColumns_first; [lia | lia | lia |].
      destruct (lastColumn_reached g ltac:(lia)) as (r & Hr & Hocc).
      pose proof (lastRow_ge g r (lastColumn g) Hr ltac:(lia) Hocc).
      apply existsb_exists. exists (r - 1). split.
      * apply list_elem_of_In, elem_of_seq. lia.
      * rewrite readBlock_cell by (simpl; lia). cbn [rRow rCol].
        replace (1 + (r - 1)) with r by lia.
        replace (1 + (lastColumn g - 1)) with (lastColumn g) by lia.
        rewrite literalOnly_neStr by done. by rewrite Hocc.
Qed.

(** ** Append *)

Lemma appendNormal_frame (array : list record) (headerIndex startIndex : nat)
    (options : writeOptions) (g : grid) (r c : nat) :
  mode options = "append" → r ≤ lastNonEmptyRow g →
  cellAt (sheetAfter (writeNormal array headerIndex startIndex options) g) r c
  = cellAt g r c.
Proof.
  intros Hmode Hr.
  apply (post_sheetAfter _ _ (λ g', cellAt g' r c = cellAt g r c)).
  unfold writeNormal. rewrite Hmode.
  rewrite !bool_decide_eq_false_2 by done. rewrite bool_decide_eq_true_2 by done.
  wp_frame.
Qed.

Lemma appendPivot_frame (array : list record) (headerIndex startIndex : nat)
    (options : writeOptions) (g : grid) (r c : nat) :
  mode options = "append" → c ≤ lastNonEmptyColumn startIndex g →
  cellAt (sheetAfter (writePivot array headerIndex startIndex options) g) r c
  = cellAt g r c.
Proof.
  intros Hmode Hc.
  apply (post_sheetAfter _ _ (λ g', cellAt g' r c = cellAt g r c)).
  unfold writePivot. rewrite Hmode. rewrite bool_decide_eq_true_2 by done.
  wp_frame.
Qed.

Lemma last_lookup_total {A : Type} `{!Inhabited A} (l : list A) (x : A) :
  last l = Some x → 1 ≤ length l ∧ l !!! (length l - 1) = x.
Proof.
  rewrite last_lookup. intros E. pose proof (lookup_lt_Some _ _ _ E).
  split; [lia|]. apply list_lookup_total_correct.
  by replace (length l - 1) with (pred (length l)) by lia.
Qed.

Lemma appendNormal_grows (array : list record) (headerIndex startIndex : nat)
    (options : writeOptions) (g : grid) (lastRec : record) :
  mode options = "append" → literalOnly g → 1 ≤ headerIndex → 1 ≤ lastRow g →
  last array = Some lastRec → encodesNonBlank false headerIndex g lastRec →
  lastNonEmptyRow (sheetAfter (writeNormal array headerIndex startIndex options) g)
  = lastNonEmptyRow g + length array.
Proof.
  intros Hmode Hlit Hh Hrow [Hn Hlast]%last_lookup_total (k & Hk & Hv).
  unfold valueOn, lineCell in Hv. cbn [fst snd] in Hv.
  assert (1 ≤ lastColumn g) by (by apply lastRow_lastColumn_pos).
  rewrite (lastNonEmptyRow_literal g) by done.
  apply (post_sheetAfter _ _ (λ g', lastNonEmptyRow g' = lastRow g + length array)).
  unfold writeNormal. rewrite Hmode.
  rewrite !bool_decide_eq_false_2 by done. rewrite bool_decide_eq_true_2 by done.
  do 4 wp_step; [|exfalso; unfold validRange in *; lia]. do 4 wp_step.
  rewrite (lastNonEmptyRow_literal g) by done.
  pose proof (header_at g headerIndex) as Hhdr.
  pose proof (length_headers g headerIndex (lastColumn g)) as Hlen.
  set (headers := readBlock (valueAt g) (Range headerIndex 1 1 (lastColumn g)) !!! 0) in *.
  clearbody headers. rewrite length_fmap, Hlen.
  wp_step; [|apply Nat.ltb_ge in H1; lia].
  do 2 wp_step; [|exfalso; unfold validRange in *; lia].
  wp_step; [|exfalso; rewrite <- Hlen, <- (length_fmap (λ obj, fieldOrEmpty obj <$> headers)) in H3;
             by rewrite length_encoded in H3].
  set (g' := writeRows _ _ _ g).
  assert (literalOnly g') as Hlit' by (by apply literalOnly_writeRows).
  assert (lastRow g' = lastRow g + length array) as Hlast'.
  { apply lastRow_unique; [lia | |].
    - exists k. split; [lia|]. subst g'.
      rewrite (cellAt_setValues _ _ _ _ _ _ _ _ H3). rewrite decide_True by lia.
      rewrite blankContent_stored. simpl. unfold blankValue.
      replace (lastRow g + length array - (lastRow g + 1)) with (length array - 1) by lia.
      rewrite (list_lookup_total_fmap (λ obj, fieldOrEmpty obj <$> headers)) by lia.
      rewrite Hlast. rewrite (list_lookup_total_fmap (fieldOrEmpty lastRec)) by lia.
      rewrite Hhdr by lia. replace (1 + (k - 1)) with k by lia. by rewrite Hv.
    - intros r c Hr Hc. subst g'.
      rewrite (cellAt_setValues _ _ _ _ _ _ _ _ H3). rewrite decide_False by lia.
      apply cellAt_beyond; [lia | done | lia]. }
  rewrite lastNonEmptyRow_literal by (done || lia). done.
Qed.

Lemma appendPivot_grows (array : list record) (headerIndex startIndex : nat)
    (options : writeOptions) (g : grid) (lastRec : record) :
  mode options = "append" → literalOnly g → 1 ≤ headerIndex → 1 ≤ lastRow g →
  last array = Some lastRec → encodesNonBlank true headerIndex g lastRec →
  lastNonEmptyColumn startIndex
    (sheetAfter (writePivot array headerIndex startIndex options) g)
  = lastNonEmptyColumn startIndex g + length array.
Proof.
  intros Hmode Hlit Hh Hrow [Hn Hlast]%last_lookup_total (k & Hk & Hv).
  unfold valueOn, lineCell in Hv. cbn [fst snd] in Hv.
  rewrite (lastNonEmptyColumn_literal startIndex g) by done.
  apply (post_sheetAfter _ _
    (λ g', lastNonEmptyColumn startIndex g' = startIndex `max` lastColumn g + length array)).
  unfold writePivot. rewrite Hmode. rewrite bool_decide_eq_true_2 by done.
  do 4 wp_step; [|exfalso; unfold validRange in *; lia]. do 4 wp_step.
  rewrite (lastNonEmptyColumn_literal startIndex g) by done.
  destruct (properties_at g headerIndex) as [Hlen Hprop].
  set (properties := (λ row : list value, row !!! 0) <$> _) in *.
  clearbody properties.
  do 2 wp_step; [|exfalso; unfold validRange in *; lia].
  wp_step.
  2:{ exfalso. rewrite rectangular_fmap in H1; [done|].
      intros p. by rewrite length_fmap. }
  set (base := startIndex `max` lastColumn g + 1) in *.
  set (g' := writeRows _ _ _ g).
  assert (literalOnly g') as Hlit' by (by apply literalOnly_writeRows).
  assert (lastColumn g' = base + length array - 1) as Hlast'.
  { apply lastColumn_unique; [lia | |].
    - exists k. split; [lia|]. subst g'.
      rewrite (cellAt_setValues _ _ _ _ _ _ _ _ H1). rewrite decide_True by lia.
      rewrite blankContent_stored. simpl. unfold blankValue.
      rewrite (list_lookup_total_fmap (λ p, (λ obj, fieldOrEmpty obj p) <$> array)) by lia.
      rewrite (list_lookup_total_fmap (λ obj, fieldOrEmpty obj (properties !!! (k - 1)))) by lia.
      replace (base + length array - 1 - base) with (length array - 1) by lia.
      rewrite Hlast, Hprop by lia. replace (k - 1 + 1) with k by lia. by rewrite Hv.
    - intros r c Hc Hr. subst g'.
      rewrite (cellAt_setValues _ _ _ _ _ _ _ _ H1). rewrite decide_False by lia.
      apply cellAt_beyond; [done | lia | lia]. }
  rewrite lastNonEmptyColumn_literal by done. lia.
Qed.

(** C9, as the code has it: an append never modifies a cell at or before
    the last populated line; and on a non-empty sheet without formulas,
    appending records of which the last one encodes to a non-blank line
    moves the last populated row (normal) or column (pivot) by exactly
    the number of records. *)
Theorem append_extends (array : list record) (headerIndex startIndex : nat)
    (options : writeOptions) (g : grid) :
  mode options = "append" →
  let pivoted := pivot options in
  let g' := sheetAfter (objectsToSheetV2 array headerIndex startIndex options) g in
  (∀ r c, lineOf pivoted r c ≤ lastPopulatedLine pivoted startIndex g →
          cellAt g' r c = cellAt g r c)
  ∧ (∀ lastRec,
       literalOnly g → 1 ≤ headerIndex → 1 ≤ lastRow g →
       last array = Some lastRec → encodesNonBlank pivoted headerIndex g lastRec →
       lastPopulatedLine pivoted startIndex g'
       = lastPopulatedLine pivoted startIndex g + length array).
Proof.
  intros Hmode. cbn zeta. unfold objectsToSheetV2, lastPopulatedLine, lineOf.
  destruct (pivot options); simpl; split.
  - intros r c Hc. by apply appendPivot_frame.
  - intros lastRec ? ? ? ? ?. by eapply appendPivot_grows.
  - intros r c Hr. by apply appendNormal_frame.
  - intros lastRec ? ? ? ? ?. by eapply appendNormal_grows.
Qed.

(** ** Overwrite clears the lines beyond the new data *)

Lemma restoreFormulas_miss (startIndex : nat) (formulas : list (list string))
    (g : grid) (r c : nat) :
  (startIndex ≤ r → 1 ≤ c → (formulas !!! (r - startIndex)) !!! (c - 1) = "") →
  post (restoreFormulas startIndex formulas) g (λ _ g', cellAt g' r c = cellAt g r c).
Proof.
  intros Hmiss. unfold restoreFormulas.
  apply post_forEach; [done|]. intros i g' _ Hinv.
  apply post_forEach; [done|]. intros j g'' _ Hinv'.
  repeat wp_step; try done.
  rewrite cellAt_fill.
  destruct (decide (startIndex + i ≤ r < startIndex + i + 1 ∧ j + 1 ≤ c < j + 1 + 1));
    [|done].
  exfalso. apply negb_true_iff, bool_decide_eq_false in Heqb. apply Heqb.
  rewrite <- Hmiss by lia.
  replace (r - startIndex) with i by lia. by replace (c - 1) with j by lia.
Qed.

Ltac rewrite_setValues :=
  match goal with
  | H : rectangular _ _ _ = true |- _ => rewrite !(cellAt_setValues _ _ _ _ _ _ _ _ H)
  end.

Ltac split_decides :=
  repeat match goal with
         | |- context [decide ?P] => destruct (decide P)
         end.

(** Cells of a sheet after block writes, by case analysis on the blocks. *)
Ltac bool_hyps :=
  repeat match goal with
         | H : (_ <=? _) = true |- _ => apply Nat.leb_le in H
         | H : (_ <=? _) = false |- _ => apply Nat.leb_gt in H
         | H : (_ <? _) = true |- _ => apply Nat.ltb_lt in H
         | H : (_ <? _) = false |- _ => apply Nat.ltb_ge in H
         end.

Ltac cell_solve :=
  unfold validRange in *; bool_hyps;
  try rewrite_setValues; rewrite ?cellAt_fill;
  split_decides; try lia; try done.

Ltac encoded_absurd :=
  exfalso;
  match goal with
  | H : rectangular _ _ _ = false |- _ => by rewrite length_encoded in H
  end.

(** C2, as the code has it, in normal orientation: after an overwrite
    every cell on a line beyond the new data is blank, unless formulas
    are preserved and the cell held a formula, which it then holds
    again. *)
Theorem overwrite_clears_beyond (array : list record) (headerIndex startIndex : nat)
    (options : writeOptions) (g : grid) (r c : nat) :
  mode options = "overwrite" → pivot options = false →
  1 ≤ headerIndex → 1 ≤ startIndex →
  startIndex + length array ≤ r → 1 ≤ c →
  cellAt (sheetAfter (objectsToSheetV2 array headerIndex startIndex options) g) r c
  = if preserveFormulas options then formulaOnly (cellAt g r c) else Blank.
Proof.
  intros Hmode Hpivot Hh Hs Hr Hc.
  apply (post_sheetAfter _ _ (λ g', cellAt g' r c
           = if preserveFormulas options then formulaOnly (cellAt g r c) else Blank)).
  assert (lastRow g < r ∨ lastColumn g < c → cellAt g r c = Blank) as Hb
    by (intros; by apply cellAt_beyond; [lia|..]).
  unfold objectsToSheetV2, writeNormal. rewrite Hpivot, Hmode. cbn [negb].
  rewrite bool_decide_eq_true_2 by done.
  do 4 wp_step.
  2:{ rewrite Hb; [by destruct (preserveFormulas options)|]. unfold validRange in *. lia. }
  do 2 wp_step.
  pose proof (length_headers g headerIndex (lastColumn g)) as Hlen.
  set (headers := readBlock (valueAt g) (Range headerIndex 1 1 (lastColumn g)) !!! 0) in *.
  clearbody headers.
  assert (length ((λ obj, fieldOrEmpty obj <$> headers) <$> array) = length array) as Hlena
    by (by rewrite length_fmap).
  do 2 wp_step. wp_step.
  - apply andb_true_iff in Heqb as [Hp Hl%Nat.leb_le]. rewrite Hp.
    do 2 wp_step; [|exfalso; unfold validRange in *; lia]. do 4 wp_step.
    apply (post_bind_ret (λ g', cellAt g' r c = Blank)).
    + repeat wp_step; try encoded_absurd.
      * split; [by eexists|]. cell_solve; apply Hb; lia.
      * exfalso. unfold validRange in *. apply Nat.ltb_lt in H1. lia.
      * split; [by eexists|]. cell_solve; apply Hb; lia.
    + intros _ g' Hg'.
      destruct (cellAt g r c) as [v|f] eqn:Ecell; simpl.
      * rewrite <- Hg'. apply restoreFormulas_miss. intros _ _.
        destruct (decide (r - startIndex < lastRow g - startIndex + 1
                          ∧ c - 1 < length headers)) as [[? ?]|Hn].
        -- rewrite readBlock_cell by (simpl; lia). cbn [rRow rCol].
           replace (startIndex + (r - startIndex)) with r by lia.
           replace (1 + (c - 1)) with c by lia. unfold formulaAt. by rewrite Ecell.
        -- destruct (decide (r - startIndex < lastRow g - startIndex + 1)).
           ++ rewrite readBlock_row by (simpl; lia). cbn [rRow rCol rCols].
              rewrite list_lookup_total_alt, lookup_ge_None_2; [done|].
              rewrite length_fmap, length_seq. lia.
           ++ rewrite (list_lookup_total_alt (readBlock _ _)), lookup_ge_None_2; [done|].
              rewrite length_readBlock. simpl. lia.
      * destruct (formulaAt_Formula _ _ _ _ Ecell) as [Hfa Hf].
        assert (blankContent (cellAt g r c) = false) as Hocc
          by (rewrite Ecell; simpl; by apply bool_decide_eq_false).
        pose proof (lastRow_ge g r c ltac:(lia) Hc Hocc).
        pose proof (lastColumn_ge g r c ltac:(lia) Hc Hocc).
        apply restoreFormulas_spec; [done | done | |].
        -- intros _. rewrite readBlock_cell by (simpl; lia). cbn [rRow rCol].
           replace (startIndex + (r - startIndex)) with r by lia.
           by replace (1 + (c - 1)) with c by lia.
        -- left. rewrite length_readBlock. cbn [rRows].
           rewrite readBlock_row_length by (simpl; lia). simpl. lia.
  - assert (cellAt g r c = Blank ∨ preserveFormulas options = false) as Hcase.
    { apply andb_false_iff in Heqb as [?|Hl%Nat.leb_gt]; [by right | left].
      apply Hb. lia. }
    assert ((if preserveFormulas options then formulaOnly (cellAt g r c) else Blank) = Blank)
      as ->.
    { destruct Hcase as [-> | ->]; [by destruct (preserveFormulas options) | done]. }
    repeat wp_step; try encoded_absurd; try (exfalso; unfold validRange in *; lia).
    all: cell_solve; apply Hb; lia.
Qed.

(** ** The data range as the scripts read it *)

Lemma length_sheetDataOf (g : grid) : length (sheetDataOf g) = lastRow g `max` 1.
Proof. unfold sheetDataOf. by rewrite length_readBlock. Qed.

Lemma length_headerRow (g : grid) : length (headerRow g) = lastColumn g `max` 1.
Proof.
  unfold headerRow, sheetDataOf. rewrite readBlock_row_length; [done | simpl; lia].
Qed.

Lemma sheetDataOf_cell (g : grid) (i k : nat) :
  i < lastRow g `max` 1 → k < lastColumn g `max` 1 →
  (sheetDataOf g !!! i) !!! k = valueAt g (i + 1) (k + 1).
Proof.
  intros Hi Hk. unfold sheetDataOf. rewrite readBlock_cell by (simpl; lia).
  cbn [rRow rCol dataRangeOf]. f_equal; lia.
Qed.

Lemma headerRow_cell (g : grid) (k : nat) :
  k < lastColumn g `max` 1 → headerRow g !!! k = valueAt g 1 (k + 1).
Proof. intros Hk. unfold headerRow. rewrite sheetDataOf_cell by lia. done. Qed.

(** ** Array search *)

Lemma indexOf_Some (l : list value) (x : value) (k : nat) :
  indexOf l x = Some k →
  k < length l ∧ sameValue (l !!! k) x = true.
Proof.
  revert k. induction l as [|y l IH]; intros k; simpl; [done|].
  destruct (sameValue y x) eqn:E.
  - intros [= <-]. split; [lia | done].
  - destruct (indexOf l x) as [k'|]; [|done]. simpl. intros [= <-].
    destruct (IH k' eq_refl). split; [lia | done].
Qed.

Lemma indexOf_lookup (l : list value) (x : value) (k : nat) :
  indexOf l x = Some k → isDate x = false ∧ l !!! k = x ∧ k < length l.
Proof.
  intros [Hk Hs]%indexOf_Some. pose proof (sameValue_eq _ _ Hs) as E.
  split; [|by split]. destruct x; try done. by rewrite sameValue_date_r in Hs.
Qed.

Lemma indexOf_inj (l : list value) (a b : string) (k : nat) :
  indexOf l (VStr a) = Some k → indexOf l (VStr b) = Some k → a = b.
Proof.
  intros (_ & Ha & _)%indexOf_lookup (_ & Hb & _)%indexOf_lookup. congruence.
Qed.

Lemma headerSetHas_indexOf (l : list value) (key : string) :
  headerSetHas l key = bool_decide (is_Some (indexOf l (VStr key))).
Proof.
  unfold headerSetHas. induction l as [|y l IH]; simpl; [done|].
  destruct (sameValue y (VStr key)); simpl; [done|].
  rewrite IH. by destruct (indexOf l (VStr key)).
Qed.

(** ** The update path as a sheet transformer *)

Lemma run_forEach {A : Type} (l : list A) (body : A → Script unit)
    (step : grid → A → grid) : ∀ g : grid,
  (∀ x (g' : grid), x ∈ l → body x g' = (Returned (), step g' x)) →
  forEach l body g = (Returned (), foldl step g l).
Proof.
  induction l as [|x l IH]; intros g Hbody; simpl; [done|].
  unfold mbind, script_bind. rewrite Hbody by (by left).
  apply IH. intros y g' Hy. apply Hbody. by right.
Qed.

Lemma run_writeField (headers : list value) (rowIndex : nat) (key : string) (val : value)
    (g : grid) :
  writeField headers rowIndex key val g
  = (Returned (), applyField headers rowIndex g (key, val)).
Proof.
  unfold writeField, applyField. rewrite headerSetHas_indexOf. cbn [fst snd].
  destruct (indexOf headers (VStr key)) as [colIndex|] eqn:E.
  - rewrite bool_decide_eq_true_2 by done.
    unfold mbind, script_bind, getCellRange, getRange.
    replace (1 <=? rowIndex + 1) with true by (symmetry; apply Nat.leb_le; lia).
    replace (1 <=? colIndex + 1) with true by (symmetry; apply Nat.leb_le; lia).
    done.
  - rewrite bool_decide_eq_false_2; [done|]. by intros [? ?].
Qed.

Lemma run_applyUpdates (headers : list value) (updates : list (nat * record)) (g : grid) :
  applyUpdates headers updates g = (Returned (), updatedSheet headers updates g).
Proof.
  unfold applyUpdates, updatedSheet. apply run_forEach.
  intros [rowIndex rowObject] g' _. unfold applyObject. cbn [fst snd].
  apply run_forEach. intros [key val] g'' _. apply run_writeField.
Qed.

Lemma cellAt_applyField (headers : list value) (rowIndex : nat) (g : grid)
    (key : string) (val : value) (r c : nat) :
  cellAt (applyField headers rowIndex g (key, val)) r c
  = if decide (r = rowIndex + 1 ∧ 1 ≤ c ∧ indexOf headers (VStr key) = Some (c - 1))
    then stored (Lit val) else cellAt g r c.
Proof.
  unfold applyField. cbn [fst snd].
  destruct (indexOf headers (VStr key)) as [colIndex|] eqn:E.
  - rewrite cellAt_setCell.
    destruct (decide (r = rowIndex + 1 ∧ c = colIndex + 1)) as [[-> ->]|Hne].
    + rewrite decide_True; [done|]. split; [done|]. split; [lia|]. f_equal. lia.
    + rewrite decide_False; [done|]. intros (-> & ? & [= ->]). apply Hne. split; [done | lia].
  - rewrite decide_False; [done|]. by intros (_ & _ & ?).
Qed.

Lemma hitOf_Some (headers : list value) (rowIndex : nat) (obj : record) (r c : nat)
    (v : value) :
  hitOf headers rowIndex obj r c = Some v ↔
  r = rowIndex + 1 ∧ 1 ≤ c
  ∧ ∃ key, indexOf headers (VStr key) = Some (c - 1) ∧ obj !! key = Some v.
Proof.
  unfold hitOf. split.
  - destruct (decide (r = rowIndex + 1 ∧ 1 ≤ c)) as [[-> Hc]|]; [|done].
    destruct (headers !! (c - 1)) as [[key| | | | |]|] eqn:Eh; try done.
    destruct (decide (indexOf headers (VStr key) = Some (c - 1))); [|done].
    intros Hv. split; [done|]. split; [done|]. by exists key.
  - intros (-> & Hc & key & Hk & Hv). rewrite decide_True by done.
    destruct (indexOf_lookup _ _ _ Hk) as (_ & Hl & Hlt).
    destruct (lookup_lt_is_Some_2 headers (c - 1) Hlt) as [y Hy].
    rewrite Hy. rewrite (list_lookup_total_correct _ _ _ Hy) in Hl. subst y.
    by rewrite decide_True.
Qed.

Lemma cellAt_applyFields (headers : list value) (rowIndex : nat) (r c : nat)
    (l : list (string * value)) : ∀ g : grid,
  NoDup l.*1 →
  cellAt (foldl (applyField headers rowIndex) g l) r c
  = match hitOf headers rowIndex (list_to_map l) r c with
    | Some v => stored (Lit v)
    | None => cellAt g r c
    end.
Proof.
  induction l as [|[key val] l IH]; intros g Hnd.
  - simpl. unfold hitOf. destruct (decide _); [|done].
    destruct (headers !! (c - 1)) as [[| | | | |]|]; try done.
    destruct (decide _); [|done]. by rewrite lookup_empty.
  - apply NoDup_cons in Hnd as [Hnotin Hnd]. simpl. rewrite IH by done.
    rewrite cellAt_applyField.
    destruct (hitOf headers rowIndex (list_to_map l) r c) as [v|] eqn:Eh.
    + apply hitOf_Some in Eh as (-> & Hc & key' & Hk' & Hv').
      assert (key' ≠ key) as Hne.
      { intros ->. apply Hnotin. apply list_elem_of_fmap.
        apply elem_of_list_to_map_2 in Hv'. by exists (key, v). }
      assert (hitOf headers rowIndex (<[key:=val]> (list_to_map l)) (rowIndex + 1) c
              = Some v) as ->; [|done].
      apply hitOf_Some. split; [done|]. split; [done|]. exists key'. split; [done|].
      by rewrite lookup_insert_ne.
    + destruct (decide (r = rowIndex + 1 ∧ 1 ≤ c
                        ∧ indexOf headers (VStr key) = Some (c - 1))) as [(-> & Hc & Hk)|Hn].
      * assert (hitOf headers rowIndex (<[key:=val]> (list_to_map l)) (rowIndex + 1) c
                = Some val) as ->; [|done].
        apply hitOf_Some. split; [done|]. split; [done|]. exists key. split; [done|].
        by rewrite lookup_insert_eq.
      * destruct (hitOf headers rowIndex (<[key:=val]> (list_to_map l)) r c) as [v|] eqn:Eh';
          [|done].
        exfalso. apply hitOf_Some in Eh' as (-> & Hc & key' & Hk' & Hv').
        destruct (decide (key' = key)) as [->|Hne]; [by apply Hn|].
        rewrite lookup_insert_ne in Hv' by done.
        assert (hitOf headers rowIndex (list_to_map l) (rowIndex + 1) c = Some v) as E';
          [|congruence].
        apply hitOf_Some. split; [done|]. split; [done|]. by exists key'.
Qed.

Lemma cellAt_applyObject (headers : list value) (rowIndex : nat) (obj : record)
    (g : grid) (r c : nat) :
  cellAt (applyObject headers g (rowIndex, obj)) r c
  = match hitOf headers rowIndex obj r c with
    | Some v => stored (Lit v)
    | None => cellAt g r c
    end.
Proof.
  unfold applyObject. cbn [fst snd].
  rewrite cellAt_applyFields by apply NoDup_fst_map_to_list.
  by rewrite list_to_map_to_list.
Qed.

Lemma cellAt_updatedSheet (headers : list value) (updates : list (nat * record)) (r c : nat) :
  ∀ g : grid,
  cellAt (updatedSheet headers updates g) r c
  = match lastHit headers updates r c with
    | Some v => stored (Lit v)
    | None => cellAt g r c
    end.
Proof.
  unfold updatedSheet. induction updates as [|[rowIndex obj] us IH]; intros g; [done|].
  simpl. rewrite IH. destruct (lastHit headers us r c); [done|].
  apply cellAt_applyObject.
Qed.

Lemma post_applyUpdates (headers : list value) (updates : list (nat * record)) (g : grid)
    (Q : outcome unit → grid → Prop) :
  Q (Returned ()) (updatedSheet headers updates g) → post (applyUpdates headers updates) g Q.
Proof. unfold post. by rewrite run_applyUpdates. Qed.

Lemma sheetAfter_upsertRows (data : list record) (columnToMatch : string)
    (headerRowIndex : nat) (g : grid) :
  data ≠ [] →
  sheetAfter (upsertRows data columnToMatch headerRowIndex) g
  = upsertedSheet data columnToMatch g.
Proof.
  intros Hdata.
  apply (post_sheetAfter _ _ (λ g', g' = upsertedSheet data columnToMatch g)).
  unfold upsertRows, upsertedSheet.
  rewrite bool_decide_eq_false_2 by (by destruct data).
  do 4 wp_step.
  change (readBlock (valueAt g) _) with (sheetDataOf g).
  change (sheetDataOf g !!! 0) with (headerRow g).
  pose proof (length_headerRow g) as Hlen.
  destruct (indexOf (headerRow g) (VStr columnToMatch)) as [cim|] eqn:Ecim; [|by wp_step].
  cbn zeta.
  set (m := existingRows (sheetDataOf g) cim).
  set (updates := existingUpdatesOf m columnToMatch data).
  set (news := newRecordsOf m columnToMatch data).
  apply (post_bind_ret (λ g', g' = updatedSheet (headerRow g) updates g)).
  - apply post_when; intros Hu.
    + apply post_applyUpdates. split; [by eexists | done].
    + split; [by eexists|]. apply Nat.ltb_ge in Hu.
      by rewrite (nil_length_inv updates) by lia.
  - intros _ g1 ->. destruct (0 <? length news) eqn:Hn; [|done].
    simpl. unfold appendRecords, appendedRows. apply Nat.ltb_lt in Hn.
    do 2 wp_step. rewrite !length_fmap.
    do 2 wp_step.
    2:{ exfalso. unfold validRange in *. pose proof (lastNonEmptyRow_pos
          (updatedSheet (headerRow g) updates g)). lia. }
    wp_step; [done|].
    exfalso. rewrite <- (length_fmap (λ rowObject, fieldOrEmpty rowObject <$> headerRow g)) in H0 at 1.
    by rewrite length_encoded in H0.
Qed.

(** ** Which rows the update path writes *)

Lemma lastHit_Some (headers : list value) (updates : list (nat * record)) (r c : nat)
    (v : value) :
  lastHit headers updates r c = Some v →
  ∃ u, u ∈ updates ∧ hitOf headers u.1 u.2 r c = Some v.
Proof.
  induction updates as [|u us IH]; simpl; [done|].
  destruct (lastHit headers us r c) as [v'|].
  - intros [= ->]. destruct (IH eq_refl) as (u' & ? & ?). exists u'. split; [by right | done].
  - intros Hu. exists u. split; [by left | done].
Qed.

Lemma lastHit_None (headers : list value) (updates : list (nat * record)) (r c : nat) :
  (∀ u, u ∈ updates → u.1 + 1 ≠ r) → lastHit headers updates r c = None.
Proof.
  intros Hno. destruct (lastHit headers updates r c) as [v|] eqn:E; [|done].
  apply lastHit_Some in E as (u & Hu & (? & _)%hitOf_Some). by destruct (Hno u Hu).
Qed.

Lemma lastHit_app (headers : list value) (us1 us2 : list (nat * record)) (r c : nat) :
  lastHit headers (us1 ++ us2) r c
  = match lastHit headers us2 r c with
    | Some v => Some v
    | None => lastHit headers us1 r c
    end.
Proof.
  induction us1 as [|u us1 IH]; simpl.
  - by destruct (lastHit headers us2 r c).
  - rewrite IH. by destruct (lastHit headers us2 r c).
Qed.

Lemma literalOnly_updatedSheet (headers : list value) (updates : list (nat * record)) :
  ∀ g : grid, literalOnly g → literalOnly (updatedSheet headers updates g).
Proof.
  unfold updatedSheet. induction updates as [|[rowIndex obj] us IH]; intros g Hlit; [done|].
  simpl. apply IH. unfold applyObject. cbn [fst snd].
  generalize (map_to_list obj). intros l. revert g Hlit.
  induction l as [|[key val] l IHl]; intros g Hlit; [done|].
  simpl. apply IHl. unfold applyField. cbn [fst snd].
  destruct (indexOf headers (VStr key)); [|done]. by apply literalOnly_setCell.
Qed.

Lemma matchValue_cell (g : grid) (cim i : nat) :
  literalOnly g → i < length (sheetDataOf g) → cim < length (headerRow g) →
  cellAt g (i + 1) (cim + 1) = Lit (matchValue g cim i).
Proof.
  intros Hlit Hi Hc. rewrite length_sheetDataOf in Hi. rewrite length_headerRow in Hc.
  unfold matchValue. rewrite sheetDataOf_cell by done. by apply literalOnly_cellAt.
Qed.

Lemma valueAt_of_cellAt (g g' : grid) (r c : nat) (v : value) :
  cellAt g' r c = Lit v → valueAt g' r c = v.
Proof. unfold valueAt. by intros ->. Qed.

Section UpdatePath.

Variables (g : grid) (data : list record) (columnToMatch : string) (cim : nat).
Hypothesis Hlit : literalOnly g.
Hypothesis Hcim : indexOf (headerRow g) (VStr columnToMatch) = Some cim.

Let updates := existingUpdatesOf (existingRows (sheetDataOf g) cim) columnToMatch data.
Let g1 := updatedSheet (headerRow g) updates g.

Lemma update_target (ri : nat) (obj : record) :
  (ri, obj) ∈ updates →
  obj ∈ data ∧ falsy (prop obj columnToMatch) = false
  ∧ 1 ≤ ri < length (sheetDataOf g)
  ∧ matchValue g cim ri = prop obj columnToMatch
  ∧ neStr (matchValue g cim ri) = true
  ∧ isDate (prop obj columnToMatch) = false
  ∧ ∀ j, ri < j < length (sheetDataOf g) → matchValue g cim j ≠ prop obj columnToMatch.
Proof using Type.
  intros Hu. unfold updates in Hu.
  apply elem_of_existingUpdatesOf in Hu as (Hin & Hf & Hg).
  apply existingRows_Some in Hg as (Hri & [Hne Hs] & Hlast).
  pose proof (sameValue_eq _ _ Hs) as E. unfold matchValue.
  assert (isDate (prop obj columnToMatch) = false) as Hd.
  { destruct (isDate (prop obj columnToMatch)) eqn:Ed; [|done].
    by rewrite sameValue_date_r in Hs. }
  split_and!; try done; try lia.
  intros j Hj Ej. apply (Hlast j Hj). unfold rowMatches.
  rewrite Ej, <- E. split; [done|]. rewrite E. by apply sameValue_refl.
Qed.

(** The updates leave the match column as it is. *)
Lemma updates_keep_matchColumn (r : nat) :
  cellAt g1 r (cim + 1) = cellAt g r (cim + 1).
Proof using Hlit Hcim.
  unfold g1. rewrite cellAt_updatedSheet.
  destruct (lastHit (headerRow g) updates r (cim + 1)) as [v|] eqn:E; [|done].
  apply lastHit_Some in E as ([ri obj] & Hu & (-> & _ & key & Hk & Hv)%hitOf_Some).
  cbn [fst snd] in *. replace (cim + 1 - 1) with cim in Hk by lia.
  pose proof (indexOf_inj _ _ _ _ Hk Hcim) as ->.
  apply update_target in Hu as (_ & _ & Hri & Hm & _).
  destruct (indexOf_Some _ _ _ Hcim) as [Hlt _].
  pose proof (matchValue_cell g cim ri Hlit ltac:(lia) Hlt) as Ec.
  rewrite <- (cellAt_stored g (ri + 1) (cim + 1)), Ec, Hm.
  unfold prop. by rewrite Hv.
Qed.

Lemma updates_literalOnly : literalOnly g1.
Proof using Hlit. by apply literalOnly_updatedSheet. Qed.

(** A row with a value in the match column is still populated after the
    updates, so the inserts land below it. *)
Lemma updates_keep_row_populated (i : nat) :
  i < length (sheetDataOf g) → neStr (matchValue g cim i) = true →
  i + 1 ≤ lastNonEmptyRow g1.
Proof using Hlit Hcim.
  intros Hi Hne. destruct (indexOf_Some _ _ _ Hcim) as [Hlt _].
  apply (lastNonEmptyRow_ge g1 (i + 1) (cim + 1)); [lia..|].
  pose proof (updates_keep_matchColumn (i + 1)) as E.
  rewrite (matchValue_cell g cim i) in E by done.
  rewrite (valueAt_of_cellAt g g1 _ _ _ E).
  pose proof (matchValue_cell g cim i Hlit Hi Hlt) as Ec.
  pose proof (literalOnly_neStr g (i + 1) (cim + 1) Hlit) as Hn.
  pose proof (literalOnly_nonEmpty g (i + 1) (cim + 1) Hlit) as Hn'.
  rewrite (valueAt_of_cellAt g g _ _ _ Ec) in Hn, Hn'. congruence.
Qed.

End UpdatePath.

Lemma existingRows_last (sheetData : list (list value)) (cim : nat) (v : value) (j : nat) :
  1 ≤ j < length sheetData → rowMatches sheetData cim v j →
  (∀ j', j < j' < length sheetData → ¬ rowMatches sheetData cim v j') →
  mapGet v (existingRows sheetData cim) = Some j.
Proof.
  intros Hj Hm Hlast.
  destruct (mapGet v (existingRows sheetData cim)) as [j0|] eqn:E.
  - apply existingRows_Some in E as (Hj0 & Hm0 & Hlast0). f_equal.
    destruct (decide (j0 < j)); [by destruct (Hlast0 j ltac:(lia))|].
    destruct (decide (j < j0)); [by destruct (Hlast j0 ltac:(lia))|]. lia.
  - by destruct (existingRows_None _ _ _ E j Hj).
Qed.

Lemma existingUpdatesOf_app (m : list (value * nat)) (columnToMatch : string)
    (l1 l2 : list record) :
  existingUpdatesOf m columnToMatch (l1 ++ l2)
  = existingUpdatesOf m columnToMatch l1 ++ existingUpdatesOf m columnToMatch l2.
Proof. unfold existingUpdatesOf. apply omap_app. Qed.

Lemma cellAt_upsertedSheet_above (data : list record) (columnToMatch : string) (g : grid)
    (cim r c : nat) :
  indexOf (headerRow g) (VStr columnToMatch) = Some cim →
  let updates :=
    existingUpdatesOf (existingRows (sheetDataOf g) cim) columnToMatch data in
  r ≤ lastNonEmptyRow (updatedSheet (headerRow g) updates g) →
  cellAt (upsertedSheet data columnToMatch g) r c
  = match lastHit (headerRow g) updates r c with
    | Some v => stored (Lit v)
    | None => cellAt g r c
    end.
Proof.
  intros Hcim updates Hr. unfold upsertedSheet. rewrite Hcim. cbn zeta.
  fold updates. destruct (0 <? length _).
  - rewrite cellAt_writeRows_outside by lia. apply cellAt_updatedSheet.
  - apply cellAt_updatedSheet.
Qed.


(** ** findAndUpdateRows, column by column *)

Lemma readBlock_lookup {A : Type} (f : nat → nat → A) (rg : range) (i : nat) :
  i < rRows rg →
  readBlock f rg !! i = Some ((λ j, f (rRow rg + i) (rCol rg + j)) <$> seq 0 (rCols rg)).
Proof. intros Hi. unfold readBlock. by rewrite list_lookup_fmap, lookup_seq_lt. Qed.

Section ColumnUpdate.

Variables (sheetData : list (list value)) (cim : nat) (dataLookup : list (value * record)).
Variable rows : list nat.
Hypothesis Hrows : ∀ ri, ri ∈ rows → 1 ≤ ri < length sheetData.

Lemma updateColumnValues_lookup (name : string) (rs : list nat) :
  ∀ (cv : list (list value)) (k : nat),
  (∀ ri, ri ∈ rs → 1 ≤ ri) →
  updateColumnValues sheetData cim dataLookup name rs cv !! k
  = (if decide (k + 1 ∈ rs)
     then (λ line, <[0 := matchedValue sheetData cim dataLookup name (k + 1)]> line)
     else id) <$> cv !! k.
Proof using Type.
  unfold updateColumnValues. induction rs as [|ri rs IH]; intros cv k Hpos; cbn [foldl].
  - destruct (decide (k + 1 ∈ [])) as [?%elem_of_nil|]; [done|]. by destruct (cv !! k).
  - rewrite IH by (intros ? ?; apply Hpos; by right).
    assert (1 ≤ ri) by (apply Hpos; by left).
    rewrite list_lookup_alter.
    destruct (decide (ri - 1 = k)) as [<-|Hne].
    + replace (ri - 1 + 1) with ri by lia.
      destruct (decide (ri ∈ ri :: rs)) as [_|Hn]; [|destruct Hn; by left].
      destruct (decide (ri ∈ rs)), (cv !! (ri - 1)); simpl;
        rewrite ?list_insert_insert_eq; done.
    + destruct (decide (k + 1 ∈ rs)) as [Hin|Hnin],
        (decide (k + 1 ∈ ri :: rs)) as [Hc|Hc]; try done.
      * destruct Hc. by right.
      * apply elem_of_cons in Hc as [?|?]; [lia | done].
Qed.

Lemma length_updateColumnValues (name : string) (rs : list nat) :
  ∀ cv : list (list value),
  length (updateColumnValues sheetData cim dataLookup name rs cv) = length cv.
Proof using Type.
  unfold updateColumnValues. induction rs as [|ri rs IH]; intros cv; cbn [foldl]; [done|].
  by rewrite IH, length_alter.
Qed.

Lemma updateColumnValues_rectangular (name : string) (g : grid) (ci : nat) :
  rectangular (length sheetData - 1) 1
    (updateColumnValues sheetData cim dataLookup name rows
       (readBlock (valueAt g) (Range 2 (ci + 1) (length sheetData - 1) 1))) = true.
Proof using Hrows.
  set (cv := readBlock _ _).
  assert (length (updateColumnValues sheetData cim dataLookup name rows cv)
          = length sheetData - 1) as Hlen
    by (rewrite length_updateColumnValues; subst cv; by rewrite length_readBlock).
  unfold rectangular. rewrite Hlen, bool_decide_eq_true_2 by done. simpl.
  apply forallb_forall. intros line Hin. apply list_elem_of_In in Hin.
  apply list_elem_of_lookup in Hin as [k Hk].
  apply bool_decide_eq_true.
  pose proof (lookup_lt_Some _ _ _ Hk) as Hlt. rewrite Hlen in Hlt.
  rewrite updateColumnValues_lookup in Hk by (intros ? ?%Hrows; lia).
  assert (cv !! k = Some [valueAt g (2 + k) (ci + 1 + 0)]) as Ecv
    by (subst cv; by rewrite readBlock_lookup).
  rewrite Ecv in Hk. simpl in Hk. injection Hk as <-. by destruct (decide _).
Qed.

Lemma cellAt_columnStep (g : grid) (ci : nat) (name : string) (r c : nat) :
  literalOnly g →
  cellAt ((columnStep sheetData cim dataLookup rows) g (ci, name)) r c
  = if decide (c = ci + 1 ∧ 2 ≤ r ∧ r - 1 ∈ rows)
    then stored (Lit (matchedValue sheetData cim dataLookup name (r - 1)))
    else cellAt g r c.
Proof using Hrows.
  intros Hlit. unfold columnStep. cbn [fst snd].
  rewrite (cellAt_setValues _ _ _ _ _ _ _ _ (updateColumnValues_rectangular name g ci)).
  destruct (decide (2 ≤ r < 2 + (length sheetData - 1) ∧ ci + 1 ≤ c < ci + 1 + 1))
    as [[Hr Hc]|Hout].
  - assert (c = ci + 1) as -> by lia. replace (ci + 1 - (ci + 1)) with 0 by lia.
    set (cv := readBlock _ _).
    assert (cv !! (r - 2) = Some [valueAt g r (ci + 1)]) as Ecv.
    { subst cv. rewrite readBlock_lookup by (simpl; lia). cbn [rRow rCol rCols].
      simpl. rewrite Nat.add_0_r. by replace (S (S (r - 2))) with r by lia. }
    pose proof (updateColumnValues_lookup name rows cv (r - 2)
                  ltac:(intros ? ?%Hrows; lia)) as Hl.
    rewrite Ecv in Hl. replace (r - 2 + 1) with (r - 1) in Hl by lia.
    apply list_lookup_total_correct in Hl. rewrite Hl.
    destruct (decide (r - 1 ∈ rows)) as [Hin|Hnin]; simpl.
    + by rewrite decide_True by (split_and!; (done || lia)).
    + rewrite decide_False by (by intros (_ & _ & ?)).
      rewrite <- (cellAt_stored g r (ci + 1)). by rewrite (literalOnly_cellAt g).
  - rewrite decide_False; [done|]. intros (-> & ? & Hin%Hrows). lia.
Qed.

Lemma literalOnly_columnStep (g : grid) (column : nat * string) :
  literalOnly g → literalOnly ((columnStep sheetData cim dataLookup rows) g column).
Proof using Type. intros. by apply literalOnly_writeRows. Qed.

(** The sheet after the updates of a list of columns, each listed with
    the name of its header. *)
Lemma cellAt_columnSteps (headers : list value) (l : list (nat * string)) :
  ∀ g : grid,
  literalOnly g →
  (∀ ci name, (ci, name) ∈ l → indexOf headers (VStr name) = Some ci) →
  literalOnly (foldl (columnStep sheetData cim dataLookup rows) g l)
  ∧ ∀ r c,
      (∀ name, (c - 1, name) ∈ l → 1 ≤ c → 2 ≤ r → r - 1 ∈ rows →
         cellAt (foldl (columnStep sheetData cim dataLookup rows) g l) r c
         = stored (Lit (matchedValue sheetData cim dataLookup name (r - 1))))
      ∧ ((∀ name, (c - 1, name) ∈ l → 1 ≤ c → 2 ≤ r → r - 1 ∈ rows → False) →
         cellAt (foldl (columnStep sheetData cim dataLookup rows) g l) r c = cellAt g r c).
Proof using Hrows.
  induction l as [|[ci name] l IH]; intros g Hlit Hnames.
  - split; [done|]. intros r c. split; [by intros ? ?%elem_of_nil | done].
  - simpl.
    destruct (IH ((columnStep sheetData cim dataLookup rows) g (ci, name)) (literalOnly_columnStep _ _ Hlit)) as [Hlit' Hcells].
    { intros ? ? ?. apply Hnames. by right. }
    split; [done|]. intros r c. destruct (Hcells r c) as [Hhit Hmiss].
    assert (∀ name0, (c - 1, name0) ∈ (ci, name) :: l → 1 ≤ c → 2 ≤ r → r - 1 ∈ rows →
              cellAt (foldl (columnStep sheetData cim dataLookup rows) ((columnStep sheetData cim dataLookup rows) g (ci, name)) l) r c
              = stored (Lit (matchedValue sheetData cim dataLookup name0 (r - 1)))) as Hhit'.
    { intros name0 Hin Hc Hr Hrow.
      destruct (decide (c - 1 ∈ l.*1)) as [Hin'|Hnone].
      - apply list_elem_of_fmap in Hin' as ([ci' name'] & Hci & Hin'). simpl in Hci. subst ci'.
        assert (name' = name0) as ->.
        { eapply indexOf_inj; apply Hnames; [by right | done]. }
        by apply Hhit.
      - assert (∀ name', (c - 1, name') ∈ l → False) as Hnone'.
        { intros name' Hin'. apply Hnone. apply list_elem_of_fmap. by exists (c - 1, name'). }
        rewrite Hmiss by (intros name' Hin' _ _ _; by apply (Hnone' name')).
        apply elem_of_cons in Hin as [[= Hci ->]|Hin]; [|by destruct (Hnone' name0)].
        rewrite cellAt_columnStep by done. rewrite decide_True; [done|].
        split_and!; [lia | done..]. }
    split; [done|].
    intros Hno. rewrite Hmiss.
    + rewrite cellAt_columnStep by done. rewrite decide_False; [done|].
      intros (-> & Hr & Hrow). apply (Hno name); [|lia|done..].
      replace (ci + 1 - 1) with ci by lia. by left.
    + intros name' Hin'. apply (Hno name'). by right.
Qed.

End ColumnUpdate.

Lemma elem_of_columnsInfoOf (headers : list value) (columnsToAdd : list string)
    (ci : nat) (name : string) :
  (ci, name) ∈ columnsInfoOf headers columnsToAdd
  ↔ name ∈ columnsToAdd ∧ indexOf headers (VStr name) = Some ci.
Proof.
  unfold columnsInfoOf. rewrite list_elem_of_omap. split.
  - intros (column & Hin & Hf). destruct (indexOf headers (VStr column)) eqn:E; [|done].
    simpl in Hf. injection Hf as -> ->. done.
  - intros [Hin Hi]. exists name. split; [done|]. by rewrite Hi.
Qed.

Lemma elem_of_rowsToUpdateOf (sheetData : list (list value)) (cim : nat)
    (dataLookup : list (value * record)) (ri : nat) :
  ri ∈ rowsToUpdateOf sheetData cim dataLookup
  ↔ 1 ≤ ri < length sheetData ∧ mapHas ((sheetData !!! ri) !!! cim) dataLookup = true.
Proof.
  unfold rowsToUpdateOf. rewrite list_elem_of_filter, elem_of_seq. split.
  - intros [? ?]. split; [lia | done].
  - intros [? ?]. split; [done | lia].
Qed.

Lemma sheetAfter_findAndUpdateRows (data : list record) (columnToMatch : string)
    (columnsToAdd : list string) (g : grid) :
  sheetAfter (findAndUpdateRows data columnToMatch columnsToAdd) g
  = foundSheet data columnToMatch columnsToAdd g.
Proof.
  apply (post_sheetAfter _ _ (λ g', g' = foundSheet data columnToMatch columnsToAdd g)).
  unfold findAndUpdateRows, foundSheet.
  do 4 wp_step.
  change (readBlock (valueAt g) _) with (sheetDataOf g).
  change (sheetDataOf g !!! 0) with (headerRow g). cbn zeta.
  destruct (length (sheetDataOf g) <? 2) eqn:Elen; [by wp_step|].
  destruct (indexOf (headerRow g) (VStr columnToMatch)) as [cim|]; [|by wp_step].
  destruct (bool_decide (length (columnsInfoOf (headerRow g) columnsToAdd) = 0));
    [by wp_step|].
  destruct (bool_decide (length (rowsToUpdateOf (sheetDataOf g) cim
                                   (dataLookupOf data columnToMatch)) = 0));
    [by wp_step|].
  unfold post. erewrite run_forEach; [done|].
  intros [ci name] g' _. apply Nat.ltb_ge in Elen.
  unfold mbind, script_bind, getRange.
  replace (1 <=? ci + 1) with true by (symmetry; apply Nat.leb_le; lia).
  replace (1 <=? length (sheetDataOf g) - 1) with true by (symmetry; apply Nat.leb_le; lia).
  simpl. unfold setValues. cbn [rRow rCol rRows rCols].
  rewrite updateColumnValues_rectangular; [done|].
  by intros ri [? _]%elem_of_rowsToUpdateOf.
Qed.

Lemma literalOnly_foundSheet (data : list record) (columnToMatch : string)
    (columnsToAdd : list string) (g : grid) :
  literalOnly g → literalOnly (foundSheet data columnToMatch columnsToAdd g).
Proof.
  intros Hlit. unfold foundSheet. cbn zeta.
  repeat (match goal with |- literalOnly (if ?b then _ else _) => destruct b end; try done).
  destruct (indexOf _ _) as [cim|]; [|done].
  repeat (match goal with |- literalOnly (if ?b then _ else _) => destruct b end; try done).
  generalize (columnsInfoOf (headerRow g) columnsToAdd).
  generalize (rowsToUpdateOf (sheetDataOf g) cim (dataLookupOf data columnToMatch)).
  generalize (dataLookupOf data columnToMatch). generalize (sheetDataOf g).
  intros sd dl rows l. revert g Hlit.
  induction l as [|x l IH]; intros g Hlit; [done|]. simpl. apply IH.
  by apply literalOnly_columnStep.
Qed.

(** The cells of the sheet [findAndUpdateRows] leaves, on a sheet without
    formulas: in each row whose match value some record carries, each
    named column that is a header gets the value of the matched record,
    or the empty string when that value is missing or falsy; the other
    cells are as before. *)
Lemma cellAt_foundSheet (data : list record) (columnToMatch : string)
    (columnsToAdd : list string) (g : grid) (cim r c : nat) :
  literalOnly g →
  indexOf (headerRow g) (VStr columnToMatch) = Some cim →
  let dataLookup := dataLookupOf data columnToMatch in
  let g' := foundSheet data columnToMatch columnsToAdd g in
  (∀ name, name ∈ columnsToAdd → indexOf (headerRow g) (VStr name) = Some (c - 1) →
     1 ≤ c → 2 ≤ r ≤ length (sheetDataOf g) →
     mapHas (matchValue g cim (r - 1)) dataLookup = true →
     cellAt g' r c
     = stored (Lit (matchedValue (sheetDataOf g) cim dataLookup name (r - 1))))
  ∧ ((∀ name, name ∈ columnsToAdd → indexOf (headerRow g) (VStr name) = Some (c - 1) →
        1 ≤ c → 2 ≤ r ≤ length (sheetDataOf g) →
        mapHas (matchValue g cim (r - 1)) dataLookup = true → False) →
     cellAt g' r c = cellAt g r c).
Proof.
  intros Hlit Hcim. cbn zeta. unfold foundSheet. rewrite Hcim. cbn zeta.
  set (dl := dataLookupOf data columnToMatch).
  set (rows := rowsToUpdateOf (sheetDataOf g) cim dl).
  set (cols := columnsInfoOf (headerRow g) columnsToAdd).
  assert (∀ ri, ri ∈ rows → 1 ≤ ri < length (sheetDataOf g)) as Hrows
    by (by intros ri [? _]%elem_of_rowsToUpdateOf).
  destruct (cellAt_columnSteps (sheetDataOf g) cim dl rows Hrows (headerRow g) cols g Hlit)
    as [_ Hcells].
  { intros ci name [_ ?]%elem_of_columnsInfoOf. done. }
  destruct (Hcells r c) as [Hhit Hmiss].
  split.
  - intros name Hin Hidx Hc Hr Hhas.
    assert ((c - 1, name) ∈ cols) as Hcol by (by apply elem_of_columnsInfoOf).
    assert (r - 1 ∈ rows) as Hrow.
    { apply elem_of_rowsToUpdateOf. split; [lia | done]. }
    destruct (length (sheetDataOf g) <? 2) eqn:El; [apply Nat.ltb_lt in El; lia|].
    rewrite bool_decide_eq_false_2 by (intros E; apply nil_length_inv in E;
      rewrite E in Hcol; by apply elem_of_nil in Hcol).
    rewrite bool_decide_eq_false_2 by (intros E; apply nil_length_inv in E;
      rewrite E in Hrow; by apply elem_of_nil in Hrow).
    apply Hhit; [done | done | lia | done].
  - intros Hno.
    destruct (length (sheetDataOf g) <? 2) eqn:El; [done|].
    destruct (bool_decide _); [done|]. destruct (bool_decide _); [done|].
    apply Hmiss. intros name [Hin Hidx]%elem_of_columnsInfoOf Hc Hr
      [Hri Hhas]%elem_of_rowsToUpdateOf.
    apply (Hno name); (done || lia).
Qed.

(** ** The update path of upsertRows, restricted to the named fields *)

Lemma sheetAfter_upsertUpdatePath (data : list record) (columnToMatch : string)
    (fields : list string) (g : grid) :
  sheetAfter (upsertUpdatePath data columnToMatch fields) g
  = updatePathSheet data columnToMatch fields g.
Proof.
  apply (post_sheetAfter _ _ (λ g', g' = updatePathSheet data columnToMatch fields g)).
  unfold upsertUpdatePath, updatePathSheet, restrictedUpdates.
  destruct (bool_decide (length data = 0)) eqn:Ed.
  - apply bool_decide_eq_true_1, nil_length_inv in Ed. subst data.
    wp_step. by destruct (indexOf (headerRow g) (VStr columnToMatch)).
  - do 4 wp_step.
    change (readBlock (valueAt g) _) with (sheetDataOf g).
    change (sheetDataOf g !!! 0) with (headerRow g). cbn zeta.
    destruct (indexOf (headerRow g) (VStr columnToMatch)) as [cim|]; [|by wp_step].
    apply post_when; intros Hu.
    + by apply post_applyUpdates.
    + apply Nat.ltb_ge in Hu.
      by rewrite (nil_length_inv (existingUpdatesOf _ _ _)) by lia.
Qed.

Lemma restrictTo_lookup (fields : list string) (obj : record) (key : string) :
  restrictTo fields obj !! key = if decide (key ∈ fields) then obj !! key else None.
Proof.
  unfold restrictTo. destruct (decide (key ∈ fields)) as [Hin|Hout].
  - destruct (obj !! key) as [v|] eqn:E.
    + by apply map_lookup_filter_Some.
    + apply map_lookup_filter_None. left. done.
  - apply map_lookup_filter_None. right. intros v _. done.
Qed.

Lemma dataLookupOf_snoc (data : list record) (x : record) (columnToMatch : string) :
  dataLookupOf (data ++ [x]) columnToMatch
  = mapSet (prop x columnToMatch) x (dataLookupOf data columnToMatch).
Proof. unfold dataLookupOf. by rewrite foldl_app. Qed.

Lemma mapHas_dataLookupOf (data : list record) (columnToMatch : string) (v : value)
    (obj : record) :
  obj ∈ data → sameValue (prop obj columnToMatch) v = true →
  mapHas v (dataLookupOf data columnToMatch) = true.
Proof.
  unfold mapHas. intros Hin Hs. apply bool_decide_eq_true_2. revert Hin.
  induction data as [|x data IH] using rev_ind; [by intros ?%elem_of_nil|].
  rewrite dataLookupOf_snoc, mapGet_mapSet.
  destruct (sameValue (prop x columnToMatch) v) eqn:E; [by eexists|].
  intros [Hin|Hin%list_elem_of_singleton]%elem_of_app; [by apply IH|].
  subst x. congruence.
Qed.

Lemma restrictedUpdates_app (sheetData : list (list value)) (cim : nat)
    (columnToMatch : string) (fields : list string) (l1 l2 : list record) :
  restrictedUpdates sheetData cim columnToMatch fields (l1 ++ l2)
  = restrictedUpdates sheetData cim columnToMatch fields l1
    ++ restrictedUpdates sheetData cim columnToMatch fields l2.
Proof. unfold restrictedUpdates. by rewrite existingUpdatesOf_app, fmap_app. Qed.

Lemma elem_of_restrictedUpdates (sheetData : list (list value)) (cim : nat)
    (columnToMatch : string) (fields : list string) (data : list record)
    (u : nat * record) :
  u ∈ restrictedUpdates sheetData cim columnToMatch fields data →
  ∃ obj, u.2 = restrictTo fields obj ∧ obj ∈ data
         ∧ falsy (prop obj columnToMatch) = false
         ∧ mapGet (prop obj columnToMatch) (existingRows sheetData cim) = Some u.1.
Proof.
  unfold restrictedUpdates. intros ([ri obj] & -> & Hin)%list_elem_of_fmap.
  apply elem_of_existingUpdatesOf in Hin as (? & ? & ?). by exists obj.
Qed.

Lemma falsy_neStr (v : value) : falsy v = false → neStr v = true.
Proof. unfold neStr. intros Hf. apply negb_true_iff, bool_decide_eq_false_2. by intros ->. Qed.

(** The record [findAndUpdateRows] looks up for a row is the one whose
    update the update path applies last to that row. *)
Lemma lastHit_dataLookup (g : grid) (columnToMatch : string) (fields : list string)
    (cim r c : nat) (name : string) :
  uniqueMatchValues g columnToMatch →
  indexOf (headerRow g) (VStr columnToMatch) = Some cim →
  name ∈ fields → indexOf (headerRow g) (VStr name) = Some (c - 1) →
  1 ≤ c → 2 ≤ r ≤ length (sheetDataOf g) →
  ∀ data : list record,
  suppliesAll g columnToMatch fields data →
  lastHit (headerRow g)
    (restrictedUpdates (sheetDataOf g) cim columnToMatch fields data) r c
  = (λ rec, orEmpty (prop rec name))
      <$> mapGet (matchValue g cim (r - 1)) (dataLookupOf data columnToMatch).
Proof.
  intros Huniq Hcim Hname Hidx Hc Hr.
  induction data as [|x data IH] using rev_ind; intros Hsup; [done|].
  rewrite restrictedUpdates_app, lastHit_app, dataLookupOf_snoc, mapGet_mapSet.
  destruct (Hsup x) as [Htruthy Hfields]; [apply elem_of_app; right; by left|].
  specialize (Hfields name Hname ltac:(by eexists)).
  assert (suppliesAll g columnToMatch fields data) as Hsup'.
  { intros rec Hrec. apply Hsup, elem_of_app. by left. }
  destruct (sameValue (prop x columnToMatch) (matchValue g cim (r - 1))) eqn:Es.
  - pose proof (sameValue_eq _ _ Es) as Emv.
    assert (mapGet (prop x columnToMatch) (existingRows (sheetDataOf g) cim)
            = Some (r - 1)) as Hrow.
    { apply existingRows_last; [lia| |].
      - split; [|by rewrite sameValue_sym].
        fold (matchValue g cim (r - 1)). rewrite <- Emv. by apply falsy_neStr.
      - intros j' Hj' [_ Hm]. apply sameValue_eq in Hm.
        apply (Huniq cim (r - 1) j' Hcim); [lia | lia | lia | |].
        + rewrite <- Emv. by apply falsy_neStr.
        + unfold matchValue in *. congruence. }
    unfold restrictedUpdates at 1, existingUpdatesOf. simpl.
    unfold isNewRecord, mapHas. rewrite Htruthy, Hrow. simpl.
    unfold prop in Hfields. destruct (x !! name) as [val|] eqn:Ex; [|done]. simpl in Hfields.
    replace (hitOf (headerRow g) (r - 1) (restrictTo fields x) r c) with (Some val).
    2:{ symmetry. apply hitOf_Some. split; [lia|]. split; [done|]. exists name.
        split; [done|]. rewrite restrictTo_lookup. by rewrite decide_True. }
    unfold orEmpty, prop. rewrite Ex. simpl. by rewrite Hfields.
  - rewrite (lastHit_None _ (restrictedUpdates _ _ _ _ [x])); [by apply IH|].
    intros u (obj & _ & [->|[]%elem_of_nil]%elem_of_cons & _ & Hget)%elem_of_restrictedUpdates Hu.
    apply existingRows_Some in Hget as (_ & [_ Hm] & _).
    replace u.1 with (r - 1) in Hm by lia.
    fold (matchValue g cim (r - 1)) in Hm. rewrite sameValue_sym in Hm. congruence.
Qed.

Lemma named_column_dec (headers : list value) (fields : list string) (c : nat) :
  (∃ name, name ∈ fields ∧ indexOf headers (VStr name) = Some (c - 1))
  ∨ (∀ name, name ∈ fields → indexOf headers (VStr name) = Some (c - 1) → False).
Proof.
  destruct (headers !! (c - 1)) as [h|] eqn:Eh.
  - destruct h as [name| | | | |];
      try (right; intros name' _ (_ & Hl & _)%indexOf_lookup;
           rewrite (list_lookup_total_correct _ _ _ Eh) in Hl; discriminate).
    destruct (decide (name ∈ fields ∧ indexOf headers (VStr name) = Some (c - 1)))
      as [Hyes|Hno]; [left; by exists name|].
    right. intros name' Hin Hidx. pose proof Hidx as (_ & Hl & _)%indexOf_lookup.
    rewrite (list_lookup_total_correct _ _ _ Eh) in Hl. injection Hl as ->. by apply Hno.
  - right. intros name' _ (_ & _ & Hlt)%indexOf_lookup.
    apply lookup_ge_None in Eh. lia.
Qed.

(** C8, as the code has it: on a sheet without formulas whose match
    column holds no non-empty value twice, and for records that each carry
    a truthy match value and a truthy value for every named field that is
    a header, [findAndUpdateRows] leaves the sheet the update path of
    [upsertRows], restricted to the named fields and without its insert
    step, leaves. *)
Theorem findAndUpdateRows_refines_update_path (data : list record)
    (columnToMatch : string) (fields : list string) (g : grid) :
  literalOnly g →
  uniqueMatchValues g columnToMatch →
  suppliesAll g columnToMatch fields data →
  ∀ r c,
    cellAt (sheetAfter (findAndUpdateRows data columnToMatch fields) g) r c
    = cellAt (sheetAfter (upsertUpdatePath data columnToMatch fields) g) r c.
Proof.
  intros Hlit Huniq Hsup r c.
  rewrite sheetAfter_findAndUpdateRows, sheetAfter_upsertUpdatePath.
  destruct (indexOf (headerRow g) (VStr columnToMatch)) as [cim|] eqn:Hcim.
  2:{ unfold foundSheet, updatePathSheet. rewrite Hcim. cbn zeta.
      by destruct (length (sheetDataOf g) <? 2). }
  destruct (cellAt_foundSheet data columnToMatch fields g cim r c Hlit Hcim)
    as [Hhit Hmiss].
  unfold updatePathSheet. rewrite Hcim, cellAt_updatedSheet.
  assert ((∀ name, name ∈ fields → indexOf (headerRow g) (VStr name) = Some (c - 1) →
             1 ≤ c → 2 ≤ r ≤ length (sheetDataOf g) →
             mapHas (matchValue g cim (r - 1)) (dataLookupOf data columnToMatch) = true →
             False) →
          cellAt (foundSheet data columnToMatch fields g) r c
          = match lastHit (headerRow g)
                    (restrictedUpdates (sheetDataOf g) cim columnToMatch fields data) r c with
            | Some v => stored (Lit v)
            | None => cellAt g r c
            end) as Hout.
  { intros Hno. rewrite Hmiss by done.
    destruct (lastHit _ _ r c) as [v|] eqn:E; [|done]. exfalso.
    apply lastHit_Some in E as (u & Hu & (Hr & Hc & key & Hkey & Hv)%hitOf_Some).
    apply elem_of_restrictedUpdates in Hu as (obj & Hobj & Hin & _ & Hget).
    rewrite Hobj, restrictTo_lookup in Hv.
    destruct (decide (key ∈ fields)) as [Hkin|]; [|done].
    apply existingRows_Some in Hget as (Hrow & [_ Hm] & _).
    apply (Hno key Hkin Hkey Hc); [lia|].
    apply (mapHas_dataLookupOf _ _ _ obj Hin).
    rewrite sameValue_sym. unfold matchValue. by replace (r - 1) with u.1 by lia. }
  destruct (named_column_dec (headerRow g) fields c) as [(name & Hname & Hidx)|Hnone].
  2:{ apply Hout. intros name ? ? **. by apply (Hnone name). }
  destruct (decide (1 ≤ c ∧ 2 ≤ r ≤ length (sheetDataOf g))) as [[Hc Hr]|Hrange].
  2:{ apply Hout. intros. apply Hrange. split; [done | lia]. }
  destruct (mapHas (matchValue g cim (r - 1)) (dataLookupOf data columnToMatch)) eqn:Hhas.
  2:{ apply Hout. intros. done. }
  rewrite (Hhit name) by done.
  rewrite (lastHit_dataLookup g columnToMatch fields cim r c name) by done.
  unfold mapHas in Hhas. apply bool_decide_eq_true_1 in Hhas as [rec Hrec].
  unfold matchedValue. fold (matchValue g cim (r - 1)). by rewrite Hrec.
Qed.

(** ** A second upsert with the same records *)

Lemma falsy_nonblank (v : value) : falsy v = false → blankContent (Lit v) = false.
Proof. by destruct v as [s0| | | | |]; simpl; try done; unfold blankValue, nonEmpty, neStr;
  intros Hf; repeat (rewrite bool_decide_eq_false_2 by (by intros [= ->])). Qed.

Lemma falsy_prop_Some (obj : record) (key : string) :
  falsy (prop obj key) = false → obj !! key = Some (prop obj key).
Proof. unfold prop. by destruct (obj !! key). Qed.

Lemma lastHit_is_Some (headers : list value) (updates : list (nat * record)) (r c : nat)
    (u : nat * record) (v : value) :
  u ∈ updates → hitOf headers u.1 u.2 r c = Some v →
  is_Some (lastHit headers updates r c).
Proof.
  induction updates as [|u' us IH]; [by intros ?%elem_of_nil|].
  intros [->|Hin]%elem_of_cons Hv; simpl.
  - destruct (lastHit headers us r c); [by eexists|]. rewrite Hv. by eexists.
  - destruct (IH Hin Hv) as [v' ->]. by eexists.
Qed.

Section SecondUpsert.

Variables (g : grid) (data : list record) (columnToMatch : string) (cim : nat).
Hypothesis Hlit : literalOnly g.
Hypothesis Hcim : indexOf (headerRow g) (VStr columnToMatch) = Some cim.
Hypothesis Hspan : headerSpans g 1.
Hypothesis Hkeys : ∀ rec, rec ∈ data →
  falsy (prop rec columnToMatch) = false ∧ isDate (prop rec columnToMatch) = false.
Hypothesis Hdistinct : ∀ a b, a ∈ data → b ∈ data →
  prop a columnToMatch = prop b columnToMatch → a = b.

Let m := existingRows (sheetDataOf g) cim.
Let updates := existingUpdatesOf m columnToMatch data.
Let news := newRecordsOf m columnToMatch data.
Let gU := updatedSheet (headerRow g) updates g.
Let g1 := upsertedSheet data columnToMatch g.

Lemma second_lastRow_pos : 1 ≤ lastRow g.
Proof using Hspan. apply lastRow_lastColumn_pos. by destruct Hspan. Qed.

Lemma second_lengths :
  length (sheetDataOf g) = lastRow g ∧ length (headerRow g) = lastColumn g
  ∧ cim < lastColumn g.
Proof using Hspan Hcim.
  pose proof second_lastRow_pos. destruct Hspan as [? _].
  rewrite length_sheetDataOf, length_headerRow.
  destruct (indexOf_Some _ _ _ Hcim) as [Hlt _]. rewrite length_headerRow in Hlt.
  split_and!; lia.
Qed.

Lemma second_hit_bounds (r c : nat) (v : value) :
  lastHit (headerRow g) updates r c = Some v →
  2 ≤ r ≤ lastRow g ∧ 1 ≤ c ≤ lastColumn g.
Proof using Hspan Hcim.
  destruct second_lengths as (Hrows & Hcols & _).
  intros ([ri obj] & Hu & (-> & Hc & key & Hk & _)%hitOf_Some)%lastHit_Some.
  cbn [fst snd] in *.
  apply (update_target g data columnToMatch cim) in Hu as (_ & _ & Hri & _).
  apply indexOf_Some in Hk as [Hk _]. lia.
Qed.

Lemma second_cellAt_gU_out (r c : nat) :
  r < 2 ∨ lastRow g < r ∨ lastColumn g < c → cellAt gU r c = cellAt g r c.
Proof using Hspan Hcim.
  intros Hout. unfold gU. rewrite cellAt_updatedSheet.
  destruct (lastHit (headerRow g) updates r c) as [v|] eqn:E; [|done].
  apply second_hit_bounds in E. lia.
Qed.

Lemma second_lastRow_gU : lastRow gU = lastRow g.
Proof using Hlit Hspan Hcim.
  pose proof second_lastRow_pos as Hpos. destruct second_lengths as (Hrows & Hcols & Hc).
  apply lastRow_unique; [done | |].
  - destruct (neStr (matchValue g cim (lastRow g - 1))) eqn:Hne.
    + exists (cim + 1). split; [lia|]. unfold gU.
      rewrite (updates_keep_matchColumn g data columnToMatch cim Hlit Hcim).
      assert (cellAt g (lastRow g) (cim + 1) = Lit (matchValue g cim (lastRow g - 1))) as Ec.
      { replace (lastRow g) with (lastRow g - 1 + 1) at 1 by lia.
        apply matchValue_cell; [done | lia | lia]. }
      pose proof (literalOnly_neStr g (lastRow g) (cim + 1) Hlit) as Hn.
      rewrite (valueAt_of_cellAt g g _ _ _ Ec), Hne in Hn.
      by destruct (blankContent _).
    + destruct (lastRow_reached g Hpos) as (c & Hc1 & Hbl). exists c. split; [done|].
      unfold gU. rewrite cellAt_updatedSheet, lastHit_None; [done|].
      intros [ri obj] Hu. cbn [fst]. intros Hri.
      apply (update_target g data columnToMatch cim) in Hu as (_ & _ & _ & _ & Hn & _).
      replace (lastRow g - 1) with ri in Hne by lia. congruence.
  - intros r c Hr Hc1. rewrite second_cellAt_gU_out by lia.
    apply cellAt_beyond; lia.
Qed.

Lemma second_lastColumn_gU : lastColumn gU = lastColumn g.
Proof using Hspan Hcim.
  destruct Hspan as [Hpos Hbl].
  apply lastColumn_unique; [done | |].
  - exists 1. split; [done|]. by rewrite second_cellAt_gU_out by lia.
  - intros r c Hc Hr. rewrite second_cellAt_gU_out by lia. apply cellAt_beyond; lia.
Qed.

Lemma second_literalOnly_gU : literalOnly gU.
Proof using Hlit. by apply literalOnly_updatedSheet. Qed.

Lemma second_g1 :
  g1 = writeRows (lastRow g + 1) 1 (appendedRows (headerRow g) news) gU.
Proof using Hlit Hspan Hcim.
  unfold g1, upsertedSheet. rewrite Hcim. cbn zeta. fold m. fold updates. fold news. fold gU.
  rewrite (lastNonEmptyRow_literal gU second_literalOnly_gU)
    by (rewrite second_lastRow_gU; apply second_lastRow_pos).
  rewrite second_lastRow_gU.
  destruct (0 <? length news) eqn:E; [done|].
  apply Nat.ltb_ge in E. by rewrite (nil_length_inv news) by lia.
Qed.

(** The sheet after the first call: the inserted records in the rows
    below the last one, the updated sheet above. *)
Lemma second_cellAt_g1 (r c : nat) :
  cellAt g1 r c
  = if decide (lastRow g + 1 ≤ r < lastRow g + 1 + length news ∧ 1 ≤ c ≤ lastColumn g)
    then stored (Lit (fieldOrEmpty (news !!! (r - (lastRow g + 1))) (headerRow g !!! (c - 1))))
    else cellAt gU r c.
Proof using Hlit Hspan Hcim.
  destruct second_lengths as (Hrows & Hcols & Hc).
  rewrite second_g1, cellAt_writeRows. unfold appendedRows. rewrite !length_fmap.
  destruct (decide (lastRow g + 1 ≤ r < lastRow g + 1 + length news)) as [Hr|Hr].
  - rewrite (list_lookup_total_fmap (λ row : list value, Lit <$> row)
               ((λ rowObject, fieldOrEmpty rowObject <$> headerRow g) <$> news))
      by (rewrite length_fmap; lia).
    rewrite (list_lookup_total_fmap (λ rowObject, fieldOrEmpty rowObject <$> headerRow g) news)
      by lia.
    rewrite !length_fmap, Hcols.
    destruct (decide (1 ≤ c ≤ lastColumn g)) as [Hcc|Hcc].
    + rewrite !decide_True by (split; (done || lia)).
      rewrite (list_lookup_total_fmap Lit (fieldOrEmpty _ <$> headerRow g))
        by (rewrite length_fmap; lia).
      by rewrite (list_lookup_total_fmap (fieldOrEmpty _) (headerRow g)) by lia.
    + rewrite !decide_False; [done | by intros [_ ?] | intros [_ ?]; lia].
  - rewrite !decide_False; [done | by intros [? _] | by intros [? _]].
Qed.

Lemma second_literalOnly_g1 : literalOnly g1.
Proof using Hlit Hspan Hcim.
  rewrite second_g1. unfold appendedRows. apply literalOnly_writeRows, second_literalOnly_gU.
Qed.

Lemma second_new_record (k : nat) (rec : record) :
  news !! k = Some rec → rec ∈ data ∧ mapGet (prop rec columnToMatch) m = None.
Proof using Hkeys.
  intros Hk. apply list_elem_of_lookup_2 in Hk. unfold news, newRecordsOf in Hk.
  apply list_elem_of_filter in Hk as [Hnew Hin]. split; [done|].
  unfold isNewRecord in Hnew. destruct (Hkeys rec Hin) as [Hf _]. rewrite Hf in Hnew.
  simpl in Hnew. unfold mapHas in Hnew. apply negb_true_iff, bool_decide_eq_false_1 in Hnew.
  destruct (mapGet _ m); [|done]. destruct Hnew. by eexists.
Qed.

Lemma second_inserted_cell (k : nat) (rec : record) (key : string) (val : value) (kk : nat) :
  news !! k = Some rec → rec !! key = Some val →
  indexOf (headerRow g) (VStr key) = Some kk →
  cellAt g1 (lastRow g + 1 + k) (kk + 1) = stored (Lit val).
Proof using Hlit Hspan Hcim.
  intros Hk Hval Hkk. destruct second_lengths as (Hrows & Hcols & Hc).
  destruct (indexOf_lookup _ _ _ Hkk) as (_ & Hh & Hlt).
  pose proof (lookup_lt_Some _ _ _ Hk) as Hklt.
  rewrite second_cellAt_g1, decide_True by lia.
  replace (lastRow g + 1 + k - (lastRow g + 1)) with k by lia.
  replace (kk + 1 - 1) with kk by lia.
  rewrite (list_lookup_total_correct _ _ _ Hk), Hh.
  unfold fieldOrEmpty, hasOwnProperty, prop. simpl. rewrite Hval.
  by rewrite bool_decide_eq_true_2 by (by eexists).
Qed.

Lemma second_inserted_matchCell (k : nat) (rec : record) :
  news !! k = Some rec →
  cellAt g1 (lastRow g + 1 + k) (cim + 1) = Lit (prop rec columnToMatch).
Proof using Hlit Hspan Hcim Hkeys.
  intros Hk. destruct (second_new_record k rec Hk) as [Hin _].
  destruct (Hkeys rec Hin) as [Hf _].
  rewrite (second_inserted_cell k rec columnToMatch (prop rec columnToMatch)); try done.
  - apply stored_nonblank. by apply falsy_nonblank.
  - by apply falsy_prop_Some.
Qed.

Lemma second_lastColumn_g1 : lastColumn g1 = lastColumn g.
Proof using Hlit Hspan Hcim.
  pose proof second_lastRow_pos. destruct Hspan as [Hpos Hbl].
  apply lastColumn_unique; [done | |].
  - exists 1. split; [done|]. rewrite second_cellAt_g1, decide_False by lia.
    by rewrite second_cellAt_gU_out by lia.
  - intros r c Hc Hr. rewrite second_cellAt_g1, decide_False by lia.
    rewrite second_cellAt_gU_out by lia. apply cellAt_beyond; lia.
Qed.

Lemma second_lastRow_g1 : lastRow g1 = lastRow g + length news.
Proof using Hlit Hspan Hcim Hkeys.
  pose proof second_lastRow_pos as Hpos. destruct second_lengths as (Hrows & Hcols & Hc).
  apply lastRow_unique; [lia | |].
  - destruct (decide (length news = 0)) as [E|E].
    + destruct (lastRow_reached gU) as (c & Hc1 & Hbl);
        [rewrite second_lastRow_gU; lia|].
      rewrite second_lastRow_gU in Hbl.
      exists c. split; [done|]. rewrite E, Nat.add_0_r.
      by rewrite second_cellAt_g1, decide_False by lia.
    + destruct (lookup_lt_is_Some_2 news (length news - 1)) as [rec Hrec]; [lia|].
      exists (cim + 1). split; [lia|].
      replace (lastRow g + length news) with (lastRow g + 1 + (length news - 1)) by lia.
      rewrite (second_inserted_matchCell _ rec Hrec).
      destruct (second_new_record _ rec Hrec) as [Hin _].
      apply falsy_nonblank. by destruct (Hkeys rec Hin).
  - intros r c Hr Hc1. rewrite second_cellAt_g1, decide_False by lia.
    pose proof second_lastRow_gU. apply cellAt_beyond; lia.
Qed.

Lemma second_headerRow_g1 : headerRow g1 = headerRow g.
Proof using Hlit Hspan Hcim Hkeys.
  pose proof second_lastRow_pos as Hpos. destruct Hspan as [Hcpos _].
  unfold headerRow, sheetDataOf.
  unfold dataRangeOf.
  rewrite !readBlock_row by (cbn [rRows]; lia). cbn [rRow rCol rCols].
  rewrite second_lastColumn_g1. apply list_fmap_ext. intros i j _.
  unfold valueAt at 1. rewrite second_cellAt_g1, decide_False by lia.
  rewrite second_cellAt_gU_out by lia.
  by rewrite (literalOnly_cellAt g _ _ Hlit).
Qed.

Lemma second_matchValue_old (i : nat) :
  i < lastRow g → matchValue g1 cim i = matchValue g cim i.
Proof using Hlit Hspan Hcim Hkeys.
  intros Hi. destruct second_lengths as (Hrows & Hcols & Hc).
  unfold matchValue. rewrite !sheetDataOf_cell
    by (rewrite ?second_lastRow_g1, ?second_lastColumn_g1; lia).
  unfold valueAt at 1. rewrite second_cellAt_g1, decide_False by lia.
  unfold gU. rewrite (updates_keep_matchColumn g data columnToMatch cim Hlit Hcim).
  by rewrite (literalOnly_cellAt g _ _ Hlit).
Qed.

Lemma second_matchValue_new (k : nat) (rec : record) :
  news !! k = Some rec → matchValue g1 cim (lastRow g + k) = prop rec columnToMatch.
Proof using Hlit Hspan Hcim Hkeys.
  intros Hk. destruct second_lengths as (Hrows & Hcols & Hc).
  pose proof (lookup_lt_Some _ _ _ Hk) as Hklt.
  unfold matchValue. rewrite sheetDataOf_cell
    by (rewrite ?second_lastRow_g1, ?second_lastColumn_g1; lia).
  apply (valueAt_of_cellAt g g1).
  replace (lastRow g + k + 1) with (lastRow g + 1 + k) by lia.
  by apply second_inserted_matchCell.
Qed.

Lemma second_rowMatches (g' : grid) (j : nat) (rec : record) :
  rec ∈ data → matchValue g' cim j = prop rec columnToMatch →
  rowMatches (sheetDataOf g') cim (prop rec columnToMatch) j.
Proof using Hkeys.
  intros Hin Hm. destruct (Hkeys rec Hin) as [Hf Hd]. unfold rowMatches.
  fold (matchValue g' cim j). rewrite Hm. split; [by apply falsy_neStr|].
  by apply sameValue_refl.
Qed.

(** After the first call the rows an update went to hold the record's
    values. *)
Lemma second_update_cell (R : nat) (rec : record) (key : string) (val : value) (kk : nat) :
  (R, rec) ∈ updates → rec !! key = Some val →
  indexOf (headerRow g) (VStr key) = Some kk →
  cellAt g1 (R + 1) (kk + 1) = stored (Lit val).
Proof using Hlit Hspan Hcim Hkeys Hdistinct.
  intros Hu Hval Hkk. destruct second_lengths as (Hrows & Hcols & Hc).
  pose proof Hu as (Hin & _ & HR & Hm & _)%(update_target g data columnToMatch cim).
  rewrite second_cellAt_g1, decide_False by lia.
  unfold gU. rewrite cellAt_updatedSheet.
  assert (hitOf (headerRow g) R rec (R + 1) (kk + 1) = Some val) as Hhit.
  { apply hitOf_Some. split; [done|]. split; [lia|]. exists key.
    by replace (kk + 1 - 1) with kk by lia. }
  destruct (lastHit_is_Some (headerRow g) updates (R + 1) (kk + 1) (R, rec) val Hu Hhit)
    as [v' Hv']. rewrite Hv'.
  apply lastHit_Some in Hv' as ([R' rec'] & Hu' & (HR' & _ & key' & Hk' & Hval')%hitOf_Some).
  cbn [fst snd] in *. replace (kk + 1 - 1) with kk in Hk' by lia.
  pose proof (indexOf_inj _ _ _ _ Hk' Hkk) as ->.
  apply (update_target g data columnToMatch cim) in Hu' as (Hin' & _ & _ & Hm' & _).
  assert (R' = R) as -> by lia.
  assert (rec' = rec) as -> by (apply Hdistinct; congruence). congruence.
Qed.

(** The row the second call finds for a record is the one the first call
    updated or inserted it at. *)
Lemma second_target (rec : record) (R : nat) :
  rec ∈ data →
  mapGet (prop rec columnToMatch) (existingRows (sheetDataOf g1) cim) = Some R →
  (R, rec) ∈ updates ∨ ∃ k, news !! k = Some rec ∧ R = lastRow g + k.
Proof using Hlit Hspan Hcim Hkeys Hdistinct.
  intros Hin Hget. destruct second_lengths as (Hrows & Hcols & Hc).
  pose proof second_lastRow_pos as Hpos. destruct (Hkeys rec Hin) as [Hf Hd].
  apply existingRows_Some in Hget as (HR & [_ Hm] & Hlast).
  rewrite length_sheetDataOf, second_lastRow_g1 in HR, Hlast.
  apply sameValue_eq in Hm. fold (matchValue g1 cim R) in Hm.
  destruct (decide (R < lastRow g)) as [Hold|Hnew].
  - left. rewrite second_matchValue_old in Hm by done.
    destruct (mapGet (prop rec columnToMatch) m) as [R0|] eqn:E0.
    + pose proof E0 as (HR0 & [_ Hm0] & Hlast0)%existingRows_Some.
      apply sameValue_eq in Hm0. fold (matchValue g cim R0) in Hm0.
      assert (R0 = R) as ->.
      { destruct (decide (R0 < R)) as [Hlt|].
        - destruct (Hlast0 R ltac:(lia)). by apply second_rowMatches.
        - destruct (decide (R < R0)) as [Hlt|]; [|lia].
          destruct (Hlast R0 ltac:(lia)). apply second_rowMatches; [done|].
          rewrite second_matchValue_old by lia. done. }
      unfold updates, existingUpdatesOf. apply list_elem_of_omap. exists rec.
      split; [done|]. unfold isNewRecord, mapHas. fold m. by rewrite Hf, E0.
    + destruct (existingRows_None _ _ _ E0 R ltac:(lia)). by apply second_rowMatches.
  - right. exists (R - lastRow g).
    destruct (lookup_lt_is_Some_2 news (R - lastRow g)) as [rec' Hrec']; [lia|].
    pose proof (second_matchValue_new _ rec' Hrec') as Hm'.
    replace (lastRow g + (R - lastRow g)) with R in Hm' by lia.
    destruct (second_new_record _ rec' Hrec') as [Hin' _].
    assert (rec' = rec) as -> by (apply Hdistinct; congruence).
    split; [done | lia].
Qed.

(** Every record finds a row in the second call. *)
Lemma second_all_matched (rec : record) :
  rec ∈ data →
  is_Some (mapGet (prop rec columnToMatch) (existingRows (sheetDataOf g1) cim)).
Proof using Hlit Hspan Hcim Hkeys.
  intros Hin. destruct second_lengths as (Hrows & Hcols & Hc).
  pose proof second_lastRow_pos as Hpos. destruct (Hkeys rec Hin) as [Hf Hd].
  destruct (mapGet _ (existingRows (sheetDataOf g1) cim)) as [R|] eqn:E; [by eexists|].
  exfalso. pose proof (existingRows_None _ _ _ E) as Hnone.
  rewrite length_sheetDataOf, second_lastRow_g1 in Hnone.
  destruct (mapGet (prop rec columnToMatch) m) as [R0|] eqn:E0.
  - pose proof E0 as (HR0 & [_ Hm0] & _)%existingRows_Some.
    apply sameValue_eq in Hm0. fold (matchValue g cim R0) in Hm0.
    apply (Hnone R0); [lia|]. apply second_rowMatches; [done|].
    by rewrite second_matchValue_old by lia.
  - assert (rec ∈ news) as [k Hk]%list_elem_of_lookup_1.
    { unfold news, newRecordsOf. apply list_elem_of_filter. split; [|done].
      unfold isNewRecord, mapHas. fold m. by rewrite Hf, E0. }
    pose proof (lookup_lt_Some _ _ _ Hk).
    apply (Hnone (lastRow g + k)); [lia|]. apply second_rowMatches; [done|].
    by apply second_matchValue_new.
Qed.

(** The second call changes no cell. *)
Lemma second_call_cells (r c : nat) :
  cellAt (upsertedSheet data columnToMatch g1) r c = cellAt g1 r c.
Proof using Hlit Hspan Hcim Hkeys Hdistinct.
  unfold upsertedSheet at 1. rewrite second_headerRow_g1, Hcim. cbn zeta.
  assert (newRecordsOf (existingRows (sheetDataOf g1) cim) columnToMatch data = []) as ->.
  { destruct (newRecordsOf (existingRows (sheetDataOf g1) cim) columnToMatch data)
      as [|x l] eqn:E; [done|]. exfalso.
    assert (x ∈ newRecordsOf (existingRows (sheetDataOf g1) cim) columnToMatch data) as Hx
      by (rewrite E; by left).
    unfold newRecordsOf in Hx. apply list_elem_of_filter in Hx as [Hnew Hin].
    destruct (Hkeys x Hin) as [Hf _]. destruct (second_all_matched x Hin) as [R HR].
    unfold isNewRecord, mapHas in Hnew. by rewrite Hf, HR in Hnew. }
  simpl. rewrite cellAt_updatedSheet.
  destruct (lastHit _ _ r c) as [v|] eqn:E; [|done].
  apply lastHit_Some in E as ([R rec] & Hu & (-> & Hc & key & Hk & Hv)%hitOf_Some).
  cbn [fst snd] in *.
  apply elem_of_existingUpdatesOf in Hu as (Hin & _ & Hget).
  replace c with (c - 1 + 1) by lia.
  destruct (second_target rec R Hin Hget) as [Hu|(k & Hnk & ->)].
  - symmetry. by apply (second_update_cell R rec key).
  - symmetry. replace (lastRow g + k + 1) with (lastRow g + 1 + k) by lia.
    by apply (second_inserted_cell k rec key).
Qed.

End SecondUpsert.

Lemma sheetAfter_upsertRows_nil (columnToMatch : string) (headerRowIndex : nat) (g : grid) :
  sheetAfter (upsertRows [] columnToMatch headerRowIndex) g = g.
Proof. done. Qed.


(** ** Encoding, then decoding *)

Lemma valueAt_stored (g : grid) (r c : nat) (v : value) :
  cellAt g r c = stored (Lit v) → valueAt g r c = shownValue v.
Proof.
  unfold valueAt, stored, shownValue. intros ->. simpl. by destruct (blankValue v).
Qed.

Lemma shownValue_nonEmpty (v : value) : nonEmpty v = true → shownValue v = v.
Proof. unfold shownValue, blankValue. by intros ->. Qed.

Lemma nonEmpty_neStr (v : value) : nonEmpty v = true → neStr v = true.
Proof. unfold nonEmpty. by intros [[? _]%andb_true_iff _]%andb_true_iff. Qed.

Section DecodeLine.

Variables (displayData : option (list (list string))) (rowIndex : nat).
Variables (row : list value) (rec : record).
Hypothesis Hvalues : ∀ key val, rec !! key = Some val →
  nonEmpty val = true ∧ (is_Some displayData → isDate val = false).

Lemma decodeCell_spec (obj : record) (j : nat) (h : value) :
  (∀ k v, obj !! k = Some v → rec !! k = Some v) →
  row !!! j = shownValue (fieldOrEmpty rec h) →
  let obj' := decodeCell displayData rowIndex row obj (j, h) in
  (∀ k v, obj' !! k = Some v → rec !! k = Some v)
  ∧ (∀ k, obj !! k = rec !! k → obj' !! k = rec !! k)
  ∧ (falsy h = false → obj' !! toKey h = rec !! toKey h).
Proof using Hvalues.
  intros Hsub Hrow. cbn zeta. unfold decodeCell.
  destruct (falsy h) eqn:Hf; [done|].
  rewrite Hrow. unfold fieldOrEmpty, hasOwnProperty, prop.
  destruct (rec !! toKey h) as [val|] eqn:Eh.
  - rewrite bool_decide_eq_true_2 by (by eexists). simpl.
    destruct (Hvalues _ _ Eh) as [Hne Hdate]. rewrite (shownValue_nonEmpty _ Hne), Hne.
    assert ((∀ k v, <[toKey h := val]> obj !! k = Some v → rec !! k = Some v)
            ∧ (∀ k, obj !! k = rec !! k → <[toKey h := val]> obj !! k = rec !! k)
            ∧ (false = false → <[toKey h := val]> obj !! toKey h = Some val)) as Hins.
    { split_and!.
      - intros k v. destruct (decide (k = toKey h)) as [->|Hk].
        + rewrite lookup_insert_eq. congruence.
        + rewrite lookup_insert_ne by done. apply Hsub.
      - intros k Hk. destruct (decide (k = toKey h)) as [->|Hne'].
        + rewrite lookup_insert_eq. congruence.
        + by rewrite lookup_insert_ne by done.
      - intros _. by rewrite lookup_insert_eq. }
    destruct displayData as [shown|]; [|done].
    by rewrite Hdate by (by eexists).
  - rewrite bool_decide_eq_false_2 by (by intros [? ?]). simpl.
    assert ((∀ k v, obj !! k = Some v → rec !! k = Some v)
            ∧ (∀ k, obj !! k = rec !! k → obj !! k = rec !! k)
            ∧ (false = false → obj !! toKey h = None)) as Hsame.
    { split_and!; [done | done |]. intros _.
      destruct (obj !! toKey h) as [v|] eqn:Eo; [|done].
      apply Hsub in Eo. congruence. }
    by destruct displayData.
Qed.

Lemma decodeCells_spec (l : list (nat * value)) :
  ∀ obj : record,
  (∀ k v, obj !! k = Some v → rec !! k = Some v) →
  (∀ j h, (j, h) ∈ l → row !!! j = shownValue (fieldOrEmpty rec h)) →
  let res := foldl (decodeCell displayData rowIndex row) obj l in
  (∀ k v, res !! k = Some v → rec !! k = Some v)
  ∧ (∀ k, obj !! k = rec !! k ∨ (∃ j h, (j, h) ∈ l ∧ falsy h = false ∧ toKey h = k) →
       res !! k = rec !! k).
Proof using Hvalues.
  induction l as [|[j h] l IH]; intros obj Hsub Hrow; cbn zeta.
  - split; [done|]. intros k [?|(? & ? & []%elem_of_nil & _)]. done.
  - simpl.
    destruct (decodeCell_spec obj j h Hsub (Hrow j h ltac:(by left))) as (Hsub' & Hkeep & Hhit).
    destruct (IH _ Hsub' (λ j' h' Hin, Hrow j' h' ltac:(by right))) as [Hres Hlook].
    split; [done|]. intros k [Hk|(j' & h' & [[= -> ->]|Hin]%elem_of_cons & Hf & Hkey)].
    + apply Hlook. left. by apply Hkeep.
    + apply Hlook. left. subst k. by apply Hhit.
    + apply Hlook. right. by exists j', h'.
Qed.

End DecodeLine.

(** A line that shows the encoding of a decodable record decodes to the
    record. *)
Lemma rowToObject_encoded (displayData : option (list (list string)))
    (headers : list value) (rowIndex : nat) (row : list value) (rec : record) :
  decodable (bool_decide (is_Some displayData)) headers rec →
  (∀ j, j < length headers → row !!! j = shownValue (fieldOrEmpty rec (headers !!! j))) →
  rowToObject displayData headers rowIndex row = rec.
Proof.
  intros Hdec Hrow. unfold rowToObject.
  destruct (decodeCells_spec displayData rowIndex row rec) with
    (l := indexed headers) (obj := (∅ : record)) as [_ Hlook].
  - intros key val Hval. destruct (Hdec key val Hval) as (? & Hd & _). split; [done|].
    intros. apply Hd. by apply bool_decide_eq_true_2.
  - intros k v. by rewrite lookup_empty.
  - intros j h Hin%elem_of_indexed. pose proof (lookup_lt_Some _ _ _ Hin).
    rewrite Hrow by done. by rewrite (list_lookup_total_correct _ _ _ Hin).
  - apply map_eq. intros k. apply Hlook.
    destruct (rec !! k) as [val|] eqn:Ek; [|left; by rewrite lookup_empty].
    right. destruct (Hdec k val Ek) as (_ & _ & h & [j Hj]%list_elem_of_lookup_1 & Hf & Hkey).
    exists j, h. split; [by apply elem_of_indexed | done].
Qed.

Lemma foldl_keep {A B : Type} (l : list B) (a : A) : foldl (λ x _, x) a l = a.
Proof. by induction l. Qed.

Lemma restoreFormulas_none (startIndex : nat) (formulas : list (list string)) (g : grid) :
  (∀ i j, (formulas !!! i) !!! j = "") →
  restoreFormulas startIndex formulas g = (Returned (), g).
Proof.
  intros Hnone. unfold restoreFormulas.
  rewrite (run_forEach _ _ (λ g' _, g')); [by rewrite foldl_keep|].
  intros i g' _. rewrite (run_forEach _ _ (λ g'' _, g'')); [by rewrite foldl_keep|].
  intros j g'' _. by rewrite Hnone.
Qed.

Lemma literalOnly_formulaAt (g : grid) (r c : nat) : literalOnly g → formulaAt g r c = "".
Proof.
  intros Hlit. unfold formulaAt, cellAt.
  destruct (g !! (r, c)) as [x|] eqn:E; [|done].
  pose proof (Hlit _ _ E) as Hx. destruct x as [v|]; [|done].
  unfold stored. by destruct (blankContent (Lit v)).
Qed.

Lemma literalOnly_formulas (g : grid) (rg : range) (i j : nat) :
  literalOnly g → (readBlock (formulaAt g) rg !!! i) !!! j = "".
Proof.
  intros Hlit. destruct (decide (i < rRows rg)) as [Hi|Hi].
  - rewrite readBlock_row by done.
    destruct (decide (j < rCols rg)) as [Hj|Hj].
    + rewrite (list_lookup_total_fmap (λ j0, formulaAt g (rRow rg + i) (rCol rg + j0))
                 (seq 0 (rCols rg))) by (by rewrite length_seq).
      by apply literalOnly_formulaAt.
    + rewrite list_lookup_total_alt, lookup_ge_None_2; [done|].
      rewrite length_fmap, length_seq. lia.
  - rewrite (list_lookup_total_alt (readBlock _ _)), lookup_ge_None_2; [done|].
    rewrite length_readBlock. lia.
Qed.

Lemma overwrite_cells (array : list record) (headerIndex startIndex : nat)
    (options : writeOptions) (g : grid) :
  literalOnly g → mode options = "overwrite" →
  1 ≤ headerIndex → 1 ≤ startIndex → 1 ≤ lastColumn g → array ≠ [] →
  ∀ r c, cellAt (sheetAfter (writeNormal array headerIndex startIndex options) g) r c
         = overwritten array headerIndex startIndex g r c.
Proof.
  intros Hlit Hmode Hh Hs Hcol Harray.
  apply (post_sheetAfter _ _ (λ g', ∀ r c, cellAt g' r c
           = overwritten array headerIndex startIndex g r c)).
  assert (∀ r c, lastRow g < r ∨ lastColumn g < c → 1 ≤ r → 1 ≤ c → cellAt g r c = Blank)
    as Hb by (intros; by apply cellAt_beyond).
  assert (0 < length array) as Hlen0 by (destruct array; [done | simpl; lia]).
  unfold writeNormal, overwritten. rewrite Hmode.
  rewrite bool_decide_eq_true_2 by done.
  do 4 wp_step; [|exfalso; unfold validRange in *; lia].
  do 2 wp_step.
  pose proof (length_headers g headerIndex (lastColumn g)) as Hlen.
  fold (headerLine g headerIndex) in *.
  set (headers := headerLine g headerIndex) in *.
  assert (length ((λ obj, fieldOrEmpty obj <$> headers) <$> array) = length array) as Hlena
    by (by rewrite length_fmap).
  assert (∀ i j, i < length array → j < length headers →
            (((λ obj, fieldOrEmpty obj <$> headers) <$> array) !!! i) !!! j
            = fieldOrEmpty (array !!! i) (headers !!! j)) as Hcell.
  { intros i j Hi Hj.
    rewrite (list_lookup_total_fmap (λ obj, fieldOrEmpty obj <$> headers) array) by done.
    by rewrite (list_lookup_total_fmap (fieldOrEmpty (array !!! i)) headers) by done. }
  pose proof (length_encoded array headers) as Hrect.
  rewrite Hlena, Hlen in Hrect |- *. replace (0 <? length array) with true
    by (symmetry; by apply Nat.ltb_lt).
  assert (∀ g0 : grid,
            (∀ r c, cellAt g0 r c
                    = if decide (startIndex ≤ r ∧ 1 ≤ c ≤ lastColumn g) then Blank
                      else cellAt g r c) →
            post (when true (
                    target ← getRange startIndex 1 (length array) (lastColumn g);
                    setValues target ((λ obj, fieldOrEmpty obj <$> headers) <$> array))) g0
              (λ o g', (∃ a, o = Returned a)
                       ∧ ∀ r c, cellAt g' r c
                                = overwritten array headerIndex startIndex g r c)) as Hwrite.
  { intros g0 Hg0. unfold overwritten. fold headers.
    repeat wp_step; try congruence; try (exfalso; unfold validRange in *; lia).
    split; [by eexists|]. intros r c. rewrite (cellAt_setValues _ _ _ _ _ _ _ _ Hrect), Hg0.
    split_decides; try lia; try done.
    by rewrite Hcell by lia. }
  do 2 wp_step. wp_step.
  - apply andb_true_iff in Heqb as [Hp Hl%Nat.leb_le].
    do 2 wp_step; [|exfalso; unfold validRange in *; lia]. do 4 wp_step.
    apply (post_bind_ret (λ g', ∀ r c, cellAt g' r c
             = overwritten array headerIndex startIndex g r c)).
    + apply Hwrite. intros r c. rewrite cellAt_fill.
      split_decides; try lia; try done. (apply Hb || (symmetry; apply Hb)); lia.
    + intros _ g' Hg'. unfold post. rewrite restoreFormulas_none; [done|].
      intros i j. by apply literalOnly_formulas.
  - wp_step. apply (post_bind_ret (λ g0, ∀ r c, cellAt g0 r c
             = if decide (startIndex ≤ r ∧ 1 ≤ c ≤ lastColumn g) then Blank
               else cellAt g r c)).
    + repeat wp_step; change ((getLastRow g).2) with g in *;
        try (exfalso; unfold validRange in *; bool_hyps; lia).
      * split; [by eexists|]. intros r c. bool_hyps. rewrite cellAt_fill.
        split_decides; try lia; try done. (apply Hb || (symmetry; apply Hb)); lia.
      * split; [by eexists|]. intros r c. bool_hyps.
        split_decides; try lia; try done. (apply Hb || (symmetry; apply Hb)); lia.
    + intros _ g0 Hg0. eapply post_mono; [by apply Hwrite|]. by intros o g' [_ ?].
Qed.

Lemma filter_all {A : Type} (P : A → Prop) `{!∀ x, Decision (P x)} (l : list A) :
  (∀ x, x ∈ l → P x) → filter P l = l.
Proof.
  induction l as [|x l IH]; intros Hall; [done|].
  rewrite filter_cons_True by (apply Hall; by left).
  f_equal. apply IH. intros y Hy. apply Hall. by right.
Qed.

Lemma lookup_indexed {A : Type} (l : list A) (i : nat) :
  indexed l !! i = (λ x, (i, x)) <$> l !! i.
Proof.
  unfold indexed. rewrite lookup_zip_with.
  destruct (l !! i) as [x|] eqn:E.
  - pose proof (lookup_lt_Some _ _ _ E). by rewrite lookup_seq_lt by done.
  - apply lookup_ge_None in E. by rewrite lookup_seq_ge by done.
Qed.

(** Lines that show the encodings of decodable records with at least one
    field each decode to those records. *)
Lemma decodeLines_encoded (headers : list value) (data : list (list value))
    (displayData : option (list (list string))) (array : list record) :
  length data = length array → array ≠ [] →
  (∀ i rec, array !! i = Some rec →
     rec ≠ ∅ ∧ decodable (bool_decide (is_Some displayData)) headers rec
     ∧ ∀ j, j < length headers →
         (data !!! i) !!! j = shownValue (fieldOrEmpty rec (headers !!! j))) →
  decodeLines headers data displayData = DRecords array.
Proof.
  intros Hlen Hne Hrows. unfold decodeLines. cbn zeta.
  rewrite filter_all.
  2:{ intros row [i Hi]%list_elem_of_lookup_1.
      pose proof (lookup_lt_Some _ _ _ Hi) as Hlt. rewrite Hlen in Hlt.
      destruct (lookup_lt_is_Some_2 array i Hlt) as [rec Hrec].
      destruct (Hrows i rec Hrec) as (Hrec0 & Hdec & Hcells).
      apply map_choose in Hrec0 as (key & val & Hval).
      destruct (Hdec key val Hval) as (Hnv & _ & h & [j Hj]%list_elem_of_lookup_1 & Hf & Hkey).
      pose proof (lookup_lt_Some _ _ _ Hj) as Hjlt.
      specialize (Hcells j Hjlt). rewrite (list_lookup_total_correct _ _ _ Hi) in Hcells.
      rewrite (list_lookup_total_correct _ _ _ Hj) in Hcells.
      unfold fieldOrEmpty, hasOwnProperty, prop in Hcells. rewrite Hkey, Hval in Hcells.
      rewrite bool_decide_eq_true_2 in Hcells by (by eexists). simpl in Hcells.
      rewrite shownValue_nonEmpty in Hcells by done.
      apply existsb_exists. exists val. split; [|by apply nonEmpty_neStr].
      apply list_elem_of_In. rewrite <- Hcells. apply list_elem_of_lookup_total_2.
      destruct (decide (j < length row)) as [|Hge]; [done|]. exfalso.
      rewrite list_lookup_total_alt, lookup_ge_None_2 in Hcells by lia.
      simpl in Hcells. subst val. done. }
  rewrite bool_decide_eq_false_2 by (rewrite Hlen; by destruct array).
  f_equal. apply list_eq. intros i. rewrite list_lookup_fmap, lookup_indexed.
  destruct (array !! i) as [rec|] eqn:Hrec.
  - pose proof (lookup_lt_Some _ _ _ Hrec) as Hlt. rewrite <- Hlen in Hlt.
    destruct (lookup_lt_is_Some_2 data i Hlt) as [row Hrow]. rewrite Hrow. simpl. f_equal.
    destruct (Hrows i rec Hrec) as (_ & Hdec & Hcells).
    apply rowToObject_encoded; [done|].
    by rewrite (list_lookup_total_correct _ _ _ Hrow) in Hcells.
  - apply lookup_ge_None in Hrec. rewrite <- Hlen in Hrec.
    by rewrite (lookup_ge_None_2 data) by done.
Qed.

Section RoundTrip.

Variables (array : list record) (headerIndex startIndex : nat).
Variables (options : writeOptions) (g : grid) (displayDates : bool).
Hypothesis Hlit : literalOnly g.
Hypothesis Hmode : mode options = "overwrite".
Hypothesis Hindex : 1 ≤ headerIndex < startIndex.
Hypothesis Hspan : headerSpans g headerIndex.
Hypothesis Harray : array ≠ [].
Hypothesis Hrecords : ∀ rec, rec ∈ array →
  rec ≠ ∅ ∧ decodable displayDates (headerLine g headerIndex) rec.

Let g' := sheetAfter (writeNormal array headerIndex startIndex options) g.

Lemma trip_cells (r c : nat) :
  cellAt g' r c = overwritten array headerIndex startIndex g r c.
Proof using Hlit Hmode Hindex Hspan Harray.
  destruct Hspan as [? _]. apply overwrite_cells; (done || lia).
Qed.

Lemma trip_length_headers : length (headerLine g headerIndex) = lastColumn g.
Proof using Type. apply length_headers. Qed.

Lemma trip_lastColumn : lastColumn g' = lastColumn g.
Proof using Hlit Hmode Hindex Hspan Harray.
  destruct Hspan as [Hpos Hbl]. apply lastColumn_unique; [done | |].
  - exists headerIndex. split; [lia|]. rewrite trip_cells. unfold overwritten.
    by rewrite decide_False by lia.
  - intros r c Hc Hr. rewrite trip_cells. unfold overwritten.
    rewrite decide_False by lia. apply cellAt_beyond; lia.
Qed.

(** The cell a field of a record is written to. *)
Lemma trip_field (i : nat) (rec : record) (key : string) (val : value) :
  array !! i = Some rec → rec !! key = Some val →
  ∃ j, j < lastColumn g ∧ cellAt g' (startIndex + i) (j + 1) = Lit val.
Proof using Hlit Hmode Hindex Hspan Harray Hrecords.
  intros Hrec Hval. pose proof (lookup_lt_Some _ _ _ Hrec) as Hi.
  destruct (Hrecords rec (list_elem_of_lookup_2 _ _ _ Hrec)) as [_ Hdec].
  destruct (Hdec key val Hval) as (Hnv & _ & h & [j Hj]%list_elem_of_lookup_1 & Hf & Hkey).
  pose proof (lookup_lt_Some _ _ _ Hj) as Hjlt. rewrite trip_length_headers in Hjlt.
  exists j. split; [done|]. rewrite trip_cells. unfold overwritten.
  rewrite !decide_True by lia.
  replace (startIndex + i - startIndex) with i by lia. replace (j + 1 - 1) with j by lia.
  rewrite (list_lookup_total_correct _ _ _ Hrec), (list_lookup_total_correct _ _ _ Hj).
  unfold fieldOrEmpty, hasOwnProperty, prop. rewrite Hkey, Hval.
  rewrite bool_decide_eq_true_2 by (by eexists). simpl.
  apply stored_nonblank. simpl. unfold blankValue. by rewrite Hnv.
Qed.

Lemma trip_lastRow : lastRow g' = startIndex + length array - 1.
Proof using Hlit Hmode Hindex Hspan Harray Hrecords.
  assert (0 < length array) as Hlen by (destruct array; [done | simpl; lia]).
  destruct (lookup_lt_is_Some_2 array (length array - 1)) as [rec Hrec]; [lia|].
  destruct (Hrecords rec (list_elem_of_lookup_2 _ _ _ Hrec)) as [Hne _].
  apply map_choose in Hne as (key & val & Hval).
  destruct (trip_field _ rec key val Hrec Hval) as (j & Hj & Hcell).
  apply lastRow_unique; [lia | |].
  - exists (j + 1). split; [lia|].
    replace (startIndex + length array - 1) with (startIndex + (length array - 1)) by lia.
    rewrite Hcell. destruct (Hrecords rec (list_elem_of_lookup_2 _ _ _ Hrec)) as [_ Hdec].
    destruct (Hdec key val Hval) as (Hnv & _). simpl. unfold blankValue. by rewrite Hnv.
  - intros r c Hr Hc. rewrite trip_cells. unfold overwritten.
    destruct (decide (startIndex ≤ r ∧ 1 ≤ c ≤ lastColumn g)).
    + by rewrite decide_False by lia.
    + apply cellAt_beyond; lia.
Qed.

Lemma trip_headerLine : headerLine g' headerIndex = headerLine g headerIndex.
Proof using Hlit Hmode Hindex Hspan Harray.
  unfold headerLine. rewrite trip_lastColumn.
  rewrite !readBlock_row by (cbn [rRows]; lia). cbn [rRow rCol rCols].
  apply list_fmap_ext. intros i j _.
  unfold valueAt at 1. rewrite trip_cells. unfold overwritten.
  rewrite decide_False by lia. by rewrite (literalOnly_cellAt g _ _ Hlit).
Qed.

Lemma trip_shown (i j : nat) :
  i < length array → j < lastColumn g →
  valueAt g' (startIndex + i) (1 + j)
  = shownValue (fieldOrEmpty (array !!! i) (headerLine g headerIndex !!! j)).
Proof using Hlit Hmode Hindex Hspan Harray.
  intros Hi Hj. apply valueAt_stored. rewrite trip_cells. unfold overwritten.
  rewrite !decide_True by lia.
  replace (startIndex + i - startIndex) with i by lia. by replace (1 + j - 1) with j by lia.
Qed.

Lemma trip_decode (shown : list (list string)) :
  decodeLines (headerLine g headerIndex)
    (readBlock (valueAt g') (Range startIndex 1 (length array) (lastColumn g)))
    (if displayDates then Some shown else None)
  = DRecords array.
Proof using Hlit Hmode Hindex Hspan Harray Hrecords.
  apply decodeLines_encoded; [by rewrite length_readBlock | done |].
  intros i rec Hrec. pose proof (lookup_lt_Some _ _ _ Hrec) as Hi.
  destruct (Hrecords rec (list_elem_of_lookup_2 _ _ _ Hrec)) as [Hne Hdec].
  split; [done|]. split; [by destruct displayDates|].
  intros j Hj. rewrite trip_length_headers in Hj.
  rewrite readBlock_cell by done. cbn [rRow rCol].
  rewrite trip_shown by done. by rewrite (list_lookup_total_correct _ _ _ Hrec).
Qed.

End RoundTrip.


(** * The other sheet helpers: properties *)

(** ** clearSheetContentFromRow *)

Lemma post_run {A : Type} (m : Script A) (g : grid) (Q : outcome A → grid → Prop) :
  post m g Q → Q (resultOf m g) (sheetAfter m g).
Proof. done. Qed.

Lemma lastRow_below (g : grid) (n : nat) :
  (∀ r c, n < r → 1 ≤ c → cellAt g r c = Blank) → lastRow g ≤ n.
Proof.
  intros Hblank. destruct (decide (lastRow g ≤ n)) as [|Hgt]; [done|].
  destruct (lastRow_reached g) as (c & Hc & Hocc); [lia|].
  rewrite Hblank in Hocc by lia. done.
Qed.

(** X1: clearing from a start row on the grid returns normally, blanks
    every cell from that row down, formulas included, leaves every cell
    above it as it was, and so leaves no content at or below the start
    row. *)
Theorem clear_from_row (startRow : nat) (g : grid) :
  1 ≤ startRow →
  let g' := sheetAfter (clearSheetContentFromRow startRow) g in
  resultOf (clearSheetContentFromRow startRow) g = Returned ()
  ∧ (∀ r c, 1 ≤ c → cellAt g' r c = if decide (startRow ≤ r) then Blank else cellAt g r c)
  ∧ lastRow g' < startRow.
Proof.
  intros Hs. cbn zeta.
  assert (resultOf (clearSheetContentFromRow startRow) g = Returned ()
          ∧ ∀ r c, 1 ≤ c →
              cellAt (sheetAfter (clearSheetContentFromRow startRow) g) r c
              = if decide (startRow ≤ r) then Blank else cellAt g r c) as [Hres Hcells].
  { apply (post_run _ _ (λ o g', o = Returned () ∧ ∀ r c, 1 ≤ c →
             cellAt g' r c = if decide (startRow ≤ r) then Blank else cellAt g r c)).
    unfold clearSheetContentFromRow.
    do 4 wp_step. wp_step.
    - bool_hyps. assert (1 ≤ lastColumn g) by (apply lastRow_lastColumn_pos; lia).
      do 2 wp_step; [|exfalso; unfold validRange in *; lia].
      wp_step. split; [done|]. intros r c Hc. rewrite cellAt_fill.
      split_decides; try lia; try done.
      apply cellAt_beyond; lia.
    - bool_hyps. split; [done|]. intros r c Hc.
      destruct (decide (startRow ≤ r)); [|done]. apply cellAt_beyond; lia. }
  split; [done|]. split; [done|].
  pose proof (lastRow_below (sheetAfter (clearSheetContentFromRow startRow) g)
                (startRow - 1)) as Hlast.
  enough (lastRow (sheetAfter (clearSheetContentFromRow startRow) g) ≤ startRow - 1) by lia.
  apply Hlast. intros r c Hr Hc. rewrite Hcells by done. by rewrite decide_True by lia.
Qed.

(** ** objectsToSheet *)

Lemma run_bind {A B : Type} (m : Script A) (k : A → Script B) (g : grid) :
  (m ≫= k) g = match m g with
               | (Returned a, g') => k a g'
               | (Thrown e, g') => (Thrown e, g')
               end.
Proof. done. Qed.

Lemma run_getRange_ok (r c nr nc : nat) (g : grid) :
  1 ≤ r → 1 ≤ c → 1 ≤ nr → 1 ≤ nc → getRange r c nr nc g = (Returned (Range r c nr nc), g).
Proof.
  intros. unfold getRange.
  by rewrite !(proj2 (Nat.leb_le _ _)) by done.
Qed.

Lemma run_getRange_bad (r c nr nc : nat) (g : grid) :
  r = 0 ∨ c = 0 ∨ nr = 0 ∨ nc = 0 →
  getRange r c nr nc g = (Thrown "Exception: the range is not valid", g).
Proof.
  intros Hbad. unfold getRange.
  destruct (1 <=? r) eqn:E1, (1 <=? c) eqn:E2, (1 <=? nr) eqn:E3, (1 <=? nc) eqn:E4;
    try done.
  bool_hyps. lia.
Qed.

(** Running the reads at the head of a script. *)
Ltac run_reads :=
  repeat (rewrite !run_bind;
          cbn [getLastColumn getLastRow getValues getFormulas getDisplayValues
               getDataRange reads]).

(** X2: in its two modes the first encoder does what the second does in
    normal orientation without formula preservation: the same outcome and
    the same sheet, on every sheet and for every input. *)
Theorem objectsToSheet_agrees (array : list record) (headerRowIndex startRowIndex : nat)
    (how : string) (g : grid) :
  how = "overwrite" ∨ how = "append" →
  objectsToSheet array headerRowIndex startRowIndex how g
  = objectsToSheetV2 array headerRowIndex startRowIndex (WriteOptions how false false) g.
Proof.
  intros Hmode. unfold objectsToSheetV2, objectsToSheet, writeNormal. cbn [pivot negb].
  run_reads.
  destruct (decide (1 ≤ headerRowIndex ∧ 1 ≤ lastColumn g)) as [[Hh Hc]|Hbad].
  2:{ rewrite !run_getRange_bad by lia. done. }
  rewrite !run_getRange_ok by done. run_reads.
  pose proof (length_headers g headerRowIndex (lastColumn g)) as Hlen.
  set (headers := readBlock (valueAt g) (Range headerRowIndex 1 1 (lastColumn g)) !!! 0) in *.
  cbn [mode preserveFormulas].
  destruct Hmode as [-> | ->].
  - rewrite !bool_decide_eq_true_2 by done. cbn [andb].
    unfold clearSheetContentFromRow. run_reads. rewrite Hlen.
    destruct (startRowIndex <=? lastRow g) eqn:E; [|done].
    cbn [when]. run_reads. done.
  - rewrite (bool_decide_eq_false_2 ("append" = "overwrite")) by done.
    by rewrite !bool_decide_eq_true_2 by done.
Qed.

(** ** Modes the encoders reject, and the sheet without content *)

(** X3: the first encoder knows two modes only: with any other mode,
    overlay included, it throws and leaves the sheet as it was; on a sheet
    with content and a header row on the grid the error is the
    invalid-mode error. *)
Theorem objectsToSheet_rejects_mode (array : list record) (headerRowIndex startRowIndex : nat)
    (how : string) (g : grid) :
  how ≠ "overwrite" → how ≠ "append" →
  sheetAfter (objectsToSheet array headerRowIndex startRowIndex how) g = g
  ∧ (∃ e, resultOf (objectsToSheet array headerRowIndex startRowIndex how) g = Thrown e)
  ∧ (1 ≤ headerRowIndex → 1 ≤ lastRow g →
     resultOf (objectsToSheet array headerRowIndex startRowIndex how) g
     = Thrown invalidModeV1).
Proof.
  intros H1 H2. unfold sheetAfter, resultOf, objectsToSheet. run_reads.
  destruct (decide (1 ≤ headerRowIndex ∧ 1 ≤ lastColumn g)) as [[Hh Hc]|Hbad].
  - rewrite !run_getRange_ok by done. run_reads.
    rewrite !bool_decide_eq_false_2 by done. split; [done|]. split; [by eexists | done].
  - rewrite !run_getRange_bad by lia. split; [done|]. split; [by eexists|].
    intros Hh Hr. apply lastRow_lastColumn_pos in Hr. lia.
Qed.

(** X4: the second encoder knows three modes: with any other mode it
    throws and leaves the sheet as it was, in either orientation; on a
    sheet with content and a header index on the grid the error is the
    invalid-mode error. *)
Theorem objectsToSheetV2_rejects_mode (array : list record) (headerIndex startIndex : nat)
    (options : writeOptions) (g : grid) :
  mode options ≠ "overwrite" → mode options ≠ "append" → mode options ≠ "overlay" →
  sheetAfter (objectsToSheetV2 array headerIndex startIndex options) g = g
  ∧ (∃ e, resultOf (objectsToSheetV2 array headerIndex startIndex options) g = Thrown e)
  ∧ (1 ≤ headerIndex → 1 ≤ lastRow g →
     resultOf (objectsToSheetV2 array headerIndex startIndex options) g
     = Thrown invalidMode).
Proof.
  intros H1 H2 H3. unfold sheetAfter, resultOf, objectsToSheetV2.
  destruct (pivot options); cbn [negb].
  - unfold writePivot. run_reads.
    destruct (decide (1 ≤ headerIndex ∧ 1 ≤ lastRow g)) as [[Hh Hc]|Hbad].
    + rewrite !run_getRange_ok by done. run_reads.
      rewrite !bool_decide_eq_false_2 by done. split; [done|]. split; [by eexists | done].
    + rewrite !run_getRange_bad by lia. split; [done|]. split; [by eexists|]. lia.
  - unfold writeNormal. run_reads.
    destruct (decide (1 ≤ headerIndex ∧ 1 ≤ lastColumn g)) as [[Hh Hc]|Hbad].
    + rewrite !run_getRange_ok by done. run_reads.
      rewrite !bool_decide_eq_false_2 by done. split; [done|]. split; [by eexists | done].
    + rewrite !run_getRange_bad by lia. split; [done|]. split; [by eexists|].
      intros Hh Hr. apply lastRow_lastColumn_pos in Hr. lia.
Qed.

(** X5: on a sheet without content the second encoder and the decoder
    throw, whatever the arguments, because the header range has no extent;
    the sheet stays as it was, and the decoder does not get to return
    [null]. *)
Theorem empty_sheet_throws (g : grid) :
  lastRow g = 0 →
  (∀ array headerIndex startIndex options,
     sheetAfter (objectsToSheetV2 array headerIndex startIndex options) g = g
     ∧ ∃ e, resultOf (objectsToSheetV2 array headerIndex startIndex options) g = Thrown e)
  ∧ (∀ headerIndex startIndex options,
       sheetAfter (sheetToObjectsV2 headerIndex startIndex options) g = g
       ∧ ∃ e, resultOf (sheetToObjectsV2 headerIndex startIndex options) g = Thrown e).
Proof.
  intros Hrow.
  assert (lastColumn g = 0) as Hcol.
  { pose proof (lastRow_lastColumn_pos g) as [_ H].
    destruct (decide (1 ≤ lastColumn g)) as [Hc|]; [apply H in Hc |]; lia. }
  split.
  - intros array headerIndex startIndex options.
    unfold sheetAfter, resultOf, objectsToSheetV2.
    destruct (pivot options); cbn [negb].
    + unfold writePivot. run_reads. rewrite !run_getRange_bad by lia.
      split; [done | by eexists].
    + unfold writeNormal. run_reads. rewrite !run_getRange_bad by lia.
      split; [done | by eexists].
  - intros headerIndex startIndex options.
    unfold sheetAfter, resultOf, sheetToObjectsV2.
    destruct (readPivot options); cbn [negb]; run_reads;
      rewrite !run_getRange_bad by lia; (split; [done | by eexists]).
Qed.

(** ** Guards of upsertRows and findAndUpdateRows *)

(** X6: [upsertRows] with an empty list returns at once, whatever the
    sheet and the match column; with records and a match column that is
    not a header it throws the column-not-found error; in both cases the
    sheet is as it was. *)
Theorem upsertRows_guards (data : list record) (columnToMatch : string)
    (headerRowIndex : nat) (g : grid) :
  (upsertRows [] columnToMatch headerRowIndex g = (Returned (), g))
  ∧ (data ≠ [] → indexOf (headerRow g) (VStr columnToMatch) = None →
     upsertRows data columnToMatch headerRowIndex g
     = (Thrown (columnNotFound columnToMatch), g)).
Proof.
  split; [done|]. intros Hdata Hcol. unfold upsertRows.
  rewrite bool_decide_eq_false_2 by (by destruct data). run_reads.
  change (readBlock (valueAt g) _) with (sheetDataOf g).
  change (sheetDataOf g !!! 0) with (headerRow g). by rewrite Hcol.
Qed.

(** X7: [findAndUpdateRows] returns without a change when the sheet has
    fewer than two rows, even if the match column is missing; with two
    rows or more and a match column that is not a header it throws the
    column-not-found error and changes nothing; and when the match column
    is there but none of the named columns is a header it returns without
    a change. *)
Theorem findAndUpdateRows_guards (data : list record) (columnToMatch : string)
    (columnsToAdd : list string) (g : grid) :
  (lastRow g ≤ 1 →
   findAndUpdateRows data columnToMatch columnsToAdd g = (Returned (), g))
  ∧ (2 ≤ lastRow g → indexOf (headerRow g) (VStr columnToMatch) = None →
     findAndUpdateRows data columnToMatch columnsToAdd g
     = (Thrown (columnNotFound columnToMatch), g))
  ∧ (is_Some (indexOf (headerRow g) (VStr columnToMatch)) →
     (∀ name, name ∈ columnsToAdd → indexOf (headerRow g) (VStr name) = None) →
     findAndUpdateRows data columnToMatch columnsToAdd g = (Returned (), g)).
Proof.
  assert (∀ g0 : grid, findAndUpdateRows data columnToMatch columnsToAdd g0
            = (if length (sheetDataOf g0) <? 2 then mret ()
               else
                 match indexOf (headerRow g0) (VStr columnToMatch) with
                 | None => throw (columnNotFound columnToMatch)
                 | Some cim =>
                     let columnsInfo := columnsInfoOf (headerRow g0) columnsToAdd in
                     if bool_decide (length columnsInfo = 0) then mret ()
                     else
                       let dataLookup := dataLookupOf data columnToMatch in
                       let rowsToUpdate := rowsToUpdateOf (sheetDataOf g0) cim dataLookup in
                       if bool_decide (length rowsToUpdate = 0) then mret ()
                       else
                         forEach columnsInfo (λ '(columnIndex, columnName),
                           columnRange ← getRange 2 (columnIndex + 1)
                                           (length (sheetDataOf g0) - 1) 1;
                           columnValues ← getValues columnRange;
                           setValues columnRange
                             (updateColumnValues (sheetDataOf g0) cim dataLookup columnName
                                rowsToUpdate columnValues))
                 end) g0) as Hrun.
  { intros g0. unfold findAndUpdateRows. run_reads. done. }
  rewrite Hrun. rewrite length_sheetDataOf.
  split_and!.
  - intros Hr. by replace (lastRow g `max` 1 <? 2) with true by (symmetry; apply Nat.ltb_lt; lia).
  - intros Hr Hcol.
    replace (lastRow g `max` 1 <? 2) with false by (symmetry; apply Nat.ltb_ge; lia).
    by rewrite Hcol.
  - intros [cim Hcim] Hnone. destruct (lastRow g `max` 1 <? 2); [done|].
    rewrite Hcim. cbn zeta.
    assert (columnsInfoOf (headerRow g) columnsToAdd = []) as ->; [|done].
    destruct (columnsInfoOf (headerRow g) columnsToAdd) as [|[ci name] l] eqn:E; [done|].
    assert ((ci, name) ∈ columnsInfoOf (headerRow g) columnsToAdd) as Hin
      by (rewrite E; by left).
    apply elem_of_columnsInfoOf in Hin as [Hin Hi]. by rewrite Hnone in Hi.
Qed.

(** ** What findAndUpdateRows does to a sheet with formulas *)

Section ColumnRewrite.

Variables (sheetData : list (list value)) (cim : nat) (dataLookup : list (value * record)).
Variable rows : list nat.
Hypothesis Hrows : ∀ ri, ri ∈ rows → 1 ≤ ri < length sheetData.

(** The rewrite of one column, on any sheet: the rows to update take the
    matched record's value, the other rows of the column the value they
    showed. *)
Lemma cellAt_columnStep_any (g : grid) (ci : nat) (name : string) (r c : nat) :
  cellAt (columnStep sheetData cim dataLookup rows g (ci, name)) r c
  = if decide (c = ci + 1 ∧ 2 ≤ r ≤ length sheetData)
    then stored (Lit (if decide (r - 1 ∈ rows)
                      then matchedValue sheetData cim dataLookup name (r - 1)
                      else valueAt g r (ci + 1)))
    else cellAt g r c.
Proof using Hrows.
  unfold columnStep. cbn [fst snd].
  rewrite (cellAt_setValues _ _ _ _ _ _ _ _
             (updateColumnValues_rectangular sheetData cim dataLookup rows Hrows name g ci)).
  destruct (decide (2 ≤ r < 2 + (length sheetData - 1) ∧ ci + 1 ≤ c < ci + 1 + 1))
    as [[Hr Hc]|Hout].
  - assert (c = ci + 1) as -> by lia. replace (ci + 1 - (ci + 1)) with 0 by lia.
    rewrite decide_True by lia.
    set (cv := readBlock _ _).
    assert (cv !! (r - 2) = Some [valueAt g r (ci + 1)]) as Ecv.
    { subst cv. rewrite readBlock_lookup by (simpl; lia). cbn [rRow rCol rCols].
      simpl. rewrite Nat.add_0_r. by replace (S (S (r - 2))) with r by lia. }
    pose proof (updateColumnValues_lookup sheetData cim dataLookup name rows cv (r - 2)
                  ltac:(intros ? ?%Hrows; lia)) as Hl.
    rewrite Ecv in Hl. replace (r - 2 + 1) with (r - 1) in Hl by lia.
    apply list_lookup_total_correct in Hl. rewrite Hl.
    by destruct (decide (r - 1 ∈ rows)).
  - rewrite decide_False; [done|]. intros (-> & ? & ?). lia.
Qed.

Lemma cellAt_columnSteps_frame (l : list (nat * string)) (r c : nat) :
  ∀ g : grid,
  (r < 2 ∨ ∀ ci name, (ci, name) ∈ l → c ≠ ci + 1) →
  cellAt (foldl (columnStep sheetData cim dataLookup rows) g l) r c = cellAt g r c.
Proof using Hrows.
  induction l as [|[ci name] l IH]; intros g Hout; [done|].
  simpl. rewrite IH.
  - rewrite cellAt_columnStep_any. rewrite decide_False; [done|].
    intros (-> & ? & ?). destruct Hout as [?|Hout]; [lia|].
    by apply (Hout ci name); [left|].
  - destruct Hout as [?|Hout]; [by left | right].
    intros ci' name' Hin. apply (Hout ci' name'). by right.
Qed.

End ColumnRewrite.

(** X8: [findAndUpdateRows] writes only below the header row and only
    in the columns whose header is one of the named columns: every other
    cell keeps its content, formulas included. *)
Theorem findAndUpdateRows_frame (data : list record) (columnToMatch : string)
    (columnsToAdd : list string) (g : grid) (r c : nat) :
  (r < 2 ∨ ∀ name ci, name ∈ columnsToAdd →
             indexOf (headerRow g) (VStr name) = Some ci → c ≠ ci + 1) →
  cellAt (sheetAfter (findAndUpdateRows data columnToMatch columnsToAdd) g) r c
  = cellAt g r c.
Proof.
  intros Hout. rewrite sheetAfter_findAndUpdateRows. unfold foundSheet. cbn zeta.
  destruct (length (sheetDataOf g) <? 2); [done|].
  destruct (indexOf (headerRow g) (VStr columnToMatch)) as [cim|]; [|done].
  destruct (bool_decide _); [done|]. destruct (bool_decide _); [done|].
  apply cellAt_columnSteps_frame.
  - by intros ri [? _]%elem_of_rowsToUpdateOf.
  - destruct Hout as [?|Hout]; [by left | right].
    intros ci name [Hin Hi]%elem_of_columnsInfoOf. by apply (Hout name ci).
Qed.

(** X9: in a column it updates, [findAndUpdateRows] rewrites every data
    row: a row whose match value a record carries takes that record's
    value (the empty string for a missing or falsy one), and every other
    row is left with the value it showed, so a formula there is replaced by
    its result. *)
Theorem findAndUpdateRows_flattens_column (data : list record) (columnToMatch name : string)
    (g : grid) (cim ci r0 r : nat) :
  indexOf (headerRow g) (VStr columnToMatch) = Some cim →
  indexOf (headerRow g) (VStr name) = Some ci →
  2 ≤ r0 ≤ lastRow g →
  mapHas (matchValue g cim (r0 - 1)) (dataLookupOf data columnToMatch) = true →
  2 ≤ r ≤ lastRow g →
  cellAt (sheetAfter (findAndUpdateRows data columnToMatch [name]) g) r (ci + 1)
  = stored (Lit (if mapHas (matchValue g cim (r - 1)) (dataLookupOf data columnToMatch)
                 then matchedValue (sheetDataOf g) cim (dataLookupOf data columnToMatch)
                        name (r - 1)
                 else valueAt g r (ci + 1))).
Proof.
  intros Hcim Hci Hr0 Hhas Hr. rewrite sheetAfter_findAndUpdateRows.
  unfold foundSheet. cbn zeta. rewrite length_sheetDataOf, Hcim.
  replace (lastRow g `max` 1 <? 2) with false by (symmetry; apply Nat.ltb_ge; lia).
  assert (columnsInfoOf (headerRow g) [name] = [(ci, name)]) as ->
    by (unfold columnsInfoOf; simpl; by rewrite Hci).
  set (dl := dataLookupOf data columnToMatch) in *.
  set (rows := rowsToUpdateOf (sheetDataOf g) cim dl).
  assert (r0 - 1 ∈ rows) as Hin.
  { apply elem_of_rowsToUpdateOf. rewrite length_sheetDataOf. split; [lia | done]. }
  rewrite bool_decide_eq_false_2 by done.
  rewrite bool_decide_eq_false_2
    by (intros E%nil_length_inv; rewrite E in Hin; by apply elem_of_nil in Hin).
  simpl. rewrite cellAt_columnStep_any
    by (by intros ri [? _]%elem_of_rowsToUpdateOf).
  rewrite length_sheetDataOf, decide_True by lia. do 2 f_equal.
  destruct (mapHas (matchValue g cim (r - 1)) dl) eqn:E.
  - rewrite decide_True; [done|]. apply elem_of_rowsToUpdateOf.
    rewrite length_sheetDataOf. split; [lia | done].
  - rewrite decide_False; [done|]. intros [_ Hh]%elem_of_rowsToUpdateOf.
    unfold matchValue in E. congruence.
Qed.

(** ** What upsertRows writes *)

Lemma upsertRows_cells (data : list record) (columnToMatch : string) (headerRowIndex : nat)
    (g : grid) (cim r c : nat) :
  literalOnly g → headerSpans g 1 →
  indexOf (headerRow g) (VStr columnToMatch) = Some cim →
  data ≠ [] →
  let m := existingRows (sheetDataOf g) cim in
  let news := newRecordsOf m columnToMatch data in
  cellAt (sheetAfter (upsertRows data columnToMatch headerRowIndex) g) r c
  = if decide (lastRow g + 1 ≤ r < lastRow g + 1 + length news ∧ 1 ≤ c ≤ lastColumn g)
    then stored (Lit (fieldOrEmpty (news !!! (r - (lastRow g + 1))) (headerRow g !!! (c - 1))))
    else match lastHit (headerRow g) (existingUpdatesOf m columnToMatch data) r c with
         | Some v => stored (Lit v)
         | None => cellAt g r c
         end.
Proof.
  intros Hlit Hspan Hcim Hdata. cbn zeta. rewrite sheetAfter_upsertRows by done.
  rewrite (second_cellAt_g1 g data columnToMatch cim Hlit Hcim Hspan).
  destruct (decide _); [done|]. apply cellAt_updatedSheet.
Qed.

(** X10: on a sheet without formulas whose header row reaches the last
    populated column, [upsertRows] changes a cell of an existing row only
    by applying a record to it: the row carries the record's truthy match
    value, the cell's header is a key of the record, and the cell holds
    the record's value for that key. *)
Theorem upsertRows_changes_matched_fields (data : list record) (columnToMatch : string)
    (headerRowIndex : nat) (g : grid) (cim r c : nat) :
  literalOnly g → headerSpans g 1 →
  indexOf (headerRow g) (VStr columnToMatch) = Some cim →
  1 ≤ r ≤ lastRow g →
  cellAt (sheetAfter (upsertRows data columnToMatch headerRowIndex) g) r c ≠ cellAt g r c →
  ∃ rec key val,
    rec ∈ data ∧ rec !! key = Some val
    ∧ falsy (prop rec columnToMatch) = false
    ∧ matchValue g cim (r - 1) = prop rec columnToMatch
    ∧ 1 ≤ c ∧ indexOf (headerRow g) (VStr key) = Some (c - 1)
    ∧ cellAt (sheetAfter (upsertRows data columnToMatch headerRowIndex) g) r c
      = stored (Lit val).
Proof.
  intros Hlit Hspan Hcim Hr Hchanged.
  destruct data as [|rec0 data0] eqn:Edata; [done|]. rewrite <- Edata in *.
  assert (data ≠ []) as Hne by (by rewrite Edata).
  rewrite (upsertRows_cells data columnToMatch headerRowIndex g cim) in Hchanged |- * by done.
  rewrite decide_False in Hchanged |- * by lia.
  destruct (lastHit _ _ r c) as [v|] eqn:E; [|done].
  apply lastHit_Some in E as ([ri rec] & Hu & (-> & Hc & key & Hk & Hv)%hitOf_Some).
  cbn [fst snd] in *.
  apply (update_target g data columnToMatch cim) in Hu as (Hin & Hf & _ & Hm & _).
  exists rec, key, v. replace (ri + 1 - 1) with ri by lia. done.
Qed.

(** X11: on such a sheet, the records [upsertRows] takes as new, those
    whose match value is falsy or in no row, are written in their order to
    the rows below the last one, each under the headers: the record's
    value where a header is one of its keys and the empty string
    elsewhere. *)
Theorem upsertRows_inserts_below (data : list record) (columnToMatch : string)
    (headerRowIndex : nat) (g : grid) (cim k c : nat) :
  literalOnly g → headerSpans g 1 →
  indexOf (headerRow g) (VStr columnToMatch) = Some cim →
  let news := newRecordsOf (existingRows (sheetDataOf g) cim) columnToMatch data in
  k < length news → 1 ≤ c ≤ lastColumn g →
  cellAt (sheetAfter (upsertRows data columnToMatch headerRowIndex) g) (lastRow g + 1 + k) c
  = stored (Lit (fieldOrEmpty (news !!! k) (headerRow g !!! (c - 1)))).
Proof.
  intros Hlit Hspan Hcim news Hk Hc.
  assert (data ≠ []) as Hne by (intros ->; unfold news in Hk; simpl in Hk; lia).
  rewrite (upsertRows_cells data columnToMatch headerRowIndex g cim) by done.
  fold news. rewrite decide_True by lia.
  by replace (lastRow g + 1 + k - (lastRow g + 1)) with k by lia.
Qed.

(** ** What the decoders return *)

Lemma valueAt_never_null (g : grid) (r c : nat) :
  nonEmpty (valueAt g r c) = neStr (valueAt g r c).
Proof.
  unfold valueAt. pose proof (cellAt_stored g r c) as Hs.
  destruct (cellAt g r c) as [v|f].
  - unfold stored in Hs. cbn [blankContent] in Hs.
    destruct (blankValue v) eqn:Ev.
    + injection Hs as <-. done.
    + unfold blankValue in Ev. apply negb_false_iff in Ev. rewrite Ev.
      symmetry. by apply nonEmpty_neStr.
  - destruct (blankValue (calc f g)) eqn:Ev; [done|].
    unfold blankValue in Ev. apply negb_false_iff in Ev. rewrite Ev.
    symmetry. by apply nonEmpty_neStr.
Qed.

Lemma decodeCell_values (displayData : option (list (list string))) (rowIndex : nat)
    (row : list value) (obj : record) (column : nat * value) :
  (∀ k v, obj !! k = Some v → decodedValue (bool_decide (is_Some displayData)) v) →
  ∀ k v, decodeCell displayData rowIndex row obj column !! k = Some v →
         decodedValue (bool_decide (is_Some displayData)) v.
Proof.
  intros Hobj k v. destruct column as [j h]. unfold decodeCell.
  destruct (falsy h); [apply Hobj|].
  assert (∀ w, decodedValue (bool_decide (is_Some displayData)) w →
               <[toKey h := w]> obj !! k = Some v →
               decodedValue (bool_decide (is_Some displayData)) v) as Hins.
  { intros w Hw. destruct (decide (k = toKey h)) as [->|Hne].
    - rewrite lookup_insert_eq. by intros [= <-].
    - rewrite lookup_insert_ne by done. apply Hobj. }
  destruct displayData as [shown|]; simpl in *.
  - destruct (isDate (row !!! j)) eqn:Ed; [by apply Hins|].
    destruct (nonEmpty (row !!! j)); [by apply Hins | apply Hobj].
  - destruct (nonEmpty (row !!! j)) eqn:En; [by apply Hins | apply Hobj].
Qed.

Lemma rowToObject_values (displayData : option (list (list string)))
    (headers : list value) (rowIndex : nat) (row : list value) (k : string) (v : value) :
  rowToObject displayData headers rowIndex row !! k = Some v →
  decodedValue (bool_decide (is_Some displayData)) v.
Proof.
  unfold rowToObject.
  assert (∀ (l : list (nat * value)) (obj : record),
            (∀ k v, obj !! k = Some v → decodedValue (bool_decide (is_Some displayData)) v) →
            ∀ k v, foldl (decodeCell displayData rowIndex row) obj l !! k = Some v →
                   decodedValue (bool_decide (is_Some displayData)) v) as Hfold.
  { induction l as [|x l IH]; intros obj Hobj; [done|]. simpl. apply IH.
    by apply decodeCell_values. }
  apply Hfold. intros k' v'. by rewrite lookup_empty.
Qed.

Lemma decodeLines_values (headers : list value) (data : list (list value))
    (displayData : option (list (list string))) (l : list record) (rec : record)
    (k : string) (v : value) :
  decodeLines headers data displayData = DRecords l → rec ∈ l → rec !! k = Some v →
  decodedValue (bool_decide (is_Some displayData)) v.
Proof.
  unfold decodeLines. cbn zeta. destruct (bool_decide _); [done|]. intros [= <-].
  intros ([i row] & -> & _)%list_elem_of_fmap. apply rowToObject_values.
Qed.

(** X12: whatever the sheet and the orientation, a record the decoder
    returns holds no Date object when dates are decoded as shown text, and
    holds no empty string, [null] or [undefined] when they are not. *)
Theorem decoded_fields (headerIndex startIndex : nat) (options : readOptions) (g : grid)
    (l : list record) (rec : record) (k : string) (v : value) :
  resultOf (sheetToObjectsV2 headerIndex startIndex options) g = Returned (DRecords l) →
  rec ∈ l → rec !! k = Some v →
  decodedValue (useDisplayDates options) v.
Proof.
  intros Hres Hrec Hv. revert Hres.
  apply (post_resultOf _ _ (λ o, o = Returned (DRecords l) →
           decodedValue (useDisplayDates options) v)).
  unfold sheetToObjectsV2.
  repeat wp_step; try done; intros [= E];
    by apply (decodeLines_values _ _ _ _ _ _ _ E Hrec Hv).
Qed.

(** ** The first decoder and the second *)

Lemma foldl_ext_in {A B : Type} (f f' : A → B → A) (l : list B) :
  (∀ a x, x ∈ l → f a x = f' a x) → ∀ a, foldl f a l = foldl f' a l.
Proof.
  induction l as [|x l IH]; intros Hext a; [done|]. simpl.
  rewrite Hext by (by left). apply IH. intros a' y Hy. apply Hext. by right.
Qed.

Lemma fmap_indexed {A B : Type} (f : A → B) (l : list A) :
  (λ '(i, x), f x) <$> indexed l = f <$> l.
Proof.
  apply list_eq. intros i. rewrite !list_lookup_fmap, lookup_indexed.
  by destruct (l !! i).
Qed.

(** On headers that are empty or truthy, and lines as they are read from
    a sheet, the two decoders build the same records. *)
Lemma decodeLinesV1_agrees (headers : list value) (data : list (list value)) :
  (∀ h, h ∈ headers → falsy h = true → h = VStr "") →
  (∀ row j, row ∈ data → j < length headers → nonEmpty (row !!! j) = neStr (row !!! j)) →
  decodeLinesV1 headers data = decodeLines headers data None.
Proof.
  intros Hheaders Hdata. unfold decodeLinesV1, decodeLines. cbn zeta.
  destruct (bool_decide _); [done|]. f_equal.
  rewrite (fmap_indexed (λ row, rowToObject None headers 0 row)).
  apply list_fmap_ext. intros i row Hrow%list_elem_of_lookup_2.
  apply list_elem_of_filter in Hrow as [_ Hrow].
  unfold rowToObject. apply foldl_ext_in. intros obj [j h] Hin%elem_of_indexed.
  pose proof (lookup_lt_Some _ _ _ Hin) as Hj.
  unfold decodeCellV1, decodeCell.
  rewrite (Hdata row j Hrow Hj).
  destruct (falsy h) eqn:Hf.
  - rewrite (Hheaders h (list_elem_of_lookup_2 _ _ _ Hin) Hf). done.
  - rewrite (falsy_neStr h Hf). done.
Qed.

(** X13: without a last-column name, the first decoder returns what the
    second returns in normal orientation with raw dates, on every sheet
    whose header cells are each empty or truthy (no header is 0 or
    false). *)
Theorem sheetToObjects_agrees (startRow headerRow : nat) (options : readOptions) (g : grid) :
  readPivot options = false → useDisplayDates options = false →
  (∀ c, 1 ≤ c ≤ lastColumn g → falsy (valueAt g headerRow c) = true →
        valueAt g headerRow c = VStr "") →
  sheetToObjects startRow None headerRow g = sheetToObjectsV2 headerRow startRow options g.
Proof.
  intros Hp Hd Hheaders. unfold sheetToObjects, sheetToObjectsV2. rewrite Hp, Hd.
  cbn [negb]. run_reads.
  destruct (decide (1 ≤ headerRow ∧ 1 ≤ lastColumn g)) as [[Hh Hc]|Hbad].
  2:{ by rewrite !run_getRange_bad by lia. }
  rewrite !run_getRange_ok by done. run_reads.
  destruct (lastRow g <? startRow) eqn:E; [done|]. apply Nat.ltb_ge in E.
  rewrite length_headers. run_reads.
  destruct (decide (1 ≤ startRow)) as [Hs|Hs].
  2:{ by rewrite !run_getRange_bad by lia. }
  rewrite !run_getRange_ok by (done || lia). run_reads.
  unfold mret, script_ret. f_equal. f_equal. apply decodeLinesV1_agrees.
  - intros h [j Hj]%list_elem_of_lookup_1.
    pose proof (lookup_lt_Some _ _ _ Hj) as Hlt. rewrite length_headers in Hlt.
    apply list_lookup_total_correct in Hj.
    rewrite readBlock_cell in Hj by (simpl; lia). cbn [rRow rCol] in Hj. subst h.
    rewrite Nat.add_0_r. apply Hheaders. lia.
  - intros row j [i Hi]%list_elem_of_lookup_1 Hj. rewrite length_headers in Hj.
    pose proof (lookup_lt_Some _ _ _ Hi) as Hlt. rewrite length_readBlock in Hlt.
    cbn [rRows] in Hlt. apply list_lookup_total_correct in Hi. subst row.
    rewrite readBlock_cell by done. apply valueAt_never_null.
Qed.

(** ** Pivot decoding is normal decoding of the sheet on its side *)

Lemma lookup_transposeGrid (g : grid) (r c : nat) : transposeGrid g !! (r, c) = g !! (c, r).
Proof. unfold transposeGrid. apply (lookup_kmap prod_swap g (c, r)). Qed.

Lemma cellAt_transposeGrid (g : grid) (r c : nat) :
  cellAt (transposeGrid g) r c = cellAt g c r.
Proof. unfold cellAt. by rewrite lookup_transposeGrid. Qed.

Lemma literalOnly_transposeGrid (g : grid) : literalOnly g → literalOnly (transposeGrid g).
Proof.
  intros Hlit [r c] x Hx. rewrite lookup_transposeGrid in Hx. by apply (Hlit _ _ Hx).
Qed.

Lemma valueAt_transposeGrid (g : grid) (r c : nat) :
  literalOnly g → valueAt (transposeGrid g) r c = valueAt g c r.
Proof.
  intros Hlit. unfold valueAt at 1. rewrite cellAt_transposeGrid.
  by rewrite (literalOnly_cellAt g c r Hlit).
Qed.

Lemma lastColumn_below (g : grid) (n : nat) :
  (∀ r c, n < c → 1 ≤ r → cellAt g r c = Blank) → lastColumn g ≤ n.
Proof.
  intros Hblank. destruct (decide (lastColumn g ≤ n)) as [|Hgt]; [done|].
  destruct (lastColumn_reached g) as (r & Hr & Hocc); [lia|].
  rewrite Hblank in Hocc by lia. done.
Qed.

Lemma lastRow_transposeGrid (g : grid) : lastRow (transposeGrid g) = lastColumn g.
Proof.
  destruct (decide (1 ≤ lastColumn g)) as [Hpos|Hzero].
  - apply lastRow_unique; [done| |].
    + destruct (lastColumn_reached g Hpos) as (r & Hr & Hocc). exists r.
      split; [done|]. by rewrite cellAt_transposeGrid.
    + intros r c Hr Hc. rewrite cellAt_transposeGrid. apply cellAt_beyond; lia.
  - enough (lastRow (transposeGrid g) ≤ 0) by lia. apply lastRow_below.
    intros r c Hr Hc. rewrite cellAt_transposeGrid. apply cellAt_beyond; lia.
Qed.

Lemma lastColumn_transposeGrid (g : grid) : lastColumn (transposeGrid g) = lastRow g.
Proof.
  destruct (decide (1 ≤ lastRow g)) as [Hpos|Hzero].
  - apply lastColumn_unique; [done| |].
    + destruct (lastRow_reached g Hpos) as (c & Hc & Hocc). exists c.
      split; [done|]. by rewrite cellAt_transposeGrid.
    + intros r c Hc Hr. rewrite cellAt_transposeGrid. apply cellAt_beyond; lia.
  - enough (lastColumn (transposeGrid g) ≤ 0) by lia. apply lastColumn_below.
    intros r c Hc Hr. rewrite cellAt_transposeGrid. apply cellAt_beyond; lia.
Qed.

Lemma readBlock_ext {A : Type} (f f' : nat → nat → A) (rg : range) :
  (∀ r c, f r c = f' r c) → readBlock f rg = readBlock f' rg.
Proof.
  intros Hext. unfold readBlock. apply list_fmap_ext. intros _ i _.
  apply list_fmap_ext. intros _ j _. apply Hext.
Qed.

Lemma concat_single_columns {A B : Type} (F : A → nat → B) (l : list A) :
  concat ((λ i, (λ j, F i j) <$> seq 0 1) <$> l) = (λ i, F i 0) <$> l.
Proof. induction l as [|x l IH]; [done|]. simpl in *. by f_equal. Qed.

(** The header column read as one list. *)
Lemma concat_readBlock_column {A : Type} (f : nat → nat → A) (r c n : nat) :
  concat (readBlock f (Range r c n 1)) = readBlock (λ r' c', f c' r') (Range c r 1 n) !!! 0.
Proof.
  rewrite readBlock_row by (simpl; lia). unfold readBlock. cbn [rRow rCol rRows rCols].
  rewrite (concat_single_columns (λ i j, f (r + i) (c + j))). done.
Qed.

(** A block transposed is the block of the swapped sheet. *)
Lemma transpose_readBlock {A : Type} `{!Inhabited A} (f : nat → nat → A) (rg : range) :
  0 < rRows rg →
  transpose (readBlock f rg)
  = readBlock (λ r c, f c r) (Range (rCol rg) (rRow rg) (rCols rg) (rRows rg)).
Proof.
  intros Hrows. unfold transpose. rewrite readBlock_row_length by done.
  unfold readBlock at 2. cbn [rRow rCol rRows rCols].
  apply list_fmap_ext. intros _ j Hj%list_elem_of_lookup_2%elem_of_seq.
  unfold readBlock. rewrite <- list_fmap_compose.
  apply list_fmap_ext. intros _ i Hi%list_elem_of_lookup_2%elem_of_seq. simpl.
  by rewrite (list_lookup_total_fmap (λ j0, f (rRow rg + i) (rCol rg + j0)) (seq 0 (rCols rg)))
    by (rewrite length_seq; lia); rewrite lookup_total_seq_lt by lia.
Qed.

(** X14: on a sheet without formulas and with a start index inside the
    populated columns, decoding in pivot orientation returns exactly what
    decoding in normal orientation returns on the sheet with rows and
    columns exchanged. *)
Theorem pivot_decodes_transposed (headerIndex startIndex : nat) (lastColumnName : option string)
    (muted dates : bool) (g : grid) :
  literalOnly g → 1 ≤ startIndex ≤ lastColumn g →
  resultOf (sheetToObjectsV2 headerIndex startIndex
              (ReadOptions lastColumnName muted dates true)) g
  = resultOf (sheetToObjectsV2 headerIndex startIndex
                (ReadOptions lastColumnName muted dates false)) (transposeGrid g).
Proof.
  intros Hlit Hs.
  assert (1 ≤ lastRow g) as Hrow by (apply lastRow_lastColumn_pos; lia).
  unfold resultOf, sheetToObjectsV2. cbn [readPivot useDisplayDates negb]. run_reads.
  rewrite ?lastColumn_transposeGrid, ?lastRow_transposeGrid.
  destruct (decide (1 ≤ headerIndex)) as [Hh|Hh].
  2:{ by rewrite !run_getRange_bad by lia. }
  rewrite !run_getRange_ok by (done || lia). run_reads.
  rewrite ?lastColumn_transposeGrid, ?lastRow_transposeGrid.
  rewrite length_headers.
  replace (lastColumn g <? startIndex) with false by (symmetry; apply Nat.ltb_ge; lia).
  replace (lastColumn g - startIndex + 1) with (lastColumn g + 1 - startIndex) by lia.
  run_reads. rewrite !run_getRange_ok by (done || lia). run_reads.
  assert (concat (readBlock (valueAt g) (Range 1 headerIndex (lastRow g) 1))
          = readBlock (valueAt (transposeGrid g)) (Range headerIndex 1 1 (lastRow g)) !!! 0)
    as ->.
  { rewrite concat_readBlock_column. f_equal. apply readBlock_ext.
    intros r c. by rewrite valueAt_transposeGrid. }
  assert (transpose (readBlock (valueAt g)
                       (Range 1 startIndex (lastRow g) (lastColumn g + 1 - startIndex)))
          = readBlock (valueAt (transposeGrid g))
              (Range startIndex 1 (lastColumn g + 1 - startIndex) (lastRow g))) as ->.
  { rewrite transpose_readBlock by (simpl; lia). cbn [rRow rCol rRows rCols].
    apply readBlock_ext. intros r c. by rewrite valueAt_transposeGrid. }
  destruct dates; [|done].
  run_reads. rewrite !run_getRange_ok by (done || lia). run_reads.
  rewrite transpose_readBlock by (simpl; lia). cbn [rRow rCol rRows rCols].
  unfold mret, script_ret. cbn [fst]. do 3 f_equal.
  apply readBlock_ext. intros r c. by rewrite valueAt_transposeGrid.
Qed.

(** ** Column names *)

(** The value of a list of letter digits, each from 1 to 26. *)
Lemma columnValue_snoc (l : list Z) (d : Z) :
  foldl (λ column c, (column * 26 + c)%Z) 0%Z (l ++ [d])
  = (foldl (λ column c, (column * 26 + c)%Z) 0%Z l * 26 + d)%Z.
Proof. by rewrite foldl_app. Qed.

Lemma columnValue_nonneg (l : list Z) :
  (∀ d, d ∈ l → (1 ≤ d ≤ 26)%Z) →
  (0 ≤ foldl (λ column c, (column * 26 + c)%Z) 0%Z l)%Z.
Proof.
  induction l as [|d l IH] using rev_ind; intros Hd; [done|].
  rewrite columnValue_snoc.
  assert (1 ≤ d ≤ 26)%Z by (apply Hd, elem_of_app; right; by left).
  assert (0 ≤ foldl (λ column c, (column * 26 + c)%Z) 0%Z l)%Z
    by (apply IH; intros d' Hd'; apply Hd, elem_of_app; by left).
  lia.
Qed.

Lemma columnValue_inj (l1 : list Z) :
  ∀ l2 : list Z,
  (∀ d, d ∈ l1 → (1 ≤ d ≤ 26)%Z) → (∀ d, d ∈ l2 → (1 ≤ d ≤ 26)%Z) →
  foldl (λ column c, (column * 26 + c)%Z) 0%Z l1
  = foldl (λ column c, (column * 26 + c)%Z) 0%Z l2 →
  l1 = l2.
Proof.
  induction l1 as [|d1 l1 IH] using rev_ind; intros l2 H1 H2 E.
  - destruct l2 as [|d2 l2 _] using rev_ind; [done|]. exfalso.
    rewrite columnValue_snoc in E.
    assert (1 ≤ d2 ≤ 26)%Z by (apply H2, elem_of_app; right; by left).
    pose proof (columnValue_nonneg l2
                  ltac:(intros d' Hd'; apply H2, elem_of_app; by left)).
    simpl in E. lia.
  - assert (1 ≤ d1 ≤ 26)%Z as Hd1 by (apply H1, elem_of_app; right; by left).
    assert (∀ d, d ∈ l1 → (1 ≤ d ≤ 26)%Z) as H1'
      by (intros d' Hd'; apply H1, elem_of_app; by left).
    pose proof (columnValue_nonneg l1 H1').
    destruct l2 as [|d2 l2 _] using rev_ind.
    + exfalso. rewrite columnValue_snoc in E. simpl in E. lia.
    + assert (1 ≤ d2 ≤ 26)%Z as Hd2 by (apply H2, elem_of_app; right; by left).
      assert (∀ d, d ∈ l2 → (1 ≤ d ≤ 26)%Z) as H2'
        by (intros d' Hd'; apply H2, elem_of_app; by left).
      pose proof (columnValue_nonneg l2 H2').
      rewrite !columnValue_snoc in E.
      assert (d1 = d2) as -> by lia.
      f_equal. apply IH; [done | done | lia].
Qed.

Lemma columnNameToIndex_digits (columnName : string) :
  columnNameToIndex columnName
  = foldl (λ column c, (column * 26 + c)%Z) 0%Z
      ((λ c, (upperCode c - 64)%Z) <$> String.list_ascii_of_string columnName).
Proof. unfold columnNameToIndex. by rewrite foldl_fmap. Qed.

Lemma letter_digit (c : Ascii.ascii) : isLetter c → (1 ≤ upperCode c - 64 ≤ 26)%Z.
Proof.
  unfold isLetter, upperCode. cbn zeta. intros [H|H].
  - replace ((97 <=? _)%Z) with false by (symmetry; apply Z.leb_gt; lia). simpl. lia.
  - replace ((97 <=? _)%Z) with true by (symmetry; apply Z.leb_le; lia).
    replace ((_ <=? 122)%Z) with true by (symmetry; apply Z.leb_le; lia). simpl. lia.
Qed.

Lemma letterName_digits (columnName : string) (d : Z) :
  letterName columnName →
  d ∈ (λ c, (upperCode c - 64)%Z) <$> String.list_ascii_of_string columnName →
  (1 ≤ d ≤ 26)%Z.
Proof.
  intros Hname (c & -> & Hc)%list_elem_of_fmap. by apply letter_digit, Hname.
Qed.


Lemma columnValue_bounds (l : list Z) :
  (∀ d, d ∈ l → (1 ≤ d ≤ 26)%Z) →
  (leastIndex (length l) ≤ foldl (λ column c, (column * 26 + c)%Z) 0%Z l
   ≤ 26 * leastIndex (length l))%Z.
Proof.
  induction l as [|d l IH] using rev_ind; intros Hd; [done|].
  rewrite columnValue_snoc, length_app. simpl.
  replace (length l + 1) with (S (length l)) by lia. cbn [leastIndex].
  assert (1 ≤ d ≤ 26)%Z by (apply Hd, elem_of_app; right; by left).
  assert (∀ d', d' ∈ l → (1 ≤ d' ≤ 26)%Z) as Hl
    by (intros d' Hd'; apply Hd, elem_of_app; by left).
  specialize (IH Hl). lia.
Qed.

Lemma leastIndex_mono (n k : nat) : n ≤ k → (leastIndex n ≤ leastIndex k)%Z.
Proof.
  induction 1 as [|k Hle IH]; [done|]. cbn [leastIndex].
  assert (0 ≤ leastIndex n)%Z by (clear; induction n; cbn [leastIndex]; lia). lia.
Qed.


(** ** addRowsToSheet *)

Lemma length_rowWrites (headers : list value) (l : list (string * value)) :
  ∀ row0 : list value,
  length (foldl (λ newRow (kv : string * value),
            match indexOf headers (VStr kv.1) with
            | Some columnIndex => <[columnIndex := kv.2]> newRow
            | None => newRow
            end) row0 l) = length row0.
Proof.
  induction l as [|[k v] l IH]; intros row0; [done|]. simpl. rewrite IH.
  destruct (indexOf headers (VStr k)); [by rewrite length_insert | done].
Qed.

(** The writes of the keys of a data object into a line: position [j]
    takes the value of the key that is the header of [j], when [j] is the
    first column with that header, and keeps its value otherwise. *)
Lemma rowWrites_lookup (headers : list value) (j : nat) (l : list (string * value)) :
  ∀ row0 : list value,
  NoDup l.*1 → j < length row0 →
  foldl (λ newRow (kv : string * value),
           match indexOf headers (VStr kv.1) with
           | Some columnIndex => <[columnIndex := kv.2]> newRow
           | None => newRow
           end) row0 l !!! j
  = match headers !! j with
    | Some (VStr key) =>
        if decide (indexOf headers (VStr key) = Some j)
        then default (row0 !!! j) ((list_to_map l : record) !! key)
        else row0 !!! j
    | _ => row0 !!! j
    end.
Proof.
  induction l as [|[k v] l IH]; intros row0 Hnd Hj.
  - simpl. destruct (headers !! j) as [[key| | | | |]|]; try done.
    by destruct (decide _).
  - apply NoDup_cons in Hnd as [Hk Hnd]. cbn [foldl fst snd].
    rewrite IH by (done || (destruct (indexOf headers (VStr k));
                            [by rewrite length_insert | done])).
    assert ((list_to_map l : record) !! k = None) as Hnone
      by (by apply not_elem_of_list_to_map_1).
    assert (∀ i, indexOf headers (VStr k) = Some i → i ≠ j →
                 <[i := v]> row0 !!! j = row0 !!! j) as Hother
      by (intros i _ Hne; by rewrite list_lookup_total_insert_ne).
    assert (indexOf headers (VStr k) = Some j →
            headers !! j = Some (VStr k)) as Hhead.
    { intros Hi. destruct (indexOf_lookup _ _ _ Hi) as (_ & Hl & Hlt).
      rewrite <- Hl. by apply list_lookup_lookup_total_lt. }
    simpl. destruct (headers !! j) as [[key| | | | |]|] eqn:Eh.
    + destruct (decide (indexOf headers (VStr key) = Some j)) as [Hkey|Hkey].
      * destruct (decide (key = k)) as [->|Hne].
        -- rewrite Hkey, lookup_insert_eq, Hnone. simpl.
           by rewrite list_lookup_total_insert_eq by done.
        -- rewrite lookup_insert_ne by done.
           destruct (indexOf headers (VStr k)) as [i|] eqn:Ei; [|done].
           rewrite Hother; [done | done |]. intros ->.
           apply Hne. symmetry. by apply (indexOf_inj headers k key j).
      * destruct (indexOf headers (VStr k)) as [i|] eqn:Ei; [|done].
        apply Hother; [done|]. intros ->. specialize (Hhead eq_refl).
        injection Hhead as ->. done.
    + destruct (indexOf headers (VStr k)) as [i|] eqn:Ei; [|done].
      apply Hother; [done|]. intros ->. by specialize (Hhead eq_refl).
    + destruct (indexOf headers (VStr k)) as [i|] eqn:Ei; [|done].
      apply Hother; [done|]. intros ->. by specialize (Hhead eq_refl).
    + destruct (indexOf headers (VStr k)) as [i|] eqn:Ei; [|done].
      apply Hother; [done|]. intros ->. by specialize (Hhead eq_refl).
    + destruct (indexOf headers (VStr k)) as [i|] eqn:Ei; [|done].
      apply Hother; [done|]. intros ->. by specialize (Hhead eq_refl).
    + destruct (indexOf headers (VStr k)) as [i|] eqn:Ei; [|done].
      apply Hother; [done|]. intros ->. by specialize (Hhead eq_refl).
    + destruct (indexOf headers (VStr k)) as [i|] eqn:Ei; [|done].
      apply Hother; [done|]. intros ->. by specialize (Hhead eq_refl).
Qed.

Lemma length_createRowFromData (headers : list value) (rowData : record) :
  length (createRowFromData headers rowData) = length headers.
Proof. unfold createRowFromData. by rewrite length_rowWrites, length_replicate. Qed.

Lemma createRowFromData_lookup (headers : list value) (rowData : record) (j : nat) :
  j < length headers →
  createRowFromData headers rowData !!! j = dataCell headers rowData j.
Proof.
  intros Hj. unfold createRowFromData, dataCell.
  rewrite rowWrites_lookup
    by (apply NoDup_fst_map_to_list || by rewrite length_replicate).
  rewrite list_to_map_to_list, lookup_total_replicate_2 by done.
  destruct (headers !! j) as [[key| | | | |]|]; done.
Qed.

Lemma run_setValues_ok (rg : range) (m : list (list value)) (g : grid) :
  rectangular (rRows rg) (rCols rg) m = true →
  setValues rg m g
  = (Returned (), writeRows (rRow rg) (rCol rg) ((λ row : list value, Lit <$> row) <$> m) g).
Proof. intros Hrect. unfold setValues. by rewrite Hrect. Qed.

(** The run of [addRowsToSheet] on a sheet with content. *)
Lemma run_addRowsToSheet (newRowsData : rowsData) (g : grid) :
  1 ≤ lastColumn g → rowsOf newRowsData ≠ [] →
  addRowsToSheet newRowsData g
  = (Returned (),
     writeRows (lastRow g + 1) 1
       ((λ row : list value, Lit <$> row)
          <$> (createRowFromData (headerLine g 1) <$> rowsOf newRowsData)) g).
Proof.
  intros Hcol Hrows. unfold addRowsToSheet. run_reads.
  rewrite run_getRange_ok by done. run_reads.
  fold (headerLine g 1).
  pose proof (length_headers g 1 (lastColumn g)) as Hlen. fold (headerLine g 1) in Hlen.
  destruct newRowsData as [rowData|rows]; [done|]. cbn [rowsOf] in *.
  run_reads. rewrite length_fmap, Hlen.
  rewrite run_getRange_ok by (first [lia | destruct rows; [done | simpl; lia]]).
  apply run_setValues_ok. cbn [rRows rCols].
  rewrite <- Hlen.
  apply rectangular_fmap. intros rec. apply length_createRowFromData.
Qed.

(** X17: [addRowsToSheet] called with an empty array throws, on every
    sheet, and leaves the sheet as it was: the range it asks for has no
    rows. *)
Theorem addRowsToSheet_empty_array (g : grid) :
  sheetAfter (addRowsToSheet (ManyRows [])) g = g
  ∧ ∃ e, resultOf (addRowsToSheet (ManyRows [])) g = Thrown e.
Proof.
  unfold sheetAfter, resultOf, addRowsToSheet. run_reads.
  destruct (decide (1 ≤ lastColumn g)) as [Hc|Hc].
  - rewrite run_getRange_ok by done. run_reads.
    rewrite run_getRange_bad by (simpl; lia). split; [done | by eexists].
  - rewrite run_getRange_bad by lia. split; [done | by eexists].
Qed.

(** X18: on a sheet with content, [addRowsToSheet] with one data object
    or a non-empty array returns normally and writes the objects, in
    order, to the rows below the last row with content: under the first
    column headed by one of its keys an object puts that key's value, in
    every other position the empty string; no other cell changes. *)
Theorem addRowsToSheet_appends (newRowsData : rowsData) (g : grid) :
  1 ≤ lastColumn g → rowsOf newRowsData ≠ [] →
  resultOf (addRowsToSheet newRowsData) g = Returned ()
  ∧ ∀ r c,
      cellAt (sheetAfter (addRowsToSheet newRowsData) g) r c
      = if decide (lastRow g + 1 ≤ r < lastRow g + 1 + length (rowsOf newRowsData)
                   ∧ 1 ≤ c ≤ lastColumn g)
        then stored (Lit (dataCell (headerLine g 1)
                            (rowsOf newRowsData !!! (r - (lastRow g + 1))) (c - 1)))
        else cellAt g r c.
Proof.
  intros Hcol Hrows. unfold resultOf, sheetAfter.
  rewrite run_addRowsToSheet by done. split; [done|]. intros r c. cbn [snd].
  pose proof (length_headers g 1 (lastColumn g)) as Hlen. fold (headerLine g 1) in Hlen.
  rewrite (cellAt_setValues (length (rowsOf newRowsData)) (lastColumn g)).
  2:{ rewrite <- Hlen. apply rectangular_fmap. intros rec. apply length_createRowFromData. }
  destruct (decide (lastRow g + 1 ≤ r < lastRow g + 1 + length (rowsOf newRowsData)
                    ∧ 1 ≤ c < 1 + lastColumn g)) as [[Hr Hc]|Hout].
  - rewrite decide_True by lia.
    rewrite (list_lookup_total_fmap (createRowFromData (headerLine g 1))
               (rowsOf newRowsData)) by lia.
    by rewrite createRowFromData_lookup by lia.
  - by rewrite decide_False by lia.
Qed.

(** On headers that are distinct strings a data object's row is its
    encoding. *)
Lemma createRowFromData_encoding (headers : list value) (rowData : record) :
  (∀ j h, headers !! j = Some h → ∃ key, h = VStr key ∧ indexOf headers h = Some j) →
  createRowFromData headers rowData = fieldOrEmpty rowData <$> headers.
Proof.
  intros Hheaders. apply list_eq_same_length with (length headers);
    [by rewrite length_fmap | apply length_createRowFromData |].
  intros j x y Hj Hx Hy. apply list_lookup_total_correct in Hx.
  rewrite list_lookup_fmap in Hy.
  destruct (headers !! j) as [h|] eqn:Eh; [|done]. simpl in Hy. injection Hy as <-.
  rewrite createRowFromData_lookup in Hx by done. subst x. unfold dataCell.
  rewrite Eh. destruct (Hheaders j h Eh) as (key & -> & Hi).
  rewrite decide_True by done. unfold fieldOrEmpty, hasOwnProperty, prop. simpl.
  destruct (rowData !! key); [by rewrite bool_decide_eq_true_2 by (by eexists)|].
  by rewrite bool_decide_eq_false_2 by (by intros [? ?]).
Qed.

(** X19: on a sheet without formulas whose first-row headers are
    distinct strings, [addRowsToSheet] with a non-empty array does what
    the first encoder does in append mode with row 1 as its header row:
    the same outcome and the same sheet. *)
Theorem addRowsToSheet_agrees (rows : list record) (startRowIndex : nat) (g : grid) :
  literalOnly g → rows ≠ [] →
  (∀ j h, headerLine g 1 !! j = Some h →
          ∃ key, h = VStr key ∧ indexOf (headerLine g 1) h = Some j) →
  addRowsToSheet (ManyRows rows) g = objectsToSheet rows 1 startRowIndex "append" g.
Proof.
  intros Hlit Hrows Hheaders.
  destruct (decide (1 ≤ lastColumn g)) as [Hcol|Hcol].
  2:{ unfold addRowsToSheet, objectsToSheet. run_reads.
      by rewrite !run_getRange_bad by lia. }
  rewrite run_addRowsToSheet by done. cbn [rowsOf].
  unfold objectsToSheet. run_reads. rewrite run_getRange_ok by done. run_reads.
  fold (headerLine g 1).
  rewrite (bool_decide_eq_false_2 ("append" = "overwrite")) by done.
  rewrite bool_decide_eq_true_2 by done.
  unfold getLastNonEmptyRow. run_reads.
  unfold mret, script_ret. cbn iota beta.
  change (scanRows _ _) with (lastNonEmptyRow g).
  rewrite (lastNonEmptyRow_literal g Hlit) by (by apply lastRow_lastColumn_pos).
  rewrite length_fmap.
  replace (0 <? length rows) with true
    by (symmetry; apply Nat.ltb_lt; destruct rows; [done | simpl; lia]).
  cbn [when]. run_reads.
  pose proof (length_headers g 1 (lastColumn g)) as Hlen. fold (headerLine g 1) in Hlen.
  rewrite Hlen, run_getRange_ok by (first [lia | destruct rows; [done | simpl; lia]]).
  rewrite run_setValues_ok.
  2:{ cbn [rRows rCols]. rewrite <- Hlen. apply rectangular_fmap.
      intros rec. by rewrite length_fmap. }
  cbn [rRow rCol]. do 3 f_equal.
  apply list_fmap_ext. intros i rec _. by apply createRowFromData_encoding.
Qed.

(** ** deleteColumnContents *)

(** X20: [deleteColumnContents] throws the header-not-found error and
    changes nothing when the name is not in the first row; when it is,
    and the start row is on the grid, it returns normally and blanks the
    cells of the first column with that header from the start row to the
    last row with content, and no other cell. *)
Theorem deleteColumnContents_clears (headerName : string) (startRow : nat) (g : grid) :
  (indexOf (headerRow g) (VStr headerName) = None →
   deleteColumnContents headerName startRow g = (Thrown (headerNotFound headerName), g))
  ∧ (∀ columnIndex, indexOf (headerRow g) (VStr headerName) = Some columnIndex →
     1 ≤ startRow →
     resultOf (deleteColumnContents headerName startRow) g = Returned ()
     ∧ ∀ r c,
         cellAt (sheetAfter (deleteColumnContents headerName startRow) g) r c
         = if decide (c = columnIndex + 1 ∧ startRow ≤ r ≤ lastRow g)
           then Blank else cellAt g r c).
Proof.
  unfold resultOf, sheetAfter, deleteColumnContents. run_reads.
  change (readBlock (valueAt g) _) with (sheetDataOf g).
  change (sheetDataOf g !!! 0) with (headerRow g).
  split; [by intros ->|]. intros columnIndex -> Hs. run_reads.
  destruct (startRow <=? lastRow g) eqn:E; cbn [when]; bool_hyps.
  - run_reads. rewrite run_getRange_ok by lia. split; [done|]. intros r c.
    cbn [clearContent fillRange modify snd rRow rCol rRows rCols].
    rewrite cellAt_fill. split_decides; try lia; done.
  - split; [done|]. intros r c. cbn [snd mret script_ret].
    by rewrite decide_False by lia.
Qed.

(** ** objectToRow *)

Lemma findMatch_Some (values : list (list value)) (valueToMatch : value) :
  ∀ i,
  i < length values →
  looseEquals ((values !!! i) !!! 0) valueToMatch = true →
  (∀ k, k < i → looseEquals ((values !!! k) !!! 0) valueToMatch = false) →
  findMatch values valueToMatch = Some i.
Proof.
  induction values as [|line rest IH]; intros i Hi Hhit Hbefore; [simpl in Hi; lia|].
  simpl. destruct i as [|i].
  - simpl in Hhit. by rewrite Hhit.
  - pose proof (Hbefore 0 ltac:(lia)) as H0. simpl in H0. rewrite H0.
    rewrite (IH i); [done | simpl in Hi; lia | done |].
    intros k Hk. apply (Hbefore (S k)). lia.
Qed.

Lemma findMatch_None (values : list (list value)) (valueToMatch : value) :
  (∀ k, k < length values → looseEquals ((values !!! k) !!! 0) valueToMatch = false) →
  findMatch values valueToMatch = None.
Proof.
  induction values as [|line rest IH]; intros Hnone; [done|].
  simpl. pose proof (Hnone 0 ltac:(simpl; lia)) as H0. simpl in H0. rewrite H0.
  rewrite IH; [done|]. intros k Hk. apply (Hnone (S k)). simpl. lia.
Qed.

Lemma matchColumn_cell (g : grid) (columnIndex n k : nat) :
  k < n →
  (readBlock (valueAt g) (Range 2 columnIndex n 1) !!! k) !!! 0
  = valueAt g (2 + k) columnIndex.
Proof.
  intros Hk. rewrite readBlock_cell by (simpl; lia). cbn [rRow rCol].
  by rewrite Nat.add_0_r.
Qed.

(** X21: [objectToRow] throws the header-not-found error when the header
    to match is not in the first row; it throws too when the header is
    there but the sheet has no row below the header row, because the range
    it searches has no rows; and it returns without a change when no row
    below the header row holds a value loosely equal to the value to
    match. *)
Theorem objectToRow_guards (headerToMatch : string) (valueToMatch : value)
    (newRowData : record) (g : grid) :
  1 ≤ lastColumn g →
  (indexOf (headerLine g 1) (VStr headerToMatch) = None →
   objectToRow headerToMatch valueToMatch newRowData g = (Thrown "Header not found", g))
  ∧ (is_Some (indexOf (headerLine g 1) (VStr headerToMatch)) → lastRow g = 1 →
     sheetAfter (objectToRow headerToMatch valueToMatch newRowData) g = g
     ∧ ∃ e, resultOf (objectToRow headerToMatch valueToMatch newRowData) g = Thrown e)
  ∧ (∀ index, indexOf (headerLine g 1) (VStr headerToMatch) = Some index →
     2 ≤ lastRow g →
     (∀ r, 2 ≤ r ≤ lastRow g →
           looseEquals (valueAt g r (index + 1)) valueToMatch = false) →
     objectToRow headerToMatch valueToMatch newRowData g = (Returned (), g)).
Proof.
  intros Hcol. unfold sheetAfter, resultOf, objectToRow. run_reads.
  rewrite run_getRange_ok by done. run_reads. fold (headerLine g 1).
  split_and!.
  - by intros ->.
  - intros [index ->] Hrow. run_reads. rewrite run_getRange_bad by lia.
    split; [done | by eexists].
  - intros index -> Hrow Hnone. run_reads. rewrite run_getRange_ok by lia. run_reads.
    rewrite findMatch_None; [done|]. intros k Hk. rewrite length_readBlock in Hk.
    cbn [rRows] in Hk. rewrite matchColumn_cell by done. apply Hnone. lia.
Qed.

(** X22: when rows below the header row hold a value loosely equal to
    the value to match, [objectToRow] edits the first of them and no other
    row: it returns normally, and in that row every cell up to the last
    populated column is left with a literal, the object's value where the
    cell's column is the first one headed by a key of the object, and the
    value the cell showed everywhere else. *)
Theorem objectToRow_edits_first_match (headerToMatch : string) (valueToMatch : value)
    (newRowData : record) (g : grid) (index row : nat) :
  indexOf (headerLine g 1) (VStr headerToMatch) = Some index →
  2 ≤ row ≤ lastRow g →
  looseEquals (valueAt g row (index + 1)) valueToMatch = true →
  (∀ r, 2 ≤ r < row → looseEquals (valueAt g r (index + 1)) valueToMatch = false) →
  resultOf (objectToRow headerToMatch valueToMatch newRowData) g = Returned ()
  ∧ ∀ r c,
      cellAt (sheetAfter (objectToRow headerToMatch valueToMatch newRowData) g) r c
      = if decide (r = row ∧ 1 ≤ c ≤ lastColumn g)
        then stored (Lit (editedCell (headerLine g 1) newRowData (c - 1) (valueAt g row c)))
        else cellAt g r c.
Proof.
  intros Hindex Hrow Hhit Hbefore.
  assert (1 ≤ lastColumn g) as Hcol by (apply lastRow_lastColumn_pos; lia).
  pose proof (length_headers g 1 (lastColumn g)) as Hlen. fold (headerLine g 1) in Hlen.
  unfold sheetAfter, resultOf, objectToRow. run_reads.
  rewrite run_getRange_ok by done. run_reads. fold (headerLine g 1).
  rewrite Hindex. run_reads. rewrite run_getRange_ok by lia. run_reads.
  rewrite (findMatch_Some _ _ (row - 2)).
  2:{ rewrite length_readBlock. simpl. lia. }
  2:{ rewrite matchColumn_cell by lia. by replace (2 + (row - 2)) with row by lia. }
  2:{ intros k Hk. rewrite matchColumn_cell by lia. apply Hbefore. lia. }
  replace (row - 2 + 2) with row by lia. rewrite Hlen.
  run_reads. rewrite run_getRange_ok by lia. run_reads.
  set (current := readBlock (valueAt g) (Range row 1 1 (lastColumn g)) !!! 0).
  assert (length current = lastColumn g) as Hcur
    by (unfold current; by rewrite readBlock_row_length by (simpl; lia)).
  set (rowData := foldl _ current _).
  assert (length rowData = lastColumn g) as Hrd
    by (unfold rowData; by rewrite length_rowWrites).
  rewrite run_setValues_ok.
  2:{ cbn [rRows rCols]. unfold rectangular. simpl.
      by rewrite Hrd, !bool_decide_eq_true_2 by done. }
  cbn [rRow rCol fst snd]. split; [done|]. intros r c.
  rewrite (cellAt_setValues 1 (lastColumn g)).
  2:{ unfold rectangular. simpl. by rewrite Hrd, !bool_decide_eq_true_2 by done. }
  destruct (decide (row ≤ r < row + 1 ∧ 1 ≤ c < 1 + lastColumn g)) as [[Hr Hc]|Hout].
  - rewrite decide_True by lia. assert (r = row) as -> by lia.
    replace (row - row) with 0 by lia. do 2 f_equal.
    change ([rowData] !!! 0) with rowData. unfold rowData.
    rewrite rowWrites_lookup by (apply NoDup_fst_map_to_list || lia).
    rewrite list_to_map_to_list. unfold editedCell.
    assert (current !!! (c - 1) = valueAt g row c) as ->.
    { unfold current. rewrite readBlock_cell by (simpl; lia). cbn [rRow rCol].
      rewrite Nat.add_0_r. by replace (1 + (c - 1)) with c by lia. }
    done.
  - by rewrite decide_False by lia.
Qed.

(** ** The last populated row and column *)

Lemma scanRows_hit (values : list (list value)) (n i : nat) :
  i < n → existsb nonEmpty (values !!! i) = true →
  scanRows values n - 1 < n
  ∧ existsb nonEmpty (values !!! (scanRows values n - 1)) = true.
Proof.
  induction n as [|n IH]; intros Hi Hex; [lia|]. simpl.
  destruct (existsb nonEmpty (values !!! n)) eqn:E.
  - replace (n + 1 - 1) with n by lia. split; [lia | done].
  - destruct (decide (i = n)) as [->|]; [congruence|].
    destruct IH as [Hlt Hhit]; [lia | done |]. split; [lia | done].
Qed.

Lemma shownRow_existsb (g : grid) (i : nat) :
  i < lastRow g `max` 1 →
  existsb nonEmpty (readBlock (valueAt g) (dataRangeOf g) !!! i) = true
  ↔ ∃ c, 1 ≤ c ≤ lastColumn g `max` 1 ∧ nonEmpty (valueAt g (1 + i) c) = true.
Proof.
  intros Hi. rewrite readBlock_row by done. cbn [dataRangeOf rRow rCol rCols].
  rewrite existsb_exists. split.
  - intros (v & Hin & Hv). apply list_elem_of_In, list_elem_of_fmap in Hin as (j & -> & Hj).
    apply elem_of_seq in Hj. exists (1 + j). split; [lia | done].
  - intros (c & Hc & Hv). exists (valueAt g (1 + i) c). split; [|done].
    apply list_elem_of_In, list_elem_of_fmap. exists (c - 1). split.
    + f_equal. lia.
    + apply elem_of_seq. lia.
Qed.

(** X23: [getLastNonEmptyRow] never fails and never writes; the row it
    returns is at least 1 and at most the sheet's last row (1 on an empty
    sheet), every cell below it shows the empty string, null or
    undefined, and when some cell of the sheet shows anything else, a
    cell of the returned row does. *)
Theorem getLastNonEmptyRow_last_shown (g : grid) :
  ∃ n, getLastNonEmptyRow g = (Returned n, g)
    ∧ 1 ≤ n ≤ lastRow g `max` 1
    ∧ (∀ r c, n < r → 1 ≤ c → nonEmpty (valueAt g r c) = false)
    ∧ ((∃ r c, 1 ≤ r ∧ 1 ≤ c ∧ nonEmpty (valueAt g r c) = true) →
       ∃ c, 1 ≤ c ≤ lastColumn g ∧ nonEmpty (valueAt g n c) = true).
Proof.
  exists (lastNonEmptyRow g). split_and!.
  - done.
  - apply lastNonEmptyRow_pos.
  - unfold lastNonEmptyRow. cbn zeta. rewrite length_readBlock.
    pose proof (scanRows_bounds (readBlock (valueAt g) (dataRangeOf g))
                  (rRows (dataRangeOf g))) as Hb.
    cbn [dataRangeOf rRows] in *. lia.
  - intros r c Hr Hc. destruct (nonEmpty (valueAt g r c)) eqn:E; [|done].
    pose proof (lastNonEmptyRow_pos g).
    pose proof (lastNonEmptyRow_ge g r c ltac:(lia) Hc E). lia.
  - intros (r & c & Hr & Hc & Hv).
    pose proof (blankContent_of_value _ _ _ Hv) as Hb.
    pose proof (lastRow_ge g r c Hr Hc Hb). pose proof (lastColumn_ge g r c Hr Hc Hb).
    unfold lastNonEmptyRow. cbn zeta.
    set (values := readBlock (valueAt g) (dataRangeOf g)).
    assert (length values = lastRow g `max` 1) as Hn
      by (unfold values; by rewrite length_readBlock).
    pose proof (scanRows_bounds values (length values)) as Hbounds.
    destruct (scanRows_hit values (length values) (r - 1)) as [Hlt Hhit].
    { lia. }
    { apply shownRow_existsb; [lia|]. exists c. split; [lia|].
      by replace (1 + (r - 1)) with r by lia. }
    apply shownRow_existsb in Hhit as (c' & Hc' & Hv'); [|lia].
    replace (1 + (scanRows values (length values) - 1))
      with (scanRows values (length values)) in Hv' by lia.
    exists c'. split; [|done].
    pose proof (blankContent_of_value _ _ _ Hv') as Hb'.
    pose proof (lastColumn_ge g (scanRows values (length values)) c'
                  ltac:(lia) ltac:(lia) Hb'). lia.
Qed.

Lemma scanColumns_le (data : list (list value)) (nrows startCol n : nat) :
  scanColumns data nrows startCol n ≤ startCol `max` n.
Proof.
  induction n as [|n IH]; simpl; [lia|].
  destruct (startCol - 1 <=? n); [|lia]. destruct (existsb _ _); lia.
Qed.

Lemma scanColumns_above (data : list (list value)) (nrows startCol n k : nat) :
  scanColumns data nrows startCol n ≤ k → k < n →
  existsb (λ row, neStr ((data !!! row) !!! k)) (seq 0 nrows) = false.
Proof.
  induction n as [|n IH]; intros Hle Hk; [lia|]. simpl in Hle.
  destruct (startCol - 1 <=? n) eqn:E.
  - destruct (existsb (λ row, neStr ((data !!! row) !!! n)) (seq 0 nrows)) eqn:Ex; [lia|].
    destruct (decide (k = n)) as [->|]; [done|]. apply IH; [done | lia].
  - apply Nat.leb_gt in E. lia.
Qed.

Lemma scanColumns_hit (data : list (list value)) (nrows startCol n : nat) :
  startCol < scanColumns data nrows startCol n →
  existsb (λ row, neStr ((data !!! row) !!! (scanColumns data nrows startCol n - 1)))
    (seq 0 nrows) = true.
Proof.
  induction n as [|n IH]; simpl; [lia|].
  destruct (startCol - 1 <=? n) eqn:E; [|lia].
  destruct (existsb (λ row, neStr ((data !!! row) !!! n)) (seq 0 nrows)) eqn:Ex.
  - intros _. by replace (n + 1 - 1) with n by lia.
  - done.
Qed.

Lemma shownColumn_existsb (g : grid) (k : nat) :
  k < lastColumn g →
  existsb (λ row, neStr ((readBlock (valueAt g) (Range 1 1 (lastRow g) (lastColumn g))
                            !!! row) !!! k)) (seq 0 (lastRow g)) = true
  ↔ ∃ r, 1 ≤ r ≤ lastRow g ∧ neStr (valueAt g r (1 + k)) = true.
Proof.
  intros Hk. rewrite existsb_exists. split.
  - intros (i & Hi%list_elem_of_In%elem_of_seq & Hv).
    rewrite readBlock_cell in Hv by (simpl; lia). exists (1 + i). split; [lia | done].
  - intros (r & Hr & Hv). exists (r - 1). split.
    + apply list_elem_of_In, elem_of_seq. lia.
    + rewrite readBlock_cell by (simpl; lia). cbn [rRow rCol].
      by replace (1 + (r - 1)) with r by lia.
Qed.

(** X24: [getLastNonEmptyColumn] never fails and never writes; the
    column it returns is at least the start column and at most the larger
    of the start column and the sheet's last column, every cell to its
    right shows the empty string, and when it is beyond the start column
    one of its cells shows something else. *)
Theorem getLastNonEmptyColumn_last_shown (startCol : nat) (g : grid) :
  ∃ n, getLastNonEmptyColumn startCol g = (Returned n, g)
    ∧ startCol ≤ n ≤ startCol `max` lastColumn g
    ∧ (∀ r c, 1 ≤ r → n < c → neStr (valueAt g r c) = false)
    ∧ (startCol < n → ∃ r, 1 ≤ r ≤ lastRow g ∧ neStr (valueAt g r n) = true).
Proof.
  exists (lastNonEmptyColumn startCol g).
  assert (∀ r c, 1 ≤ r → 1 ≤ c → lastRow g < r ∨ lastColumn g < c →
                 neStr (valueAt g r c) = false) as Hbeyond.
  { intros r c Hr Hc Hout. unfold valueAt. by rewrite cellAt_beyond by done. }
  split_and!.
  - pose proof (post_getLastNonEmptyColumn startCol g
                  (λ o g', (o, g') = (Returned (lastNonEmptyColumn startCol g), g))
                  eq_refl) as H.
    unfold post in H. by destruct (getLastNonEmptyColumn startCol g).
  - apply lastNonEmptyColumn_ge.
  - unfold lastNonEmptyColumn. destruct (_ || _); [lia|]. apply scanColumns_le.
  - intros r c Hr Hc. pose proof (lastNonEmptyColumn_ge startCol g) as Hge.
    destruct (decide (r ≤ lastRow g ∧ c ≤ lastColumn g)) as [[Hr' Hc']|Hout];
      [|apply Hbeyond; lia].
    revert Hc Hge. unfold lastNonEmptyColumn.
    destruct (bool_decide (lastColumn g = 0) || bool_decide (lastRow g = 0)) eqn:E.
    { apply orb_true_iff in E as [E%bool_decide_eq_true|E%bool_decide_eq_true]; lia. }
    intros Hc Hge.
    pose proof (scanColumns_above
                  (readBlock (valueAt g) (Range 1 1 (lastRow g) (lastColumn g)))
                  (lastRow g) startCol (lastColumn g) (c - 1)
                  ltac:(lia) ltac:(lia)) as Hnone.
    destruct (neStr (valueAt g r c)) eqn:Ev; [|done].
    assert (existsb (λ row, neStr ((readBlock (valueAt g)
              (Range 1 1 (lastRow g) (lastColumn g)) !!! row) !!! (c - 1)))
              (seq 0 (lastRow g)) = true) as Hex.
    { apply shownColumn_existsb; [lia|]. exists r. split; [lia|].
      by replace (1 + (c - 1)) with c by lia. }
    congruence.
  - unfold lastNonEmptyColumn.
    destruct (bool_decide (lastColumn g = 0) || bool_decide (lastRow g = 0)) eqn:E; [lia|].
    intros Hlt. pose proof (scanColumns_hit _ _ _ _ Hlt) as Hhit.
    pose proof (scanColumns_le (readBlock (valueAt g) (Range 1 1 (lastRow g) (lastColumn g)))
                  (lastRow g) startCol (lastColumn g)) as Hle.
    apply shownColumn_existsb in Hhit as (r & Hr & Hv); [|lia].
    exists r. split; [done|].
    by replace (1 + (scanColumns _ _ _ _ - 1)) with
      (scanColumns (readBlock (valueAt g) (Range 1 1 (lastRow g) (lastColumn g)))
         (lastRow g) startCol (lastColumn g)) in Hv by lia.
Qed.

(** ** transpose *)

(** X25: on a table of at least one row and one column whose rows have
    the same length, [transpose] exchanges the two dimensions, the cell
    at row [i] and column [j] of the result is the cell at row [j] and
    column [i] of the table, and transposing twice gives the table
    back. *)
Theorem transpose_involutive {A : Type} `{!Inhabited A} (nr nc : nat)
    (matrix : list (list A)) :
  rectangular nr nc matrix = true → 1 ≤ nr → 1 ≤ nc →
  rectangular nc nr (transpose matrix) = true
  ∧ (∀ i j, i < nc → j < nr →
            (transpose matrix !!! i) !!! j = (matrix !!! j) !!! i)
  ∧ transpose (transpose matrix) = matrix.
Proof.
  intros Hrect Hnr Hnc.
  pose proof (rectangular_length _ _ _ Hrect) as Hlen.
  pose proof (rectangular_row _ _ _ 0 Hrect ltac:(lia)) as Hrow0.
  assert (∀ i, i < nc →
            transpose matrix !!! i = (λ row : list A, row !!! i) <$> matrix) as Hline.
  { intros i Hi. unfold transpose. rewrite Hrow0. apply list_lookup_total_correct.
    by rewrite list_lookup_fmap, lookup_seq_lt by done. }
  assert (length (transpose matrix) = nc) as Hlen'
    by (unfold transpose; by rewrite length_fmap, length_seq).
  assert (∀ i j, i < nc → j < nr →
            (transpose matrix !!! i) !!! j = (matrix !!! j) !!! i) as Hcell.
  { intros i j Hi Hj. rewrite Hline by done. apply list_lookup_total_correct.
    rewrite list_lookup_fmap. by rewrite list_lookup_lookup_total_lt by lia. }
  split_and!; [|done|].
  - unfold rectangular. rewrite Hlen', bool_decide_eq_true_2 by done. simpl.
    apply forallb_forall. intros line Hin%list_elem_of_In.
    apply bool_decide_eq_true_2. unfold transpose in Hin.
    apply list_elem_of_fmap in Hin as (i & -> & _). by rewrite length_fmap.
  - unfold transpose at 1. rewrite Hline by lia. rewrite length_fmap, Hlen.
    apply (list_eq_same_length _ _ nr); [done | by rewrite length_fmap, length_seq |].
    intros j line line' Hj Hl Hl'.
    rewrite list_lookup_fmap, lookup_seq_lt in Hl by done. injection Hl as <-.
    apply (list_eq_same_length _ _ nc).
    + eapply (rectangular_row nr nc matrix j) in Hrect; [|done].
      apply list_lookup_total_correct in Hl'. by rewrite Hl' in Hrect.
    + by rewrite length_fmap.
    + intros i x y Hi Hx Hy. rewrite list_lookup_fmap in Hx.
      destruct (transpose matrix !! i) as [col|] eqn:Ecol; [|done].
      injection Hx as <-. apply list_lookup_total_correct in Ecol.
      rewrite <- Ecol, Hcell by done.
      apply list_lookup_total_correct in Hl'. rewrite Hl'.
      apply list_lookup_total_correct in Hy. by rewrite Hy.
Qed.

(** ** Overwriting twice *)

Lemma literalOnly_fill_blank (r c nr nc : nat) (g : grid) :
  literalOnly g →
  literalOnly (writeRows r c (replicate nr (replicate nc Blank)) g).
Proof.
  intros Hlit.
  replace (replicate nr (replicate nc Blank))
    with ((λ row : list value, Lit <$> row) <$> replicate nr (replicate nc (VStr ""))).
  - by apply literalOnly_writeRows.
  - by rewrite !fmap_replicate.
Qed.

Ltac literal_done :=
  repeat first
    [ assumption
    | apply literalOnly_writeRows
    | apply literalOnly_fill_blank ].

Lemma overwrite_literalOnly (array : list record) (headerIndex startIndex : nat)
    (options : writeOptions) (g : grid) :
  literalOnly g → mode options = "overwrite" →
  literalOnly (sheetAfter (writeNormal array headerIndex startIndex options) g).
Proof.
  intros Hlit Hmode. apply (post_sheetAfter _ _ literalOnly).
  unfold writeNormal. rewrite Hmode, bool_decide_eq_true_2 by done.
  do 4 wp_step; [|done]. do 2 wp_step. do 2 wp_step. wp_step.
  - do 2 wp_step; [|done]. do 4 wp_step.
    repeat wp_step; try (by literal_done).
    unfold post. rewrite restoreFormulas_none by (intros; by apply literalOnly_formulas).
    done.
  - repeat wp_step; by literal_done.
Qed.

(** X26: on a sheet without formulas whose header line lies before the
    start line and reaches the last populated column, overwriting in
    normal orientation with a non-empty list of records a second time
    changes nothing: after the first call the sheet is a fixed point of
    the call. *)
Theorem overwrite_twice (array : list record) (headerIndex startIndex : nat)
    (options : writeOptions) (g : grid) :
  literalOnly g → mode options = "overwrite" → pivot options = false →
  1 ≤ headerIndex < startIndex → headerSpans g headerIndex → array ≠ [] →
  let g1 := sheetAfter (objectsToSheetV2 array headerIndex startIndex options) g in
  ∀ r c, cellAt (sheetAfter (objectsToSheetV2 array headerIndex startIndex options) g1) r c
         = cellAt g1 r c.
Proof.
  intros Hlit Hmode Hpivot Hindex Hspan Harray. cbv zeta. unfold objectsToSheetV2.
  rewrite Hpivot. cbn [negb]. intros r c.
  set (g1 := sheetAfter (writeNormal array headerIndex startIndex options) g).
  pose proof (overwrite_literalOnly array headerIndex startIndex options g Hlit Hmode) as Hlit1.
  pose proof (trip_cells array headerIndex startIndex options g Hlit Hmode Hindex Hspan Harray)
    as Hcells.
  pose proof (trip_lastColumn array headerIndex startIndex options g Hlit Hmode Hindex Hspan
                Harray) as Hcol1.
  pose proof (trip_headerLine array headerIndex startIndex options g Hlit Hmode Hindex Hspan
                Harray) as Hhead1.
  fold g1 in Hlit1, Hcells, Hcol1, Hhead1.
  pose proof Hspan as [Hpos Hocc].
  rewrite (overwrite_cells array headerIndex startIndex options g1) by (done || lia).
  unfold overwritten at 1. rewrite Hcol1, Hhead1, Hcells. unfold overwritten.
  by destruct (decide (startIndex ≤ r ∧ 1 ≤ c ≤ lastColumn g)).
Qed.

End Host.

(** * Instances on sample sheets *)

Import Samples.

Lemma header_line_unchanged_witness :
  cellAt (sheetAfter (objectsToSheetV2 noCalc noKey [ {[ "Name" := VStr "Carl" ]} ] 1 3
                        appendOptions) people) 1 1
  = cellAt people 1 1.
Proof.
  apply (proj1 (header_line_unchanged noCalc noKey)
           [ {[ "Name" := VStr "Carl" ]} ] 1 3 appendOptions people 1).
  - lia.
  - exists 1. split; [lia | reflexivity].
Defined.

Lemma overwrite_replays_formulas_witness :
  formulaAt (sheetAfter (objectsToSheetV2 noCalc noKey
                           [ {[ "Item" := VStr "Ink" ]}; {[ "Item" := VStr "Tax"; "Cost" := VNum 9 ]} ]
                           1 3 overwriteOptions) ledger) 4 2
  = "=SUM(B3:B3)".
Proof.
  apply (overwrite_replays_formulas noCalc noKey).
  - reflexivity.
  - reflexivity.
  - vm_compute. lia.
  - reflexivity.
  - discriminate.
Defined.

Lemma overlay_keeps_unsupplied_witness :
  let g' := sheetAfter (objectsToSheetV2 noCalc noKey [ {[ "Age" := VNum 31 ]} ] 1 3
                          overlayOptions) people in
  keepsValue noCalc people g' 3 1
  ∧ (preserveFormulas overlayOptions = true → cellAt g' 3 1 = cellAt people 3 1).
Proof.
  apply (overlay_keeps_unsupplied noCalc noKey [ {[ "Age" := VNum 31 ]} ] 1 3
           overlayOptions people 3 1).
  - reflexivity.
  - intros (i & obj & Hobj & Hi & _ & Hhas).
    assert (i = 0) as -> by lia. injection Hobj as <-. vm_compute in Hhas. discriminate.
Defined.

Lemma decode_empty_results_witness :
  resultOf (sheetToObjectsV2 noCalc plain noKey "People" 1 3 defaultReadOptions) headerOnly
  = Returned DNull.
Proof.
  apply (decode_empty_results noCalc plain noKey "People" 1 3 defaultReadOptions headerOnly).
  - lia.
  - vm_compute. lia.
  - reflexivity.
  - vm_compute. lia.
Defined.

Lemma append_extends_witness :
  lastNonEmptyRow noCalc
    (sheetAfter (objectsToSheetV2 noCalc noKey
                   [ {[ "Name" := VStr "Carl" ]}; {[ "Age" := VNum 40 ]} ] 1 3 appendOptions)
       people)
  = lastNonEmptyRow noCalc people + 2.
Proof.
  apply (proj2 (append_extends noCalc noKey
                  [ {[ "Name" := VStr "Carl" ]}; {[ "Age" := VNum 40 ]} ] 1 3 appendOptions
                  people eq_refl) {[ "Age" := VNum 40 ]}).
  - unfold literalOnly. apply (bool_decide_unpack _). vm_compute. exact I.
  - lia.
  - vm_compute. lia.
  - reflexivity.
  - exists 2. split; [vm_compute; lia | reflexivity].
Defined.

Lemma overwrite_clears_beyond_witness :
  cellAt (sheetAfter (objectsToSheetV2 noCalc noKey [ {[ "Item" := VStr "Ink" ]} ] 1 3
                        overwriteOptions) ledger) 4 1
  = Blank.
Proof.
  apply (overwrite_clears_beyond noCalc noKey [ {[ "Item" := VStr "Ink" ]} ] 1 3
           overwriteOptions ledger 4 1); (reflexivity || (simpl; lia)).
Defined.

(** C2 as stated fails: with formulas preserved, the formula line below
    the new data is back after the overwrite; and in pivot orientation
    the second record's column survives an overwrite with one record. *)
Lemma overwrite_clears_beyond_counterexample :
  (4 ≤ lastRow ledger
   ∧ cellAt (sheetAfter (objectsToSheetV2 noCalc noKey [ {[ "Item" := VStr "Ink" ]} ] 1 3
                           overwriteOptions) ledger) 4 2
     = Formula "=SUM(B3:B3)")
  ∧ (4 ≤ lastColumn peopleColumns
     ∧ cellAt (sheetAfter (objectsToSheetV2 noCalc noKey [ {[ "Name" := VStr "Carl" ]} ] 1 3
                             (WriteOptions "overwrite" true false)) peopleColumns) 1 4
       = Lit (VStr "Bob")).
Proof. vm_compute. repeat split; lia. Qed.

(** C7 as stated fails: with only a header the extent ends before the
    start line, and the decoder returns [null], not the tagged result. *)
Lemma decode_empty_results_counterexample :
  lastRow headerOnly < 3
  ∧ resultOf (sheetToObjectsV2 noCalc plain noKey "People" 1 3 defaultReadOptions) headerOnly
    = Returned DNull
  ∧ ¬ ∃ message data,
        resultOf (sheetToObjectsV2 noCalc plain noKey "People" 1 3 defaultReadOptions)
          headerOnly
        = Returned (DEmpty message data).
Proof.
  split; [vm_compute; lia|]. split; [reflexivity|].
  intros (message & data & E). vm_compute in E. discriminate.
Qed.

(** C9 as stated fails: appending one record that has none of the header
    fields writes a blank line, and the last populated row stays. *)
Lemma append_extends_counterexample :
  1 ≤ lastRow people
  ∧ lastNonEmptyRow noCalc
      (sheetAfter (objectsToSheetV2 noCalc noKey [ ∅ ] 1 3 appendOptions) people)
    ≠ lastNonEmptyRow noCalc people + 1.
Proof. vm_compute. split; [lia | discriminate]. Qed.



Lemma findAndUpdateRows_refines_update_path_witness :
  cellAt (sheetAfter (findAndUpdateRows noCalc [ {[ "Name" := VStr "Bob"; "Age" := VNum 26 ]} ]
                        "Name" ["Age"]) roster) 3 2
  = cellAt (sheetAfter (upsertUpdatePath noCalc [ {[ "Name" := VStr "Bob"; "Age" := VNum 26 ]} ]
                          "Name" ["Age"]) roster) 3 2.
Proof.
  apply (findAndUpdateRows_refines_update_path noCalc
           [ {[ "Name" := VStr "Bob"; "Age" := VNum 26 ]} ] "Name" ["Age"] roster).
  - unfold literalOnly. apply (bool_decide_unpack _). vm_compute. exact I.
  - intros cim i j [= <-] Hi Hij Hj _.
    assert (i = 1 ∧ j = 2) as [-> ->] by (vm_compute in Hj; lia). discriminate.
  - intros rec ->%list_elem_of_singleton. split; [reflexivity|].
    intros name ->%list_elem_of_singleton _. reflexivity.
Defined.

(** C8 as stated fails: [findAndUpdateRows] blanks a named field the
    record lacks and writes the empty string for a falsy value, where the
    update path of [upsertRows] leaves the cell and writes the value. *)
Lemma findAndUpdateRows_refines_update_path_counterexample :
  (cellAt (sheetAfter (findAndUpdateRows noCalc [ {[ "Name" := VStr "Bob" ]} ]
                         "Name" ["Age"]) roster) 3 2 = Blank
   ∧ cellAt (sheetAfter (upsertUpdatePath noCalc [ {[ "Name" := VStr "Bob" ]} ]
                           "Name" ["Age"]) roster) 3 2 = Lit (VNum 25))
  ∧ (cellAt (sheetAfter (findAndUpdateRows noCalc
                           [ {[ "Name" := VStr "Bob"; "Age" := VNum 0 ]} ]
                           "Name" ["Age"]) roster) 3 2 = Blank
     ∧ cellAt (sheetAfter (upsertUpdatePath noCalc
                             [ {[ "Name" := VStr "Bob"; "Age" := VNum 0 ]} ]
                             "Name" ["Age"]) roster) 3 2 = Lit (VNum 0)).
Proof. vm_compute. done. Qed.





(** * Instances of the further properties *)

Lemma clear_from_row_witness :
  lastRow (sheetAfter (clearSheetContentFromRow 3) people) < 3.
Proof. apply (clear_from_row 3 people). lia. Defined.

Lemma objectsToSheet_agrees_witness :
  objectsToSheet noCalc noKey [ {[ "Name" := VStr "Carl" ]} ] 1 3 "append" people
  = objectsToSheetV2 noCalc noKey [ {[ "Name" := VStr "Carl" ]} ] 1 3
      (WriteOptions "append" false false) people.
Proof.
  apply (objectsToSheet_agrees noCalc noKey [ {[ "Name" := VStr "Carl" ]} ] 1 3 "append" people).
  by right.
Defined.

Lemma objectsToSheet_rejects_mode_witness :
  resultOf (objectsToSheet noCalc noKey [ {[ "Name" := VStr "Carl" ]} ] 1 3 "overlay") people
  = Thrown invalidModeV1.
Proof.
  apply (objectsToSheet_rejects_mode noCalc noKey [ {[ "Name" := VStr "Carl" ]} ] 1 3
           "overlay" people).
  - discriminate.
  - discriminate.
  - lia.
  - vm_compute. lia.
Defined.

Lemma objectsToSheetV2_rejects_mode_witness :
  resultOf (objectsToSheetV2 noCalc noKey [ {[ "Name" := VStr "Carl" ]} ] 1 3
              (WriteOptions "merge" false false)) people
  = Thrown invalidMode.
Proof.
  apply (objectsToSheetV2_rejects_mode noCalc noKey [ {[ "Name" := VStr "Carl" ]} ] 1 3
           (WriteOptions "merge" false false) people).
  - discriminate.
  - discriminate.
  - discriminate.
  - lia.
  - vm_compute. lia.
Defined.

Lemma empty_sheet_throws_witness :
  sheetAfter (sheetToObjectsV2 noCalc plain noKey "People" 1 3 defaultReadOptions) (∅ : grid)
  = ∅.
Proof.
  refine (proj1 (proj2 (empty_sheet_throws noCalc plain noKey "People" (∅ : grid) _) 1 3
                   defaultReadOptions)).
  vm_compute. reflexivity.
Defined.

Lemma upsertRows_guards_witness :
  upsertRows noCalc noKey [ {[ "Id" := VNum 7 ]} ] "Id" 1 roster
  = (Thrown (columnNotFound "Id"), roster).
Proof.
  apply (upsertRows_guards noCalc noKey [ {[ "Id" := VNum 7 ]} ] "Id" 1 roster).
  - discriminate.
  - reflexivity.
Defined.

Lemma findAndUpdateRows_guards_witness :
  findAndUpdateRows noCalc [ {[ "Id" := VNum 7 ]} ] "Id" ["Age"] roster
  = (Thrown (columnNotFound "Id"), roster).
Proof.
  apply (findAndUpdateRows_guards noCalc [ {[ "Id" := VNum 7 ]} ] "Id" ["Age"] roster).
  - vm_compute. lia.
  - reflexivity.
Defined.

Lemma findAndUpdateRows_frame_witness :
  cellAt (sheetAfter (findAndUpdateRows noCalc [ {[ "Name" := VStr "Bob"; "Age" := VNum 26 ]} ]
                        "Name" ["Age"]) roster) 3 1
  = cellAt roster 3 1.
Proof.
  apply (findAndUpdateRows_frame noCalc [ {[ "Name" := VStr "Bob"; "Age" := VNum 26 ]} ]
           "Name" ["Age"] roster 3 1).
  right. intros name ci ->%list_elem_of_singleton E. vm_compute in E.
  injection E as <-. lia.
Defined.

Lemma findAndUpdateRows_flattens_column_witness :
  let data := [ {[ "Name" := VStr "Bob"; "Age" := VNum 26 ]} ] in
  cellAt (sheetAfter (findAndUpdateRows noCalc data "Name" ["Age"]) roster) 2 (1 + 1)
  = stored (Lit (if mapHas (matchValue noCalc roster 0 (2 - 1)) (dataLookupOf data "Name")
                 then matchedValue (sheetDataOf noCalc roster) 0 (dataLookupOf data "Name")
                        "Age" (2 - 1)
                 else valueAt noCalc roster 2 (1 + 1))).
Proof.
  apply (findAndUpdateRows_flattens_column noCalc
           [ {[ "Name" := VStr "Bob"; "Age" := VNum 26 ]} ] "Name" "Age" roster 0 1 3 2).
  - reflexivity.
  - reflexivity.
  - vm_compute. lia.
  - reflexivity.
  - vm_compute. lia.
Defined.

Lemma upsertRows_changes_matched_fields_witness :
  let data := [ {[ "Name" := VStr "Bob"; "Age" := VNum 26 ]} ] in
  ∃ rec key val,
    rec ∈ data ∧ rec !! key = Some val
    ∧ falsy (prop rec "Name") = false
    ∧ matchValue noCalc roster 0 (3 - 1) = prop rec "Name"
    ∧ 1 ≤ 2 ∧ indexOf (headerRow noCalc roster) (VStr key) = Some (2 - 1)
    ∧ cellAt (sheetAfter (upsertRows noCalc noKey data "Name" 1) roster) 3 2
      = stored (Lit val).
Proof.
  apply (upsertRows_changes_matched_fields noCalc noKey
           [ {[ "Name" := VStr "Bob"; "Age" := VNum 26 ]} ] "Name" 1 roster 0 3 2).
  - unfold literalOnly. apply (bool_decide_unpack _). vm_compute. exact I.
  - split; [vm_compute; lia | reflexivity].
  - reflexivity.
  - vm_compute. lia.
  - vm_compute. discriminate.
Defined.

Lemma upsertRows_inserts_below_witness :
  let data := [ {[ "Name" := VStr "Carl"; "Age" := VNum 40 ]} ] in
  cellAt (sheetAfter (upsertRows noCalc noKey data "Name" 1) roster) (lastRow roster + 1 + 0) 1
  = stored (Lit (fieldOrEmpty noKey
                   (newRecordsOf (existingRows (sheetDataOf noCalc roster) 0) "Name" data !!! 0)
                   (headerRow noCalc roster !!! (1 - 1)))).
Proof.
  apply (upsertRows_inserts_below noCalc noKey
           [ {[ "Name" := VStr "Carl"; "Age" := VNum 40 ]} ] "Name" 1 roster 0 0 1).
  - unfold literalOnly. apply (bool_decide_unpack _). vm_compute. exact I.
  - split; [vm_compute; lia | reflexivity].
  - reflexivity.
  - vm_compute. lia.
  - vm_compute. lia.
Defined.

Lemma decoded_fields_witness :
  decodedValue (useDisplayDates defaultReadOptions) (VStr "Alice").
Proof.
  apply (decoded_fields noCalc plain noKey "People" 1 3 defaultReadOptions people
           [ {[ "Name" := VStr "Alice"; "Age" := VNum 30 ]};
             {[ "Name" := VStr "Bob"; "Age" := VNum 25 ]} ]
           {[ "Name" := VStr "Alice"; "Age" := VNum 30 ]} "Name").
  - vm_compute. reflexivity.
  - apply list_elem_of_here.
  - reflexivity.
Defined.

Lemma sheetToObjects_agrees_witness :
  sheetToObjects noCalc noKey "People" 3 None 1 people
  = sheetToObjectsV2 noCalc plain noKey "People" 1 3 (ReadOptions None true false false) people.
Proof.
  apply (sheetToObjects_agrees noCalc plain noKey "People" 3 1
           (ReadOptions None true false false) people).
  - reflexivity.
  - reflexivity.
  - intros c Hc.
    assert (c = 1 ∨ c = 2) as [-> | ->] by (vm_compute in Hc; lia); vm_compute; discriminate.
Defined.

Lemma pivot_decodes_transposed_witness :
  resultOf (sheetToObjectsV2 noCalc plain noKey "People" 1 3
              (ReadOptions None true false true)) peopleColumns
  = resultOf (sheetToObjectsV2 noCalc plain noKey "People" 1 3
                (ReadOptions None true false false)) (transposeGrid peopleColumns).
Proof.
  apply (pivot_decodes_transposed noCalc plain noKey "People" 1 3 None true false
           peopleColumns).
  - unfold literalOnly. apply (bool_decide_unpack _). vm_compute. exact I.
  - vm_compute. lia.
Defined.

Lemma letterName_ab : letterName "ab".
Proof.
  intros c [->|[->|[]%elem_of_nil]%elem_of_cons]%elem_of_cons; right; vm_compute;
    split; discriminate.
Qed.

Lemma letterName_AB : letterName "AB".
Proof.
  intros c [->|[->|[]%elem_of_nil]%elem_of_cons]%elem_of_cons; left; vm_compute;
    split; discriminate.
Qed.

Lemma letterName_Z : letterName "Z".
Proof.
  intros c [->|[]%elem_of_nil]%elem_of_cons; left; vm_compute; split; discriminate.
Qed.



Lemma addRowsToSheet_appends_witness :
  resultOf (addRowsToSheet noCalc (OneRow {[ "Name" := VStr "Carl" ]})) roster = Returned ().
Proof.
  apply (addRowsToSheet_appends noCalc (OneRow {[ "Name" := VStr "Carl" ]}) roster).
  - vm_compute. lia.
  - discriminate.
Defined.

Lemma addRowsToSheet_agrees_witness :
  addRowsToSheet noCalc (ManyRows [ {[ "Name" := VStr "Carl" ]} ]) roster
  = objectsToSheet noCalc noKey [ {[ "Name" := VStr "Carl" ]} ] 1 3 "append" roster.
Proof.
  apply (addRowsToSheet_agrees noCalc noKey [ {[ "Name" := VStr "Carl" ]} ] 3 roster).
  - unfold literalOnly. apply (bool_decide_unpack _). vm_compute. exact I.
  - discriminate.
  - change (headerLine noCalc roster 1) with [VStr "Name"; VStr "Age"].
    intros [|[|j]] h [= <-]; eexists; split; reflexivity.
Defined.

Lemma deleteColumnContents_clears_witness :
  resultOf (deleteColumnContents noCalc "Age" 2) roster = Returned ().
Proof.
  apply (proj2 (deleteColumnContents_clears noCalc "Age" 2 roster) 1).
  - reflexivity.
  - lia.
Defined.

Lemma objectToRow_guards_witness :
  objectToRow noCalc equalsText "Name" (VStr "Zed") {[ "Age" := VNum 1 ]} roster
  = (Returned (), roster).
Proof.
  apply (objectToRow_guards noCalc equalsText "Name" (VStr "Zed") {[ "Age" := VNum 1 ]}
           roster ltac:(vm_compute; lia)) with (index := 0).
  - reflexivity.
  - vm_compute. lia.
  - intros r Hr.
    assert (r = 2 ∨ r = 3) as [-> | ->] by (vm_compute in Hr; lia); reflexivity.
Defined.

Lemma objectToRow_edits_first_match_witness :
  resultOf (objectToRow noCalc equalsText "Name" (VStr "Bob") {[ "Age" := VNum 9 ]}) twins
  = Returned ().
Proof.
  apply (objectToRow_edits_first_match noCalc equalsText "Name" (VStr "Bob")
           {[ "Age" := VNum 9 ]} twins 0 2).
  - reflexivity.
  - vm_compute. lia.
  - reflexivity.
  - intros r Hr. lia.
Defined.

Lemma transpose_involutive_witness :
  transpose (transpose [[1; 2; 3]; [4; 5; 6]]) = [[1; 2; 3]; [4; 5; 6]].
Proof.
  apply (transpose_involutive 2 3 [[1; 2; 3]; [4; 5; 6]]); [reflexivity | lia | lia].
Defined.

Lemma overwrite_twice_witness :
  let g1 := sheetAfter (objectsToSheetV2 noCalc noKey [ {[ "Name" := VStr "Carl" ]} ] 1 3
                          overwriteOptions) people in
  cellAt (sheetAfter (objectsToSheetV2 noCalc noKey [ {[ "Name" := VStr "Carl" ]} ] 1 3
                        overwriteOptions) g1) 3 1
  = cellAt g1 3 1.
Proof.
  refine (overwrite_twice noCalc noKey [ {[ "Name" := VStr "Carl" ]} ] 1 3 overwriteOptions
            people _ _ _ _ _ _ 3 1).
  - unfold literalOnly. apply (bool_decide_unpack _). vm_compute. exact I.
  - reflexivity.
  - reflexivity.
  - lia.
  - split; [vm_compute; lia | reflexivity].
  - discriminate.
Defined.
